(** * The HTTP-callback subscription transport

    A shallow embedding of
    [packages/transports/http-callback/src/index.ts]: the transport
    instance returned by [getSubgraphExecutor], the per-subscription
    closure built by [httpCallbackExecutor], the pub/sub message
    handler, the finalisation hook and the disposal hook.

    The code is event driven.  Its mutable state (the [heartbeats] map,
    the [stopFnSet] set, the closure variables [pushFn] and
    [stopSubscription] of every subscription) is one record,
    [Transport], which also carries the part of the JavaScript runtime
    the code talks to: the clock and the table of live timers
    ([setTimeout] / [clearTimeout]), the microtask queue on which the
    [stop.finally] callbacks wait, the listener table of the pub/sub
    bus, and the state of each Repeater.  Code that can throw runs in a
    small state-and-exception monad [M].  Calls to [logger.debug] have
    no effect on any of this and are left out. *)

From stdpp Require Import base option list gmap strings.
From Stdlib Require Import ZArith Lia.

#[local] Open Scope string_scope.
#[local] Open Scope list_scope.

(** ** Errors *)

(** The [extensions] of a GraphQL error, restricted to the two entries
    this file ever writes: [code] and [http.status]. *)
Record Extensions := {
  ext_code : option string;
  ext_http_status : option Z;
}.

Record GraphQLError := {
  message : string;
  extensions : Extensions;
}.

#[global] Instance Extensions_eq_dec : EqDecision Extensions.
Proof. solve_decision. Defined.
#[global] Instance GraphQLError_eq_dec : EqDecision GraphQLError.
Proof. solve_decision. Defined.

Definition no_extensions : Extensions :=
  {| ext_code := None; ext_http_status := None |}.

(** [createGraphQLError(message, options)] of [@graphql-tools/utils]. *)
Definition createGraphQLError (msg : string) (opts : Extensions) : GraphQLError :=
  {| message := msg; extensions := opts |}.

(** What can be thrown, or handed to [stop]: a GraphQL error, an
    [AggregateError] (its [errors] and its [message]), or any other
    JavaScript error, of which only the text is kept. *)
Inductive Error :=
| EGraphQL (e : GraphQLError)
| EAggregate (errors : list GraphQLError) (msg : string)
| EPlain (msg : string).

#[global] Instance Error_eq_dec : EqDecision Error.
Proof. solve_decision. Defined.

(** index.ts, lines 54-60. *)
Definition createTimeoutError : GraphQLError :=
  createGraphQLError "Subscription timed out"
    {| ext_code := Some "TIMEOUT_ERROR"; ext_http_status := None |}.


(** The messages an error carries. *)
Definition error_messages (e : Error) : list string :=
  match e with
  | EGraphQL g => [message g]
  | EAggregate errs _ => message <$> errs
  | EPlain m => [m]
  end.

(** The line feed, and [errs.map(err => err.message).join('\n')]. *)
Definition newline : string :=
  String (Ascii.Ascii false true false true false false false false) EmptyString.

Fixpoint join_lines (l : list string) : string :=
  match l with
  | [] => ""
  | [x] => x
  | x :: rest => (x ++ newline ++ join_lines rest)%string
  end.

(** ** Values on the wire *)

(** JSON values are kept as their text. *)
Definition Json := string.

Record ExecutionResult := {
  data : option Json;
  errors : option (list GraphQLError);
}.

(** [HTTPCallbackMessage], index.ts lines 32-52.  The [kind] field is
    the constant ['subscription']. *)
Inductive Action :=
| Check
| Next (payload : ExecutionResult)
| Complete (errs : option (list GraphQLError)).

Record HTTPCallbackMessage := {
  msg_id : string;
  msg_verifier : string;
  msg_action : Action;
}.

(** What the initiating [fetch] settles to: a rejection, or a response
    with its status and the outcome of [res.json()] ([None] when the
    body is not JSON). *)
Record Response := {
  res_status : Z;
  res_json : option ExecutionResult;
}.

Definition res_ok (r : Response) : bool :=
  ((200 <=? res_status r) && (res_status r <=? 299))%Z.

Inductive FetchResult :=
| FetchRejected (e : Error)
| FetchResponse (r : Response).

(** ** Configuration *)

(** [HTTPCallbackTransportOptions], index.ts lines 13-30. *)
Record HTTPCallbackTransportOptions := {
  public_url : option string;
  path : option string;
  heartbeat_interval : option Z;
}.


Inductive HeadersConfig :=
| HeadersAbsent
| HeadersString (s : string)
| HeadersEntries (l : list (string * string)).

Record TransportEntry := {
  location : string;
  headers : HeadersConfig;
  options : option HTTPCallbackTransportOptions;
}.

Record ExecutionRequest := {
  document : string;
  operationName : option string;
}.

(** The [extensions.subscription] block of the initiating request, and
    the request itself (index.ts lines 96-109 and 129-142). *)
Record SubscriptionExtension := {
  callbackUrl : string;
  subscriptionId : string;
  ext_verifier : string;
  ext_heartbeatIntervalMs : Z;
}.

Record FetchRequest := {
  fetch_url : string;
  fetch_query : string;
  fetch_operationName : option string;
  fetch_subscription : SubscriptionExtension;
}.

(** JavaScript's [a || b] on an optional string and on an optional
    number: the empty string and zero are falsy. *)
Definition string_or (a : option string) (b : string) : string :=
  match a with
  | Some s => if decide (s = "") then b else s
  | None => b
  end.

Definition number_or (a : option Z) (b : Z) : Z :=
  match a with
  | Some n => if decide (n = 0%Z) then b else n
  | None => b
  end.

(** ** The Repeater

    [@repeaterjs/repeater] is a dependency, not part of the
    repository; this is its contract as far as the transport uses it.
    A repeater is lazy: the executor passed to the constructor runs on
    the first call of [next].  [push] after [stop] does nothing, only
    the first [stop] counts, and the promise behind [stop] (hence every
    [stop.finally] callback) is resolved by that first [stop].  The
    bound on the number of pending pushes is not modelled. *)
Inductive RepeaterState := Initial | Started | Stopped | Done.

#[global] Instance RepeaterState_eq_dec : EqDecision RepeaterState.
Proof. solve_decision. Defined.

(** What the sequence carries: the initiating response pushes its
    [data], a [next] message pushes its whole [payload]. *)
Inductive Value :=
| VData (d : Json)
| VResult (r : ExecutionResult).

Record Repeater := {
  r_state : RepeaterState;
  r_err : option Error;
  r_values : list Value;
}.

Definition new_Repeater : Repeater :=
  {| r_state := Initial; r_err := None; r_values := [] |}.

(** [r.state >= Stopped] *)
Definition is_stopped (r : Repeater) : bool :=
  match r_state r with
  | Stopped | Done => true
  | _ => false
  end.

Definition repeater_push (v : Value) (r : Repeater) : Repeater :=
  if is_stopped r then r
  else {| r_state := r_state r; r_err := r_err r; r_values := r_values r ++ [v] |}.

(** [stop(err)]: the new record, and whether the promise behind [stop]
    was resolved by this call. *)
Definition repeater_stop (err : option Error) (r : Repeater) : Repeater * bool :=
  if is_stopped r then (r, false)
  else ({| r_state := Stopped;
           r_err := match r_err r with Some e => Some e | None => err end;
           r_values := r_values r |},
        bool_decide (r_state r = Started)).

(** The sequence has ended without an error / with the error [e]. *)
Definition ended_cleanly (r : Repeater) : Prop :=
  is_stopped r = true ∧ r_err r = None.

Definition ended_with (e : Error) (r : Repeater) : Prop :=
  is_stopped r = true ∧ r_err r = Some e.

(** ** The state *)

(** The closure variables [stopSubscription] (index.ts line 110) and
    [pushFn] (line 124) hold a placeholder until the repeater's
    executor overwrites them (lines 181-182). *)
Inductive StopRef := StopPlaceholder | StopWired.
Inductive PushRef := PushPlaceholder | PushWired.

#[global] Instance StopRef_eq_dec : EqDecision StopRef.
Proof. solve_decision. Defined.
#[global] Instance PushRef_eq_dec : EqDecision PushRef.
Proof. solve_decision. Defined.

(** The closure of one call of [httpCallbackExecutor]. *)
Record Subscription := {
  heartbeatIntervalMs : Z;
  subscriptionCallbackPath : string;
  stopSubscription : StopRef;
  pushFn : PushRef;
  repeater : Repeater;
  subId : option positive;
}.

(** A live timer: whose [stopSubscription] its callback calls, and
    when it is due. *)
Record Timer := {
  t_owner : string;
  t_deadline : Z;
}.

(** A listener of the bus: its topic and the subscription whose
    handler it is. *)
Record Listener := {
  l_topic : string;
  l_owner : string;
}.

(** The transport instance and the runtime around it.  Timer handles
    and listener handles are [positive]: like the objects and positive
    numbers the runtimes hand out, they are never falsy.  A [stop]
    function is named by the id of the subscription it stops;
    [stopFnSet] keeps JavaScript's insertion order, which
    [Symbol.asyncDispose] iterates in.  The last three fields record
    calls and take no part in the behaviour. *)
Record Transport := {
  entry : TransportEntry;
  verifier : string;
  headersInConfig : option (list (string * string));
  heartbeats : gmap string positive;
  stopFnSet : list string;
  subs : gmap string Subscription;
  now : Z;
  timers : gmap positive Timer;
  next_timer : positive;
  listeners : gmap positive Listener;
  next_listener : positive;
  microtasks : list string;
  requests : list FetchRequest;
  unsubscribed : list positive;
  finalized : list string;
}.

(** Field updates. *)
Definition with_heartbeats (f : gmap string positive → gmap string positive) (s : Transport) : Transport :=
  {| entry := entry s;
     verifier := verifier s;
     headersInConfig := headersInConfig s;
     heartbeats := f (heartbeats s);
     stopFnSet := stopFnSet s;
     subs := subs s;
     now := now s;
     timers := timers s;
     next_timer := next_timer s;
     listeners := listeners s;
     next_listener := next_listener s;
     microtasks := microtasks s;
     requests := requests s;
     unsubscribed := unsubscribed s;
     finalized := finalized s |}.

Definition with_stopFnSet (f : list string → list string) (s : Transport) : Transport :=
  {| entry := entry s;
     verifier := verifier s;
     headersInConfig := headersInConfig s;
     heartbeats := heartbeats s;
     stopFnSet := f (stopFnSet s);
     subs := subs s;
     now := now s;
     timers := timers s;
     next_timer := next_timer s;
     listeners := listeners s;
     next_listener := next_listener s;
     microtasks := microtasks s;
     requests := requests s;
     unsubscribed := unsubscribed s;
     finalized := finalized s |}.

Definition with_subs (f : gmap string Subscription → gmap string Subscription) (s : Transport) : Transport :=
  {| entry := entry s;
     verifier := verifier s;
     headersInConfig := headersInConfig s;
     heartbeats := heartbeats s;
     stopFnSet := stopFnSet s;
     subs := f (subs s);
     now := now s;
     timers := timers s;
     next_timer := next_timer s;
     listeners := listeners s;
     next_listener := next_listener s;
     microtasks := microtasks s;
     requests := requests s;
     unsubscribed := unsubscribed s;
     finalized := finalized s |}.

Definition with_now (f : Z → Z) (s : Transport) : Transport :=
  {| entry := entry s;
     verifier := verifier s;
     headersInConfig := headersInConfig s;
     heartbeats := heartbeats s;
     stopFnSet := stopFnSet s;
     subs := subs s;
     now := f (now s);
     timers := timers s;
     next_timer := next_timer s;
     listeners := listeners s;
     next_listener := next_listener s;
     microtasks := microtasks s;
     requests := requests s;
     unsubscribed := unsubscribed s;
     finalized := finalized s |}.

Definition with_timers (f : gmap positive Timer → gmap positive Timer) (s : Transport) : Transport :=
  {| entry := entry s;
     verifier := verifier s;
     headersInConfig := headersInConfig s;
     heartbeats := heartbeats s;
     stopFnSet := stopFnSet s;
     subs := subs s;
     now := now s;
     timers := f (timers s);
     next_timer := next_timer s;
     listeners := listeners s;
     next_listener := next_listener s;
     microtasks := microtasks s;
     requests := requests s;
     unsubscribed := unsubscribed s;
     finalized := finalized s |}.

Definition with_next_timer (f : positive → positive) (s : Transport) : Transport :=
  {| entry := entry s;
     verifier := verifier s;
     headersInConfig := headersInConfig s;
     heartbeats := heartbeats s;
     stopFnSet := stopFnSet s;
     subs := subs s;
     now := now s;
     timers := timers s;
     next_timer := f (next_timer s);
     listeners := listeners s;
     next_listener := next_listener s;
     microtasks := microtasks s;
     requests := requests s;
     unsubscribed := unsubscribed s;
     finalized := finalized s |}.

Definition with_listeners (f : gmap positive Listener → gmap positive Listener) (s : Transport) : Transport :=
  {| entry := entry s;
     verifier := verifier s;
     headersInConfig := headersInConfig s;
     heartbeats := heartbeats s;
     stopFnSet := stopFnSet s;
     subs := subs s;
     now := now s;
     timers := timers s;
     next_timer := next_timer s;
     listeners := f (listeners s);
     next_listener := next_listener s;
     microtasks := microtasks s;
     requests := requests s;
     unsubscribed := unsubscribed s;
     finalized := finalized s |}.

Definition with_next_listener (f : positive → positive) (s : Transport) : Transport :=
  {| entry := entry s;
     verifier := verifier s;
     headersInConfig := headersInConfig s;
     heartbeats := heartbeats s;
     stopFnSet := stopFnSet s;
     subs := subs s;
     now := now s;
     timers := timers s;
     next_timer := next_timer s;
     listeners := listeners s;
     next_listener := f (next_listener s);
     microtasks := microtasks s;
     requests := requests s;
     unsubscribed := unsubscribed s;
     finalized := finalized s |}.

Definition with_microtasks (f : list string → list string) (s : Transport) : Transport :=
  {| entry := entry s;
     verifier := verifier s;
     headersInConfig := headersInConfig s;
     heartbeats := heartbeats s;
     stopFnSet := stopFnSet s;
     subs := subs s;
     now := now s;
     timers := timers s;
     next_timer := next_timer s;
     listeners := listeners s;
     next_listener := next_listener s;
     microtasks := f (microtasks s);
     requests := requests s;
     unsubscribed := unsubscribed s;
     finalized := finalized s |}.

Definition with_requests (f : list FetchRequest → list FetchRequest) (s : Transport) : Transport :=
  {| entry := entry s;
     verifier := verifier s;
     headersInConfig := headersInConfig s;
     heartbeats := heartbeats s;
     stopFnSet := stopFnSet s;
     subs := subs s;
     now := now s;
     timers := timers s;
     next_timer := next_timer s;
     listeners := listeners s;
     next_listener := next_listener s;
     microtasks := microtasks s;
     requests := f (requests s);
     unsubscribed := unsubscribed s;
     finalized := finalized s |}.

Definition with_unsubscribed (f : list positive → list positive) (s : Transport) : Transport :=
  {| entry := entry s;
     verifier := verifier s;
     headersInConfig := headersInConfig s;
     heartbeats := heartbeats s;
     stopFnSet := stopFnSet s;
     subs := subs s;
     now := now s;
     timers := timers s;
     next_timer := next_timer s;
     listeners := listeners s;
     next_listener := next_listener s;
     microtasks := microtasks s;
     requests := requests s;
     unsubscribed := f (unsubscribed s);
     finalized := finalized s |}.

Definition with_finalized (f : list string → list string) (s : Transport) : Transport :=
  {| entry := entry s;
     verifier := verifier s;
     headersInConfig := headersInConfig s;
     heartbeats := heartbeats s;
     stopFnSet := stopFnSet s;
     subs := subs s;
     now := now s;
     timers := timers s;
     next_timer := next_timer s;
     listeners := listeners s;
     next_listener := next_listener s;
     microtasks := microtasks s;
     requests := requests s;
     unsubscribed := unsubscribed s;
     finalized := f (finalized s) |}.
Definition update_repeater (f : Repeater → Repeater) (sub : Subscription) : Subscription :=
  {| heartbeatIntervalMs := heartbeatIntervalMs sub;
     subscriptionCallbackPath := subscriptionCallbackPath sub;
     stopSubscription := stopSubscription sub;
     pushFn := pushFn sub;
     repeater := f (repeater sub);
     subId := subId sub |}.

(** ** The runtime: timers, the bus, the repeater of a subscription *)

(** [setTimeout(() => stopSubscription(createTimeoutError()), ms)] in
    the closure of [owner]: a fresh handle, due [ms] from now. *)
Definition setTimeout (owner : string) (ms : Z) (s : Transport) : positive * Transport :=
  let h := next_timer s in
  (h, with_next_timer Pos.succ
        (with_timers (insert h {| t_owner := owner; t_deadline := (now s + ms)%Z |}) s)).

(** [clearTimeout(h)]; [clearTimeout(undefined)] does nothing, and so
    does clearing a timer that fired or was cleared before. *)
Definition clearTimeout (h : option positive) (s : Transport) : Transport :=
  with_timers (λ live, match h with Some h => delete h live | None => live end) s.

(** [heartbeats.set(id, setTimeout(..., ms))], index.ts lines 115-120
    and 196-201. *)
Definition arm (id : string) (ms : Z) (s : Transport) : Transport :=
  let '(h, s1) := setTimeout id ms s in
  with_heartbeats (insert id h) s1.

(** index.ts lines 192-201: clear the existing heartbeat if there is
    one, then arm a new one. *)
Definition rearm (id : string) (ms : Z) (s : Transport) : Transport :=
  arm id ms (clearTimeout (heartbeats s !! id) s).

(** index.ts lines 230-231:
    [clearTimeout(heartbeats.get(id)); heartbeats.delete(id)]. *)
Definition clear_heartbeat (id : string) (s : Transport) : Transport :=
  with_heartbeats (delete id) (clearTimeout (heartbeats s !! id) s).

(** [pubsub.subscribe(topic, handler)] and [pubsub.unsubscribe(h)]. *)
Definition subscribe (topic owner : string) (s : Transport) : positive * Transport :=
  let h := next_listener s in
  (h, with_next_listener Pos.succ
        (with_listeners (insert h {| l_topic := topic; l_owner := owner |}) s)).

Definition unsubscribe (h : positive) (s : Transport) : Transport :=
  with_unsubscribed (λ l, l ++ [h]) (with_listeners (delete h) s).

(** The [push] and [stop] of the repeater of subscription [id].  The
    first [stop] of a started repeater resolves the promise behind it;
    the [finally] callback registered on it (index.ts line 228) then
    waits on the microtask queue. *)
Definition push (id : string) (v : Value) (s : Transport) : Transport :=
  with_subs (alter (update_repeater (repeater_push v)) id) s.

Definition stop (id : string) (err : option Error) (s : Transport) : Transport :=
  match subs s !! id with
  | None => s
  | Some sub =>
      with_microtasks
        (λ q, if (repeater_stop err (repeater sub)).2 then q ++ [id] else q)
        (with_subs (alter (update_repeater (λ r, (repeater_stop err r).1)) id) s)
  end.

(** [stopFnSet.add] and [stopFnSet.delete]. *)
Definition set_add (x : string) (l : list string) : list string :=
  if decide (x ∈ l) then l else l ++ [x].

Definition set_delete (x : string) (l : list string) : list string :=
  filter (λ y, y ≠ x) l.

(** The callback of [stop.finally], index.ts lines 228-233. *)
Definition cleanup (id : string) (s : Transport) : Transport :=
  let s1 := match subs s !! id ≫= subId with
            | Some h => unsubscribe h s
            | None => s
            end in
  let s2 := clear_heartbeat id s1 in
  let s3 := with_stopFnSet (set_delete id) s2 in
  with_finalized (λ l, l ++ [id]) s3.

(** Run the microtasks that are waiting. A [finally] callback queues
    nothing. *)
Definition drain (s : Transport) : Transport :=
  foldl (λ s id, cleanup id s) (with_microtasks (λ _, []) s) (microtasks s).

(** ** Code that can throw

    A computation runs on the state and either returns or throws; what
    it changed before throwing stays changed. *)
Inductive Res (A : Type) :=
| Ok (a : A)
| Throw (e : Error).
Arguments Ok {A} a.
Arguments Throw {A} e.

Definition M (A : Type) : Type := Transport → Res A * Transport.

#[global] Instance M_ret : MRet M := λ A a s, (Ok a, s).
#[global] Instance M_bind : MBind M := λ A B k m s,
  match m s with
  | (Ok a, s') => k a s'
  | (Throw e, s') => (Throw e, s')
  end.

Definition throw {A} (e : Error) : M A := λ s, (Throw e, s).

Definition try_catch {A} (m : M A) (h : Error → M A) : M A := λ s,
  match m s with
  | (Throw e, s') => h e s'
  | r => r
  end.

Definition gets {A} (f : Transport → A) : M A := λ s, (Ok (f s), s).

Definition modify (f : Transport → Transport) : M unit := λ s, (Ok tt, f s).

(** The closure of subscription [id].  Nothing in the code runs in a
    closure that was never created; here such a call throws. *)
Definition closure (id : string) : M Subscription := λ s,
  match subs s !! id with
  | Some sub => (Ok sub, s)
  | None => (Throw (EPlain "no such subscription"), s)
  end.

(** ** The transport *)

(** A call through the variable [stopSubscription]: the placeholder of
    index.ts lines 110-114 until the executor has run, the repeater's
    [stop] afterwards. *)
Definition call_stopSubscription (id : string) (error : option Error) : M unit :=
  sub ← closure id;
  match stopSubscription sub with
  | StopPlaceholder =>
      match error with
      | Some e => throw e
      | None => mret tt
      end
  | StopWired => modify (stop id error)
  end.

Definition not_configured : GraphQLError :=
  createGraphQLError
    "Subgraph does not look like configured correctly. Check your subgraph setup."
    no_extensions.

(** A call through the variable [pushFn], index.ts lines 124-128. *)
Definition call_pushFn (id : string) (v : Value) : M unit :=
  sub ← closure id;
  match pushFn sub with
  | PushPlaceholder => throw (EGraphQL not_configured)
  | PushWired => modify (push id v)
  end.

(** [createGraphQLError(err.message, err)] *)
Definition recreate (err : GraphQLError) : GraphQLError :=
  createGraphQLError (message err) (extensions err).

(** What is handed to [stopSubscription] for the errors of the
    initiating response, index.ts lines 160-169.  An array is truthy
    whatever its length, and only length one is singled out. *)
Definition response_failure (errs : list GraphQLError) : Error :=
  match errs with
  | [e] => EGraphQL (recreate e)
  | _ => EAggregate (recreate <$> errs) (join_lines (message <$> errs))
  end.

(** The second [then] of the initiating request, index.ts lines
    157-174. *)
Definition on_json (id : string) (resJson : ExecutionResult) : M unit :=
  match errors resJson with
  | Some errs => call_stopSubscription id (Some (response_failure errs))
  | None =>
      match data resJson with
      | Some d => call_pushFn id (VData d);; call_stopSubscription id None
      | None => mret tt
      end
  end.

Definition http_error (status : Z) : GraphQLError :=
  createGraphQLError "HTTP Error" {| ext_code := None; ext_http_status := Some status |}.

(** The first [then], lines 143-156, followed by the second. *)
Definition on_response (id : string) (res : Response) : M unit :=
  (if res_ok res then mret tt
   else call_stopSubscription id (Some (EGraphQL (http_error (res_status res)))));;
  match res_json res with
  | None => throw (EPlain "SyntaxError: the body is not JSON")
  | Some resJson => on_json id resJson
  end.

(** The whole chain on [fetch(...)], with its [catch], lines 175-178.
    A [Throw] out of it is the rejection of [res$]. *)
Definition on_settled (id : string) (r : FetchResult) : M unit :=
  try_catch
    (match r with
     | FetchRejected e => throw e
     | FetchResponse res => on_response id res
     end)
    (λ e, call_stopSubscription id (Some e)).

(** What is handed to [stopSubscription] for the errors of a
    [complete] message, index.ts lines 210-220: no message is given to
    the [AggregateError]. *)
Definition complete_failure (errs : list GraphQLError) : Error :=
  match errs with
  | [e] => EGraphQL (recreate e)
  | _ => EAggregate (recreate <$> errs) ""
  end.

(** The [switch] of the handler, index.ts lines 202-225. *)
Definition dispatch (id : string) (a : Action) : M unit :=
  match a with
  | Check => mret tt
  | Next payload => modify (push id (VResult payload))
  | Complete (Some errs) => call_stopSubscription id (Some (complete_failure errs))
  | Complete None => call_stopSubscription id None
  end.

(** The handler given to [pubsub.subscribe], index.ts lines 187-226,
    in the closure of subscription [id]. *)
Definition handler (id : string) (m : HTTPCallbackMessage) : M unit :=
  v ← gets verifier;
  if decide (msg_verifier m ≠ v) then mret tt
  else
    sub ← closure id;
    modify (rearm id (heartbeatIntervalMs sub));;
    dispatch id (msg_action m).

(** The executor given to [new Repeater], lines 180-234, run in the
    closure [sub] whose repeater has just been started. *)
Definition run_executor (id : string) (sub : Subscription) (s : Transport) : Transport :=
  let s1 := with_stopFnSet (set_add id) s in
  let '(h, s2) :=
    subscribe ("webhook:post:" ++ subscriptionCallbackPath sub)%string id s1 in
  with_subs (insert id
    {| heartbeatIntervalMs := heartbeatIntervalMs sub;
       subscriptionCallbackPath := subscriptionCallbackPath sub;
       stopSubscription := StopWired;
       pushFn := PushWired;
       repeater := {| r_state := Started;
                      r_err := r_err (repeater sub);
                      r_values := r_values (repeater sub) |};
       subId := Some h |}) s2.

(** [httpCallbackExecutor(execReq)], lines 85-179 and the construction
    of the repeater; [subscriptionId] is what [crypto.randomUUID()]
    returned.  The URL is put together as text. *)
Definition httpCallbackExecutor (subscriptionId : string) (execReq : ExecutionRequest)
    : M unit :=
  te ← gets entry;
  let callbackPath := string_or (options te ≫= path) "/callback" in
  match options te with
  | None => throw (EPlain "TypeError: cannot read properties of undefined")
  | Some opts =>
      let callbackUrlObj :=
        (string_or (public_url opts) ("http://localhost:4000" ++ callbackPath)
           ++ "/" ++ subscriptionId)%string in
      let subscriptionCallbackPath := (callbackPath ++ "/" ++ subscriptionId)%string in
      let heartbeatIntervalMs := number_or (heartbeat_interval opts) 50000 in
      v ← gets verifier;
      let request :=
        {| fetch_url := location te;
           fetch_query := document execReq;
           fetch_operationName := operationName execReq;
           fetch_subscription :=
             {| callbackUrl := callbackUrlObj;
                subscriptionId := subscriptionId;
                ext_verifier := v;
                ext_heartbeatIntervalMs := heartbeatIntervalMs |} |} in
      modify (with_subs (insert subscriptionId
        {| heartbeatIntervalMs := heartbeatIntervalMs;
           subscriptionCallbackPath := subscriptionCallbackPath;
           stopSubscription := StopPlaceholder;
           pushFn := PushPlaceholder;
           repeater := new_Repeater;
           subId := None |}));;
      modify (arm subscriptionId heartbeatIntervalMs);;
      modify (with_requests (λ l, l ++ [request]))
  end.

(** The consumer's [next()]: the first one runs the executor. *)
Definition repeater_next (id : string) : M unit :=
  sub ← closure id;
  if decide (r_state (repeater sub) = Initial)
  then modify (run_executor id sub)
  else mret tt.

(** The consumer's [return()]: stop unless stopped, then done. *)
Definition mark_done (r : Repeater) : Repeater :=
  {| r_state := Done; r_err := r_err r; r_values := r_values r |}.

Definition repeater_return (id : string) : M unit :=
  sub ← closure id;
  if decide (r_state (repeater sub) = Done) then mret tt
  else
    modify (stop id None);;
    modify (with_subs (alter (update_repeater mark_done) id)).

(** A timer expires: the callback of lines 117-119 and 198-200. *)
Definition timer_fire (h : positive) : M unit :=
  t ← gets (λ s, timers s !! h);
  match t with
  | None => mret tt
  | Some t =>
      modify (with_timers (delete h));;
      call_stopSubscription (t_owner t) (Some (EGraphQL createTimeoutError))
  end.

(** The bus calls the listener registered under [h]. *)
Definition deliver (h : positive) (m : HTTPCallbackMessage) : M unit :=
  l ← gets (λ s, listeners s !! h);
  match l with
  | None => mret tt
  | Some l => handler (l_owner l) m
  end.

(** [httpCallbackExecutor[Symbol.asyncDispose]], lines 236-243. *)
Definition asyncDispose : M unit :=
  fns ← gets stopFnSet;
  modify (λ s, foldl (λ s id, stop id None s) s fns);;
  intervals ← gets (λ s, (map_to_list (heartbeats s)).*2);
  modify (λ s, foldl (λ s interval, clearTimeout (Some interval) s) s intervals).

(** ** Construction *)

Inductive PubSub := MeshPubSub.

Record GetSubgraphExecutorArgs := {
  transportEntry : TransportEntry;
  pubsub : option PubSub;
}.

Definition no_pubsub : Error :=
  EPlain "You must provide a pubsub instance to http-callbacks transport!".

(** The transport instance right after construction, at time [t0]. *)
Definition new_transport (te : TransportEntry) (hs : option (list (string * string)))
    (uuid : string) (t0 : Z) : Transport :=
  {| entry := te; verifier := uuid; headersInConfig := hs;
     heartbeats := ∅; stopFnSet := []; subs := ∅;
     now := t0; timers := ∅; next_timer := 1%positive;
     listeners := ∅; next_listener := 1%positive;
     microtasks := []; requests := []; unsubscribed := []; finalized := [] |}.

Section Construction.
(** [JSON.parse] on the text of the configured headers; [None] when
    it throws. *)
Variable JSON_parse : string → option (list (string * string)).

(** [getSubgraphExecutor], index.ts lines 63-84 and 244; [uuid] is
    what [crypto.randomUUID()] returned for the verifier. *)
Definition getSubgraphExecutor (args : GetSubgraphExecutorArgs) (uuid : string) (t0 : Z)
    : Res Transport :=
  let te := transportEntry args in
  let parsed :=
    match headers te with
    | HeadersString s =>
        match JSON_parse s with
        | Some hs => Ok (Some hs)
        | None => Throw (EPlain "SyntaxError: the headers are not JSON")
        end
    | HeadersEntries l => Ok (Some l)
    | HeadersAbsent => Ok None
    end in
  match parsed with
  | Throw e => Throw e
  | Ok hs =>
      match pubsub args with
      | None => Throw no_pubsub
      | Some _ => Ok (new_transport te hs uuid t0)
      end
  end.
End Construction.

(** ** The event loop

    One event is one task of the runtime: a call into the transport by
    its user, by the bus or by a timer, or the clock moving on.  After
    each task the microtasks run. *)
Inductive Event :=
| EvExecute (id : string) (execReq : ExecutionRequest)
| EvNext (id : string)
| EvReturn (id : string)
| EvSettled (id : string) (r : FetchResult)
| EvPublish (h : positive) (m : HTTPCallbackMessage)
| EvTimer (h : positive)
| EvDispose
| EvTick (dt : Z).

Definition react (e : Event) : M unit :=
  match e with
  | EvExecute id execReq => httpCallbackExecutor id execReq
  | EvNext id => repeater_next id
  | EvReturn id => repeater_return id
  | EvSettled id r => on_settled id r
  | EvPublish h m => deliver h m
  | EvTimer h => timer_fire h
  | EvDispose => asyncDispose
  | EvTick dt => modify (with_now (λ t, (t + dt)%Z))
  end.

Definition step (e : Event) (s : Transport) : Transport :=
  drain (react e s).2.

(** What the runtime guarantees: a subscription id is a fresh UUID, a
    timer fires when it is due, and the clock does not pass a live
    timer. *)
Definition enabled (e : Event) (s : Transport) : Prop :=
  match e with
  | EvExecute id _ => subs s !! id = None
  | EvTimer h =>
      match timers s !! h with
      | Some t => (t_deadline t ≤ now s)%Z
      | None => False
      end
  | EvTick dt => (0 ≤ dt)%Z ∧ map_Forall (λ _ t, (now s + dt ≤ t_deadline t)%Z) (timers s)
  | _ => True
  end.

#[global] Instance enabled_dec e s : Decision (enabled e s).
Proof. destruct e; simpl; try apply _. destruct (timers s !! h); apply _. Defined.

Inductive trace : Transport → list Event → Transport → Prop :=
| trace_nil s : trace s [] s
| trace_cons s e evs s' :
    enabled e s → trace (step e s) evs s' → trace s (e :: evs) s'.

Definition run (evs : list Event) (s : Transport) : Transport :=
  foldl (λ s e, step e s) s evs.

(** Every event of a run is enabled when its turn comes: the run is a
    trace. *)
Fixpoint all_enabled (evs : list Event) (s : Transport) : Prop :=
  match evs with
  | [] => True
  | e :: evs => enabled e s ∧ all_enabled evs (step e s)
  end.

#[global] Instance all_enabled_dec evs s : Decision (all_enabled evs s).
Proof. revert s. induction evs as [|e evs IH]; intros s; simpl; apply _. Defined.

(** The states a transport instance can be in between two tasks. *)
Definition reachable (s : Transport) : Prop :=
  ∃ te hs uuid t0 evs, trace (new_transport te hs uuid t0) evs s.


(** ** The invariant of the event loop *)

Definition occurrences `{EqDecision A} (x : A) (l : list A) : nat :=
  length (filter (λ y, y = x) l).

(** What the executor set up for subscription [id], whose listener has
    handle [h], is in place and its [finally] callback has not run. *)
Definition registered (s : Transport) (id : string) (h : positive) : Prop :=
  (∃ l, listeners s !! h = Some l ∧ l_owner l = id) ∧
  id ∈ stopFnSet s ∧ (id ∉ finalized s) ∧ (h ∉ unsubscribed s).

(** The [finally] callback of subscription [id] has run, once. *)
Definition cleaned (s : Transport) (id : string) (h : positive) : Prop :=
  listeners s !! h = None ∧ (id ∉ stopFnSet s) ∧
  occurrences id (finalized s) = 1 ∧ occurrences h (unsubscribed s) = 1 ∧
  heartbeats s !! id = None.

(** The closure [sub] of subscription [id] while the [finally]
    callbacks of the subscriptions in [q] wait on the microtask
    queue. *)
Definition sub_ok (q : list string) (s : Transport) (id : string) (sub : Subscription)
    : Prop :=
  match stopSubscription sub with
  | StopPlaceholder =>
      pushFn sub = PushPlaceholder ∧ subId sub = None ∧
      r_state (repeater sub) ≠ Started ∧
      (id ∉ stopFnSet s) ∧ (id ∉ finalized s) ∧ (id ∉ q)
  | StopWired =>
      pushFn sub = PushWired ∧ r_state (repeater sub) ≠ Initial ∧
      ∃ h, subId sub = Some h ∧ (h < next_listener s)%positive ∧
        ((registered s id h ∧ (r_state (repeater sub) = Started ↔ id ∉ q)) ∨
         (is_stopped (repeater sub) = true ∧ (id ∉ q) ∧ cleaned s id h))
  end.

Record GInv (q : list string) (s : Transport) : Prop := {
  inv_queue : NoDup q;
  inv_queue_sub : ∀ id, id ∈ q → is_Some (subs s !! id);
  inv_timer_owner : ∀ h t, timers s !! h = Some t → heartbeats s !! t_owner t = Some h;
  inv_heartbeat_owner : ∀ id h t,
    heartbeats s !! id = Some h → timers s !! h = Some t → t_owner t = id;
  inv_heartbeat_fresh : ∀ id h, heartbeats s !! id = Some h → (h < next_timer s)%positive;
  inv_heartbeat_sub : ∀ id, is_Some (heartbeats s !! id) → is_Some (subs s !! id);
  inv_listener : ∀ h l,
    listeners s !! h = Some l → ∃ sub, subs s !! l_owner l = Some sub ∧ subId sub = Some h;
  inv_handle_inj : ∀ id1 id2 sub1 sub2 h,
    subs s !! id1 = Some sub1 → subs s !! id2 = Some sub2 →
    subId sub1 = Some h → subId sub2 = Some h → id1 = id2;
  inv_unsubscribed : NoDup (unsubscribed s);
  inv_unsubscribed_fresh : ∀ h, h ∈ unsubscribed s → (h < next_listener s)%positive;
  inv_stopFnSet : ∀ id, id ∈ stopFnSet s → is_Some (subs s !! id);
  inv_finalized : ∀ id, id ∈ finalized s → is_Some (subs s !! id);
  inv_sub : ∀ id sub, subs s !! id = Some sub → sub_ok q s id sub;
  inv_open : ∀ id sub,
    subs s !! id = Some sub → is_stopped (repeater sub) = false → r_err (repeater sub) = None;
}.

(** Between two tasks no microtask waits. *)
Definition Inv (s : Transport) : Prop := GInv [] s ∧ microtasks s = [].

(** The invariant while a task runs: the queue is the microtask queue. *)
Definition QInv (s : Transport) : Prop := GInv (microtasks s) s.

(** A computation keeps a property of the state, whether it returns
    or throws. *)
Definition preserves {A} (P : Transport → Prop) (m : M A) : Prop :=
  ∀ s, P s → P (m s).2.

(** ** Notions the statements use *)


(** A transport, two subscriptions and a few messages to run the model
    on. *)
Module Sample.
Definition te : TransportEntry :=
  {| location := "http://products/graphql";
     headers := HeadersAbsent;
     options := Some {| public_url := None; path := None; heartbeat_interval := None |} |}.

Definition fresh : Transport := new_transport te None "verifier-1" 0.

Definition req : ExecutionRequest :=
  {| document := "subscription { foo }"; operationName := None |}.

Definition msg (id v : string) (a : Action) : HTTPCallbackMessage :=
  {| msg_id := id; msg_verifier := v; msg_action := a |}.

Definition err (m : string) : GraphQLError := createGraphQLError m no_extensions.

Definition response (status : Z) (d : option Json) (errs : option (list GraphQLError))
    : FetchResult :=
  FetchResponse {| res_status := status;
                   res_json := Some {| data := d; errors := errs |} |}.

(** Subscription [a] has been created and its consumer has pulled. *)
Definition started : Transport := run [EvExecute "a" req; EvNext "a"] fresh.

(** Subscription [a] has been created; nobody has pulled yet. *)
Definition created : Transport := run [EvExecute "a" req] fresh.

(** Two started subscriptions, ten milliseconds later. *)
Definition two : Transport :=
  run [EvExecute "a" req; EvExecute "b" req; EvNext "a"; EvNext "b"; EvTick 10] fresh.
End Sample.

(** Subscription [id] has been wired by its executor and its sequence
    has ended, with the error [err] if any. *)
Definition Ended (id : string) (err : option Error) (s : Transport) : Prop :=
  ∃ sub, subs s !! id = Some sub ∧ stopSubscription sub = StopWired ∧
         is_stopped (repeater sub) = true ∧ r_err (repeater sub) = err.

(** Subscription [id] is wired and its sequence is open; its listener
    has handle [hl], its heartbeat timer has handle [h] and is due at
    [d]. *)
Definition Armed (id : string) (hl h : positive) (d : Z) (s : Transport) : Prop :=
  (∃ sub, subs s !! id = Some sub ∧ stopSubscription sub = StopWired ∧
          r_state (repeater sub) = Started ∧ subId sub = Some hl) ∧
  heartbeats s !! id = Some h ∧
  timers s !! h = Some {| t_owner := id; t_deadline := d |}.

(** The invariant of a running task together with subscription [id]
    being armed. *)
Definition Live (id : string) (hl h : positive) (d : Z) (s : Transport) : Prop :=
  QInv s ∧ Armed id hl h d s.


(** An initiating response that asks for nothing: a success status and
    a JSON body with neither errors nor data. *)
Definition plain_acceptance (r : FetchResult) : Prop :=
  match r with
  | FetchRejected _ => False
  | FetchResponse res =>
      res_ok res = true ∧
      ∃ resJson, res_json res = Some resJson ∧
                 errors resJson = None ∧ data resJson = None
  end.

(** An event that can neither end subscription [id], whose listener
    has handle [hl], nor refresh its heartbeat: anything but a message
    to its listener with the verifier [v], a cancellation by its
    consumer, an initiating response of its own that is more than a
    plain acceptance, and disposal. *)
Definition quiet (id : string) (hl : positive) (v : string) (e : Event) : Prop :=
  match e with
  | EvPublish h m => h ≠ hl ∨ msg_verifier m ≠ v
  | EvReturn a => a ≠ id
  | EvSettled a r => a ≠ id ∨ plain_acceptance r
  | EvDispose => False
  | _ => True
  end.

#[global] Instance ExecutionResult_eq_dec : EqDecision ExecutionResult.
Proof. solve_decision. Defined.
#[global] Instance Action_eq_dec : EqDecision Action.
Proof. solve_decision. Defined.
#[global] Instance HTTPCallbackMessage_eq_dec : EqDecision HTTPCallbackMessage.
Proof. solve_decision. Defined.
#[global] Instance Response_eq_dec : EqDecision Response.
Proof. solve_decision. Defined.
#[global] Instance FetchResult_eq_dec : EqDecision FetchResult.
Proof. solve_decision. Defined.
#[global] Instance ExecutionRequest_eq_dec : EqDecision ExecutionRequest.
Proof. solve_decision. Defined.
#[global] Instance Event_eq_dec : EqDecision Event.
Proof. solve_decision. Defined.

(** ** Further notions of the transport *)

(** [transportEntry.options?.path || '/callback'], index.ts line 89. *)
Definition callbackPath (te : TransportEntry) : string :=
  string_or (options te ≫= path) "/callback".

(** The topic the executor of subscription [id] listens on, index.ts
    lines 94 and 186. *)
Definition callback_topic (te : TransportEntry) (id : string) : string :=
  ("webhook:post:" ++ (callbackPath te ++ "/" ++ id))%string.

(** The sequence of subscription [id] has ended with [err] (if any)
    and holds the values [vs]. *)
Definition Closed (id : string) (err : option Error) (vs : list Value) (s : Transport)
    : Prop :=
  ∃ sub, subs s !! id = Some sub ∧ is_stopped (repeater sub) = true ∧
         r_err (repeater sub) = err ∧ r_values (repeater sub) = vs.

(** Both closure variables of subscription [id] hold the repeater's
    functions. *)
Definition Wired (id : string) (s : Transport) : Prop :=
  ∃ sub, subs s !! id = Some sub ∧
         stopSubscription sub = StopWired ∧ pushFn sub = PushWired.

(** Every closure and every listener carries the path and the topic
    that lines 94 and 186 build from the configuration. *)
Definition Routed (s : Transport) : Prop :=
  (∀ id sub, subs s !! id = Some sub →
     subscriptionCallbackPath sub = (callbackPath (entry s) ++ "/" ++ id)%string) ∧
  (∀ h l, listeners s !! h = Some l → l_topic l = callback_topic (entry s) (l_owner l)).

(** Every subscription has announced itself: a request in the log
    carries its id, the interval its closure enforces and the
    verifier of the instance. *)
Definition Announced (s : Transport) : Prop :=
  (∀ id sub, subs s !! id = Some sub →
     ∃ rq, rq ∈ requests s ∧
           subscriptionId (fetch_subscription rq) = id ∧
           ext_heartbeatIntervalMs (fetch_subscription rq) = heartbeatIntervalMs sub) ∧
  (∀ rq, rq ∈ requests s →
     ext_verifier (fetch_subscription rq) = verifier s ∧
     fetch_url rq = location (entry s) ∧
     is_Some (subs s !! subscriptionId (fetch_subscription rq))) ∧
  length (requests s) = size (subs s).

(** The closure of subscription [a] of the samples, before and after
    the first pull. *)
Module Closure.
Definition created : Subscription :=
  {| heartbeatIntervalMs := 50000;
     subscriptionCallbackPath := "/callback/a";
     stopSubscription := StopPlaceholder; pushFn := PushPlaceholder;
     repeater := new_Repeater;
     subId := None |}.

Definition started : Subscription :=
  {| heartbeatIntervalMs := 50000;
     subscriptionCallbackPath := "/callback/a";
     stopSubscription := StopWired; pushFn := PushWired;
     repeater := {| r_state := Started; r_err := None; r_values := [] |};
     subId := Some 1%positive |}.
End Closure.

(** * The serve handler

    [graphqlHandler] (the file on graphql-yoga): the request handler
    that builds its yoga server on the first request.  The closure
    variables [yoga] and [yoga$] are the state; the promise behind
    [yoga$] is kept with the requests whose [then] callbacks wait on
    it.  [createYoga] and [yoga.handleRequest] are dependencies: a
    yoga instance is the options it was created with, and handling a
    request is recorded. *)
Module GraphqlHandler.

Record HandlerOptions := {
  playgroundTitle : string;
  playgroundEnabled : bool;
  graphqlEndpoint : string;
  corsConfig : string;
  batchingLimit : option Z;
}.

(** What the handler reads of a built mesh. *)
Record MeshInstance := {
  plugins : list string;
  logger : string;
}.

(** The argument of [createYoga], lines 27-48.  [graphiql] is [false]
    or an object with a title, [batching] is [false] or an object with
    a limit. *)
Record YogaOptions := {
  yoga_plugins : list string;
  logging : string;
  maskedErrors : bool;
  graphiql : option string;
  cors : string;
  yoga_graphqlEndpoint : string;
  landingPage : bool;
  batching : option Z;
}.

Definition Yoga := YogaOptions.

Definition createYoga (o : YogaOptions) : Yoga := o.

(** Lines 27-48. *)
Definition yoga_options (o : HandlerOptions) (mesh : MeshInstance) : YogaOptions :=
  {| yoga_plugins := plugins mesh ++ ["useLogger"];
     logging := logger mesh;
     maskedErrors := false;
     graphiql := if playgroundEnabled o then Some (playgroundTitle o) else None;
     cors := corsConfig o;
     yoga_graphqlEndpoint := graphqlEndpoint o;
     landingPage := false;
     batching := match batchingLimit o with
                 | Some limit => if decide (limit = 0%Z) then None else Some limit
                 | None => None
                 end |}.

(** A promise of a yoga instance, with the requests waiting on it. *)
Inductive YogaPromise :=
| Pending (waiting : list string)
| Fulfilled (y : Yoga)
| Rejected (e : string).

(** The closure of one call of [graphqlHandler], and what it did:
    how often [getBuiltMesh] and [createYoga] were called, which
    request was handed to which yoga instance, and which requests got
    a rejected promise. *)
Record State := {
  yoga : option Yoga;
  yoga_p : option YogaPromise;
  getBuiltMesh_calls : nat;
  createYoga_calls : nat;
  handled : list (string * Yoga);
  rejected : list (string * string);
}.

Definition init : State :=
  {| yoga := None; yoga_p := None; getBuiltMesh_calls := 0; createYoga_calls := 0;
     handled := []; rejected := [] |}.

(** [yoga$.then(yoga => yoga.handleRequest(request, ctx))], line 52. *)
Definition then_handle (request : string) (s : State) : State :=
  match yoga_p s with
  | Some (Pending waiting) =>
      {| yoga := yoga s; yoga_p := Some (Pending (waiting ++ [request]));
         getBuiltMesh_calls := getBuiltMesh_calls s;
         createYoga_calls := createYoga_calls s;
         handled := handled s; rejected := rejected s |}
  | Some (Fulfilled y) =>
      {| yoga := yoga s; yoga_p := yoga_p s;
         getBuiltMesh_calls := getBuiltMesh_calls s;
         createYoga_calls := createYoga_calls s;
         handled := handled s ++ [(request, y)]; rejected := rejected s |}
  | Some (Rejected e) =>
      {| yoga := yoga s; yoga_p := yoga_p s;
         getBuiltMesh_calls := getBuiltMesh_calls s;
         createYoga_calls := createYoga_calls s;
         handled := handled s; rejected := rejected s ++ [(request, e)] |}
  | None => s
  end.

(** The handler, lines 21-53. *)
Definition handle (request : string) (s : State) : State :=
  match yoga s with
  | Some y =>
      {| yoga := yoga s; yoga_p := yoga_p s;
         getBuiltMesh_calls := getBuiltMesh_calls s;
         createYoga_calls := createYoga_calls s;
         handled := handled s ++ [(request, y)]; rejected := rejected s |}
  | None =>
      let s1 :=
        match yoga_p s with
        | None =>
            {| yoga := yoga s; yoga_p := Some (Pending []);
               getBuiltMesh_calls := S (getBuiltMesh_calls s);
               createYoga_calls := createYoga_calls s;
               handled := handled s; rejected := rejected s |}
        | Some _ => s
        end in
      then_handle request s1
  end.

(** The promise of [getBuiltMesh] settles: the callback of lines 26-50
    runs, then the callbacks waiting on [yoga$], in the order in which
    they were attached.  Settling a promise that is not pending does
    nothing. *)
Definition mesh_built (o : HandlerOptions) (mesh : MeshInstance) (s : State) : State :=
  match yoga_p s with
  | Some (Pending waiting) =>
      let y := createYoga (yoga_options o mesh) in
      {| yoga := Some y; yoga_p := Some (Fulfilled y);
         getBuiltMesh_calls := getBuiltMesh_calls s;
         createYoga_calls := S (createYoga_calls s);
         handled := handled s ++ ((λ r, (r, y)) <$> waiting);
         rejected := rejected s |}
  | _ => s
  end.

Definition mesh_failed (e : string) (s : State) : State :=
  match yoga_p s with
  | Some (Pending waiting) =>
      {| yoga := yoga s; yoga_p := Some (Rejected e);
         getBuiltMesh_calls := getBuiltMesh_calls s;
         createYoga_calls := createYoga_calls s;
         handled := handled s;
         rejected := rejected s ++ ((λ r, (r, e)) <$> waiting) |}
  | _ => s
  end.

Inductive Event :=
| Request (request : string)
| MeshBuilt (mesh : MeshInstance)
| MeshFailed (e : string).

Definition step (o : HandlerOptions) (ev : Event) (s : State) : State :=
  match ev with
  | Request r => handle r s
  | MeshBuilt mesh => mesh_built o mesh s
  | MeshFailed e => mesh_failed e s
  end.

Definition run (o : HandlerOptions) (evs : list Event) (s : State) : State :=
  foldl (λ s ev, step o ev s) s evs.

(** The requests among the events, in order. *)
Definition requests_of (evs : list Event) : list string :=
  omap (λ ev, match ev with Request r => Some r | _ => None end) evs.

(** The requests waiting on [yoga$]. *)
Definition waiting_of (s : State) : list string :=
  match yoga_p s with
  | Some (Pending waiting) => waiting
  | _ => []
  end.

(** What holds of the closure after any events. *)
Record Lazy (s : State) : Prop := {
  lazy_built : getBuiltMesh_calls s = match yoga_p s with Some _ => 1 | None => 0 end;
  lazy_created : createYoga_calls s = match yoga s with Some _ => 1 | None => 0 end;
  lazy_yoga : ∀ y, yoga s = Some y ↔ yoga_p s = Some (Fulfilled y);
  lazy_handled : ∀ r y, (r, y) ∈ handled s → yoga s = Some y;
  lazy_rejected : ∀ r e, (r, e) ∈ rejected s → yoga_p s = Some (Rejected e);
}.
(** How the outcomes recorded in the closure account for the events
    so far. *)
Definition Accounted (o : HandlerOptions) (evs : list Event) (s : State) : Prop :=
  requests_of evs = (handled s).*1 ++ (rejected s).*1 ++ waiting_of s ∧
  (yoga_p s = None ↔ requests_of evs = []) ∧
  match yoga_p s with
  | None => True
  | Some (Pending _) => handled s = [] ∧ rejected s = []
  | Some (Fulfilled y) =>
      rejected s = [] ∧ ∃ mesh, MeshBuilt mesh ∈ evs ∧ y = createYoga (yoga_options o mesh)
  | Some (Rejected e) => handled s = [] ∧ MeshFailed e ∈ evs
  end.
End GraphqlHandler.

(** * The mesh runtime

    The parts of [packages/runtime/src/get-mesh.ts] that decide
    something by themselves: the collection of the raw sources, the
    map of live-query invalidations with the hook that consults it,
    and the functions of the in-context SDK.  Schemas, executors,
    transforms, documents and selections are kept as their text;
    [groupTransforms], [applySchemaTransforms], [parseSelectionSet],
    [print] and [getInterpolatedStringFactory] are dependencies and
    are taken as they come. *)
Module GetMesh.

(** JavaScript's [l?.length] as a condition. *)
Definition has_length {A} (l : option (list A)) : bool :=
  match l with
  | Some (_ :: _) => true
  | _ => false
  end.

(** A string as a condition: the empty string is falsy. *)
Definition truthy_string (s : option string) : bool :=
  match s with
  | Some s => if decide (s = "") then false else true
  | None => false
  end.

(** ** The raw sources, lines 62-113 *)

(** What [handler.getMeshSource()] resolves to.  [batch] is [None]
    when the object has no such key. *)
Record MeshSource := {
  schema : string;
  executor : string;
  contextVariables : option (list string);
  batch : option (option bool);
}.

(** An entry of [options.sources]; [getMeshSource] is what the call
    of the handler's method settles to, [None] when it rejects. *)
Record ApiSource := {
  name : string;
  handler : string;
  getMeshSource : option MeshSource;
  transforms : option (list string);
  merge : option string;
}.

Record RawSourceOutput := {
  raw_name : string;
  raw_schema : string;
  raw_executor : string;
  raw_transforms : option (list string);
  raw_contextVariables : list string;
  raw_handler : string;
  raw_batch : option bool;
  raw_merge : option string;
}.

Record GroupedTransforms := {
  wrapTransforms : option (list string);
  noWrapTransforms : option (list string);
}.

Definition schemas_failed : string :=
  "Schemas couldn't be generated successfully. Check for the logs by running Mesh with DEBUG=1 environmental variable to get more verbose output.".

Section Sources.
Variable groupTransforms : option (list string) → GroupedTransforms.
(** [None] when it throws. *)
Variable applySchemaTransforms : string → MeshSource → list string → option string.

(** The body of the [try], lines 74-101; [None] when the [catch] of
    lines 102-105 runs instead of the [push]. *)
Definition raw_source (apiSource : ApiSource) : option RawSourceOutput :=
  source ← getMeshSource apiSource;
  let grouped := groupTransforms (transforms apiSource) in
  st ← (if negb (has_length (wrapTransforms grouped)) &&
           has_length (noWrapTransforms grouped)
        then
          apiSchema ← applySchemaTransforms (schema source) source
                        (default [] (noWrapTransforms grouped));
          Some (apiSchema, None)
        else Some (schema source, transforms apiSource));
  Some {| raw_name := name apiSource;
          raw_schema := st.1;
          raw_executor := executor source;
          raw_transforms := st.2;
          raw_contextVariables := default [] (contextVariables source);
          raw_handler := handler apiSource;
          raw_batch := match batch source with
                       | Some b => b
                       | None => Some true
                       end;
          raw_merge := merge apiSource |}.

(** Lines 62-107 with the sources in the order in which their handlers
    settle: the array [rawSources] and the flag [failed]. *)
Definition collect (settled : list ApiSource) : list RawSourceOutput * bool :=
  foldl (λ acc apiSource,
           match raw_source apiSource with
           | Some raw => (acc.1 ++ [raw], acc.2)
           | None => (acc.1, true)
           end)
        ([], false) settled.

(** Lines 62-113: the raw sources, or the error thrown. *)
Definition getMesh_sources (settled : list ApiSource) : list RawSourceOutput + string :=
  let '(rawSources, failed) := collect settled in
  if failed then inr schemas_failed else inl rawSources.
End Sources.

(** ** Live-query invalidation, lines 130-138 and 319-332 *)

Record LiveQueryInvalidation := {
  field : string;
  invalidate : list string;
}.

(** The part of the resolver data the hook reads: the name of
    [info.parentType] and [info.fieldName]. *)
Record ResolveInfoNames := {
  parentType : option string;
  info_fieldName : option string;
}.

Record ResolverData := {
  resolver_info : option ResolveInfoNames;
  resolver_rest : string;
}.

(** [{ ...resolverData, env: process.env, result }] *)
Record FactoryInput := {
  input_data : ResolverData;
  input_env : string;
  input_result : string;
}.

Section LiveQuery.
Variable getInterpolatedStringFactory : string → FactoryInput → string.

(** Lines 130-138. *)
Definition liveQueryInvalidationFactoryMap (liveQueryInvalidations : option (list LiveQueryInvalidation))
    : gmap string (list (FactoryInput → string)) :=
  foldl (λ m liveQueryInvalidation,
           <[field liveQueryInvalidation :=
               getInterpolatedStringFactory <$> invalidate liveQueryInvalidation]> m)
        ∅ (default [] liveQueryInvalidations).

(** The function returned by [onResolverCalled], lines 320-331:
    the argument of [liveQueryStore.invalidate] when it is called. *)
Definition onResolverCalled (m : gmap string (list (FactoryInput → string)))
    (resolverData : option ResolverData) (env result : string) : option (list string) :=
  match resolverData with
  | Some rd =>
      match resolver_info rd ≫= parentType with
      | Some parent =>
          if truthy_string (resolver_info rd ≫= info_fieldName) then
            let path :=
              (parent ++ "." ++ default "" (resolver_info rd ≫= info_fieldName))%string in
            match m !! path with
            | Some invalidationPathFactories =>
                Some ((λ invalidationPathFactory : FactoryInput → string,
                         invalidationPathFactory
                           {| input_data := rd; input_env := env; input_result := result |})
                      <$> invalidationPathFactories)
            | None => None
            end
          else None
      | None => None
      end
  | None => None
  end.
End LiveQuery.

(** ** The in-context SDK, lines 175-297 and 399-424 *)

Record SelectionSetNode := {
  selections : list string;
}.

Record FieldNode := {
  field_properties : list (string * string);
  field_selectionSet : option SelectionSetNode;
}.

Record GraphQLResolveInfo := {
  fieldName : string;
  fieldNodes : list FieldNode;
  info_parentType : string;
  info_operation : string;
}.

Inductive SelectionSetParam :=
| ParamString (s : string)
| ParamDocument (d : string)
| ParamNode (n : SelectionSetNode).

Inductive SelectionSetParamOrFactory :=
| Param (p : SelectionSetParam)
| Factory (f : SelectionSetNode → SelectionSetParam).

(** A selection set parameter as a condition: only the empty string
    is falsy. *)
Definition truthy_param (p : option SelectionSetParamOrFactory) : bool :=
  match p with
  | Some (Param (ParamString s)) => if decide (s = "") then false else true
  | Some _ => true
  | None => false
  end.

Section SDK.
(** [None] when they throw. *)
Variable parseSelectionSet : string → option SelectionSetNode.
Variable print : string → string.

(** Lines 399-407. *)
Definition normalizeSelectionSetParam (selectionSetParam : SelectionSetParam)
    : option SelectionSetNode :=
  match selectionSetParam with
  | ParamString s => parseSelectionSet s
  | ParamDocument d => parseSelectionSet (print d)
  | ParamNode n => Some n
  end.

(** Lines 409-420. *)
Definition normalizeSelectionSetParamOrFactory
    (selectionSetParamOrFactory : SelectionSetParamOrFactory)
    (subtree : SelectionSetNode) : option SelectionSetNode :=
  match selectionSetParamOrFactory with
  | Factory f => normalizeSelectionSetParam (f subtree)
  | Param p => normalizeSelectionSetParam p
  end.

(** Lines 422-424. *)
Definition identical {T} (val : T) : T := val.

(** [new WrapQuery(path, wrapper, extractor)] *)
Record WrapQuery := {
  wrap_path : list string;
  wrapper : SelectionSetNode → option SelectionSetNode;
  extractor : string → string;
}.

Record DelegateOptions := {
  d_rootValue : string;
  d_operation : string;
  d_fieldName : string;
  d_context : string;
  d_info : GraphQLResolveInfo;
  d_transforms : option (list WrapQuery);
}.

(** What a call of an SDK function does: it throws, or it hands over
    to [batchDelegateToSchema] or to [delegateToSchema], whose result
    goes through [valuesFromResults] when that is given. *)
Inductive Outcome :=
| Thrown (msg : string)
| BatchDelegated (o : DelegateOptions) (key argsFromKeys : string)
    (valuesFromResults : option string)
| Delegated (o : DelegateOptions) (args : string) (valuesFromResults : option string).

(** The root field an SDK function is made for, lines 166-174. *)
Record RootField := {
  rawSourceName : string;
  rootTypeName : string;
  root_fieldName : string;
  operationType : string;
  shouldHaveSelectionSet : bool;
}.

(** The argument of an SDK function, lines 175-219. *)
Record SdkArgs := {
  root : string;
  args : string;
  context : string;
  info : option GraphQLResolveInfo;
  selectionSet : option SelectionSetParamOrFactory;
  key : option string;
  argsFromKeys : option string;
  valuesFromResults : option string;
}.

(** The default of [info], lines 179-205. *)
Definition default_info (f : RootField) : GraphQLResolveInfo :=
  {| fieldName := root_fieldName f;
     fieldNodes := [];
     info_parentType := rootTypeName f;
     info_operation := operationType f |}.

(** Lines 243-248. *)
Definition selectionCount (i : GraphQLResolveInfo) : nat :=
  foldl (λ count fieldNode,
           match field_selectionSet fieldNode with
           | Some s => count + length (selections s)
           | None => count
           end)%nat
        0%nat (fieldNodes i).

Definition typename_selection : SelectionSetNode :=
  {| selections := ["__typename"] |}.

(** Lines 255-275: [{ ...info.fieldNodes[0], selectionSet }] followed
    by [info.fieldNodes.slice(1)]. *)
Definition with_typename (i : GraphQLResolveInfo) : GraphQLResolveInfo :=
  {| fieldName := fieldName i;
     fieldNodes :=
       {| field_properties := match fieldNodes i with
                              | first :: _ => field_properties first
                              | [] => []
                              end;
          field_selectionSet := Some typename_selection |}
       :: drop 1 (fieldNodes i);
     info_parentType := info_parentType i;
     info_operation := info_operation i |}.

Definition selection_set_missing (f : RootField) : string :=
  ("You have to provide 'selectionSet' for context." ++ rawSourceName f ++ "." ++
   rootTypeName f ++ "." ++ root_fieldName f)%string.

(** The SDK function of root field [f], lines 219-297. *)
Definition sdk (f : RootField) (a : SdkArgs) : Outcome :=
  let i := default (default_info f) (info a) in
  let transforms :=
    if truthy_param (selectionSet a) then
      match selectionSet a with
      | Some selectionSet =>
          Some [{| wrap_path := [root_fieldName f];
                   wrapper := normalizeSelectionSetParamOrFactory selectionSet;
                   extractor := identical |}]
      | None => None
      end
    else None in
  let delegate (i' : GraphQLResolveInfo) : Outcome :=
    let commonDelegateOptions :=
      {| d_rootValue := root a;
         d_operation := operationType f;
         d_fieldName := root_fieldName f;
         d_context := context a;
         d_info := i';
         d_transforms := transforms |} in
    match key a, argsFromKeys a with
    | Some k, Some fromKeys =>
        if truthy_string (Some k)
        then BatchDelegated commonDelegateOptions k fromKeys (valuesFromResults a)
        else Delegated commonDelegateOptions (args a) (valuesFromResults a)
    | _, _ => Delegated commonDelegateOptions (args a) (valuesFromResults a)
    end in
  if shouldHaveSelectionSet f then
    if decide (selectionCount i = 0%nat) then
      if truthy_param (selectionSet a) then delegate (with_typename i)
      else Thrown (selection_set_missing f)
    else delegate i
  else delegate i.
End SDK.

(** The options an outcome delegates with, and whether it batches. *)
Definition options_of (r : Outcome) : option DelegateOptions :=
  match r with
  | Thrown _ => None
  | BatchDelegated o _ _ _ => Some o
  | Delegated o _ _ => Some o
  end.

Definition is_batch (r : Outcome) : bool :=
  match r with
  | BatchDelegated _ _ _ _ => true
  | _ => false
  end.
End GetMesh.

(** * Proofs *)

(** ** Lists used as sets and logs *)

Lemma elem_of_set_add (x y : string) (l : list string) :
  x ∈ set_add y l ↔ x = y ∨ x ∈ l.
Proof.
  unfold set_add. case_decide.
  - split; [by right | intros [->|]; done].
  - rewrite elem_of_app, list_elem_of_singleton. tauto.
Qed.

Lemma elem_of_set_delete (x y : string) (l : list string) :
  x ∈ set_delete y l ↔ x ≠ y ∧ x ∈ l.
Proof. unfold set_delete. by rewrite list_elem_of_filter. Qed.

Lemma occurrences_snoc `{EqDecision A} (x y : A) (l : list A) :
  occurrences x (l ++ [y]) = (occurrences x l + if decide (y = x) then 1 else 0)%nat.
Proof.
  unfold occurrences. rewrite filter_app, length_app. f_equal.
  rewrite filter_cons, filter_nil. by case_decide.
Qed.

Lemma occurrences_not_elem `{EqDecision A} (x : A) (l : list A) :
  x ∉ l → occurrences x l = 0%nat.
Proof.
  unfold occurrences. induction l as [|y l IH]; [done|].
  rewrite not_elem_of_cons. intros [Hne Hl].
  rewrite filter_cons. case_decide; [congruence | by apply IH].
Qed.

Lemma occurrences_elem `{EqDecision A} (x : A) (l : list A) :
  occurrences x l ≠ 0%nat → x ∈ l.
Proof.
  intros H. destruct (decide (x ∈ l)) as [|Hn]; [done|].
  by apply occurrences_not_elem in Hn.
Qed.

(** ** The invariant does not read the microtask queue, the clock or
    the log of requests *)

Lemma sub_ok_queue (q q' : list string) s id sub :
  (id ∈ q' ↔ id ∈ q) → sub_ok q s id sub → sub_ok q' s id sub.
Proof.
  unfold sub_ok. intros Hq. destruct (stopSubscription sub).
  - rewrite Hq. done.
  - intros (? & ? & h & ? & ? & H). repeat split; [done..|].
    exists h. repeat split; [done..|]. rewrite Hq. done.
Qed.

Lemma GInv_with_microtasks q s f : GInv q s → GInv q (with_microtasks f s).
Proof. intros []. by constructor. Qed.

Lemma GInv_with_now q s f : GInv q s → GInv q (with_now f s).
Proof. intros []. by constructor. Qed.

Lemma GInv_with_requests q s f : GInv q s → GInv q (with_requests f s).
Proof. intros []. by constructor. Qed.

(** Fewer live timers. *)
Lemma GInv_clearTimeout q s h : GInv q s → GInv q (clearTimeout h s).
Proof.
  destruct h as [h|]; [|by intros []]. intros []. constructor; simpl; try done.
  - intros h' t [_ ?]%lookup_delete_Some. auto.
  - intros id h' t ? [_ ?]%lookup_delete_Some. eauto.
Qed.

(** ** Changes to one repeater *)

Lemma is_stopped_state (r : Repeater) :
  is_stopped r = true ↔ r_state r = Stopped ∨ r_state r = Done.
Proof. unfold is_stopped. destruct (r_state r); intuition congruence. Qed.

Lemma is_stopped_false (r : Repeater) :
  is_stopped r = false ↔ r_state r = Initial ∨ r_state r = Started.
Proof. unfold is_stopped. destruct (r_state r); intuition congruence. Qed.

Lemma GInv_update_repeater q q' s id f :
  GInv q s → NoDup q' →
  (∀ id', id' ≠ id → id' ∈ q' ↔ id' ∈ q) →
  (id ∈ q' → is_Some (subs s !! id)) →
  (∀ sub, subs s !! id = Some sub → sub_ok q' s id (update_repeater f sub)) →
  (∀ sub, subs s !! id = Some sub → is_stopped (f (repeater sub)) = false →
          is_stopped (repeater sub) = false ∧ r_err (f (repeater sub)) = r_err (repeater sub)) →
  GInv q' (with_subs (alter (update_repeater f) id) s).
Proof.
  intros [] Hnd Hq Hin Hsub Herr. constructor; simpl; try done.
  - intros id' Hid'. rewrite lookup_alter_is_Some.
    destruct (decide (id' = id)) as [->|Hne]; [auto|]. apply inv_queue_sub0. by apply Hq.
  - intros id' ?. rewrite lookup_alter_is_Some. auto.
  - intros h l Hl. destruct (inv_listener0 h l Hl) as (sub & Hs & Hh).
    destruct (decide (l_owner l = id)) as [<-|Hne].
    + exists (update_repeater f sub). by rewrite lookup_alter_eq, Hs.
    + exists sub. by rewrite lookup_alter_ne.
  - intros id1 id2 sub1 sub2 h.
    rewrite !lookup_alter_Some.
    intros [(-> & x1 & H1 & ->)|(_ & H1)] [(E & x2 & H2 & ->)|(_ & H2)]; simpl;
      eauto using inv_handle_inj0.
  - intros id' ?. rewrite lookup_alter_is_Some. auto.
  - intros id' ?. rewrite lookup_alter_is_Some. auto.
  - intros id' sub'. rewrite lookup_alter_Some.
    intros [(-> & x & Hx & ->)|(Hne & Hx)]; [by apply Hsub|].
    eapply sub_ok_queue; [|by apply inv_sub0]. apply Hq. done.
  - intros id' sub'. rewrite lookup_alter_Some.
    intros [(-> & x & Hx & ->)|(Hne & Hx)]; [|by eauto]. simpl.
    intros [? ->]%Herr; [|done]. eauto.
Qed.

Lemma sub_ok_push q s id sub v :
  sub_ok q s id sub → sub_ok q s id (update_repeater (repeater_push v) sub).
Proof.
  unfold sub_ok, update_repeater, repeater_push, is_stopped; simpl.
  destruct (stopSubscription sub), (r_state (repeater sub)) eqn:E; simpl; rewrite ?E; done.
Qed.

Lemma GInv_push q s id v : GInv q s → GInv q (push id v s).
Proof.
  intros H. apply GInv_update_repeater with (q := q); try done.
  - by destruct H.
  - by apply inv_queue_sub.
  - intros sub Hs. apply sub_ok_push. by apply inv_sub.
  - intros sub _. unfold repeater_push.
    destruct (is_stopped (repeater sub)) eqn:E; [congruence|done].
Qed.

Lemma repeater_stop_stopped e r : is_stopped (repeater_stop e r).1 = true.
Proof. unfold repeater_stop. by destruct (is_stopped r) eqn:E. Qed.

(** [stop] moves a started subscription to the queue of waiting
    [finally] callbacks. *)
Lemma GInv_stop s id e :
  GInv (microtasks s) s → GInv (microtasks (stop id e s)) (stop id e s).
Proof.
  intros H. unfold stop. destruct (subs s !! id) as [sub|] eqn:Hs; [|done].
  simpl. apply GInv_with_microtasks.
  pose proof (inv_sub _ _ H _ _ Hs) as Hok.
  assert (∀ sub0, subs s !! id = Some sub0 →
            is_stopped (repeater_stop e (repeater sub0)).1 = false →
            is_stopped (repeater sub0) = false ∧
            r_err (repeater_stop e (repeater sub0)).1 = r_err (repeater sub0)) as Herr.
  { intros sub0 _ Hf. by rewrite repeater_stop_stopped in Hf. }
  unfold repeater_stop in *.
  destruct (is_stopped (repeater sub)) eqn:Hst; simpl.
  - apply GInv_update_repeater with (q := microtasks s); try done; try (by destruct H); try (by apply inv_queue_sub);
      try exact Herr.
    intros sub' Hs'. assert (sub' = sub) as -> by congruence.
    unfold sub_ok, update_repeater; simpl. rewrite Hst. exact Hok.
  - apply is_stopped_false in Hst.
    unfold sub_ok in Hok.
    destruct (stopSubscription sub) eqn:Hw.
    + (* not wired: the repeater was never started *)
      destruct Hok as (? & ? & Hns & ? & ? & ?).
      destruct Hst as [Hi|?]; [|done]. rewrite Hi. simpl.
      apply GInv_update_repeater with (q := microtasks s); try done; try (by destruct H); try (by apply inv_queue_sub);
      try exact Herr.
      intros sub' Hs'. assert (sub' = sub) as -> by congruence.
      unfold sub_ok, update_repeater, is_stopped; simpl. rewrite Hw, Hi. simpl.
      repeat split; done.
    + destruct Hok as (? & Hni & h & ? & ? & Hreg).
      destruct Hst as [?|Hstarted]; [done|]. rewrite Hstarted. simpl.
      destruct Hreg as [[Hreg Hq]|(Hc & _)];
        [|apply is_stopped_state in Hc; destruct Hc; congruence].
      assert (id ∉ microtasks s) as Hnq by by apply Hq.
      apply GInv_update_repeater with (q := microtasks s); try done; try exact Herr.
      * apply NoDup_app. split; [by destruct H|]. split; [|apply NoDup_singleton].
        intros x ? ->%list_elem_of_singleton. done.
      * intros id' Hne. rewrite elem_of_app, list_elem_of_singleton. intuition congruence.
      * intros sub' Hs'. assert (sub' = sub) as -> by congruence.
        unfold sub_ok, update_repeater, is_stopped; simpl. rewrite Hw, Hstarted. simpl.
        repeat split; [done..|]. exists h. repeat split; [done..|]. left. split; [done|].
        rewrite elem_of_app, list_elem_of_singleton. intuition congruence.
Qed.

(** Marking an ended repeater as done. *)
Lemma GInv_mark_done q s id :
  GInv q s →
  (∀ sub, subs s !! id = Some sub → is_stopped (repeater sub) = true) →
  GInv q (with_subs (alter (update_repeater mark_done) id) s).
Proof.
  intros H Hst. apply GInv_update_repeater with (q := q); try done; try (by destruct H); try (by apply inv_queue_sub);
      try exact Herr.
  - intros sub Hs. pose proof (inv_sub _ _ H _ _ Hs) as Hok.
    apply Hst, is_stopped_state in Hs.
    unfold sub_ok in *. unfold update_repeater, mark_done, is_stopped; simpl.
    destruct (stopSubscription sub).
    + intuition congruence.
    + destruct Hok as (? & ? & h & ? & ? & Hreg). repeat split; [done..|].
      exists h. repeat split; [done..|].
      destruct Hreg as [[Hreg Hq]|(? & ? & ?)]; [left|right; done].
      split; [done|]. split; [done|]. intros Hn. apply Hq in Hn. destruct Hs; congruence.
Qed.

(** ** Heartbeats *)

Lemma sub_ok_frame q s s' id sub :
  listeners s' = listeners s → stopFnSet s' = stopFnSet s →
  finalized s' = finalized s → unsubscribed s' = unsubscribed s →
  next_listener s' = next_listener s →
  (∀ h, subId sub = Some h → listeners s !! h = None →
        heartbeats s !! id = None → heartbeats s' !! id = None) →
  sub_ok q s id sub → sub_ok q s' id sub.
Proof.
  intros El Es Ef Eu En Hh. unfold sub_ok, registered, cleaned.
  rewrite El, Es, Ef, Eu, En. destruct (stopSubscription sub); [done|].
  intros (? & ? & h & ? & ? & [?|(? & ? & ? & ? & ? & ? & ?)]).
  - repeat split; [done..|]. exists h. auto.
  - repeat split; [done..|]. exists h. repeat split; [done..|]. right.
    repeat split; [done..|]. eauto.
Qed.

Lemma timers_clear_own q s id h t :
  GInv q s →
  match heartbeats s !! id with
  | Some ho => delete ho (timers s)
  | None => timers s
  end !! h = Some t →
  timers s !! h = Some t ∧ t_owner t ≠ id.
Proof.
  intros H. destruct (heartbeats s !! id) as [ho|] eqn:Ho.
  - intros [Hne Ht]%lookup_delete_Some. split; [done|]. intros <-.
    apply (inv_timer_owner _ _ H) in Ht. congruence.
  - intros Ht. split; [done|]. intros <-.
    apply (inv_timer_owner _ _ H) in Ht. congruence.
Qed.

Lemma GInv_rearm q s id ms sub :
  GInv q s → subs s !! id = Some sub →
  (∀ h, subId sub = Some h → is_Some (listeners s !! h)) →
  GInv q (rearm id ms s).
Proof.
  intros H Hs Hl.
  pose proof (λ h t, timers_clear_own _ _ id h t H) as Hold.
  constructor; simpl; try (by destruct H).
  - intros h t [[<- <-]|[Hne Ht]]%lookup_insert_Some; simpl.
    + by rewrite lookup_insert_eq.
    + apply Hold in Ht as [Ht Ho].
      rewrite lookup_insert_ne by done. by apply (inv_timer_owner _ _ H).
  - intros id' h t [[<- <-]|[Hne Hh]]%lookup_insert_Some.
    + rewrite lookup_insert_eq. by intros [= <-].
    + pose proof (inv_heartbeat_fresh _ _ H _ _ Hh).
      rewrite lookup_insert_ne by lia. intros [Ht _]%Hold.
      by eapply inv_heartbeat_owner.
  - intros id' h [[<- <-]|[Hne Hh]]%lookup_insert_Some; [lia|].
    pose proof (inv_heartbeat_fresh _ _ H _ _ Hh). lia.
  - intros id' [h [[<- <-]|[Hne Hh]]%lookup_insert_Some]; [eauto|].
    eapply inv_heartbeat_sub; eauto.
  - intros id' sub' Hs'. eapply sub_ok_frame; [..|by eapply inv_sub]; try done.
    simpl. intros h Hh Hn Hb. destruct (decide (id' = id)) as [->|Hne].
    + assert (sub' = sub) as -> by congruence.
      destruct (Hl h Hh) as [? ?]. congruence.
    + by rewrite lookup_insert_ne.
Qed.

(** ** Creating a subscription *)

Lemma GInv_create q s id sub :
  GInv q s → subs s !! id = None →
  stopSubscription sub = StopPlaceholder → pushFn sub = PushPlaceholder →
  subId sub = None → r_state (repeater sub) = Initial → r_err (repeater sub) = None →
  GInv q (with_subs (insert id sub) s).
Proof.
  intros H Hfresh Hw Hp Hh Hi He.
  assert (∀ id', is_Some (subs s !! id') → id' ≠ id) as Hne.
  { intros id' [? ?] ->. congruence. }
  constructor; simpl; try (by destruct H).
  - intros id' ?. rewrite lookup_insert_is_Some'. right. by eapply inv_queue_sub.
  - intros id' ?. rewrite lookup_insert_is_Some'. right. by eapply inv_heartbeat_sub.
  - intros h l Hl. destruct (inv_listener _ _ H h l Hl) as (sub' & Hs' & ?).
    exists sub'. rewrite lookup_insert_ne; [done|]. intros E. apply (Hne (l_owner l)); eauto.
  - intros id1 id2 sub1 sub2 h
      [[<- <-]|[? H1]]%lookup_insert_Some [[<- <-]|[? H2]]%lookup_insert_Some;
      try congruence.
    by eapply inv_handle_inj.
  - intros id' ?. rewrite lookup_insert_is_Some'. right. by eapply inv_stopFnSet.
  - intros id' ?. rewrite lookup_insert_is_Some'. right. by eapply inv_finalized.
  - intros id' sub' [[<- <-]|[? Hs']]%lookup_insert_Some.
    + unfold sub_ok. rewrite Hw, Hi. repeat split; try done.
      * intros ?%(inv_stopFnSet _ _ H)%Hne. done.
      * intros ?%(inv_finalized _ _ H)%Hne. done.
      * intros ?%(inv_queue_sub _ _ H)%Hne. done.
    + eapply sub_ok_frame; [..|by eapply inv_sub]; done.
  - intros id' sub' [[<- <-]|[? Hs']]%lookup_insert_Some; [done|].
    by eapply inv_open.
Qed.

(** ** Starting and finalising a subscription *)

Lemma sub_ok_handle_fresh q s id sub h :
  sub_ok q s id sub → subId sub = Some h → (h < next_listener s)%positive.
Proof.
  unfold sub_ok. destruct (stopSubscription sub).
  - intros (? & ? & _). congruence.
  - intros (? & ? & h' & ? & ? & _) ?. congruence.
Qed.

Lemma sub_ok_initial q s id sub :
  sub_ok q s id sub → r_state (repeater sub) = Initial →
  stopSubscription sub = StopPlaceholder ∧ pushFn sub = PushPlaceholder ∧
  subId sub = None ∧ (id ∉ stopFnSet s) ∧ (id ∉ finalized s) ∧ (id ∉ q).
Proof.
  unfold sub_ok. destruct (stopSubscription sub).
  - intros (? & ? & ? & ? & ? & ?) _. done.
  - intros (? & ? & _) ?. done.
Qed.

Lemma GInv_run_executor q s id sub :
  GInv q s → subs s !! id = Some sub → r_state (repeater sub) = Initial →
  GInv q (run_executor id sub s).
Proof.
  intros H Hs Hi.
  destruct (sub_ok_initial _ _ _ _ (inv_sub _ _ H _ _ Hs) Hi) as (Hw & Hp & Hh & Hns & Hnf & Hnq).
  assert (∀ id' sub' h, subs s !! id' = Some sub' → subId sub' = Some h →
            (h < next_listener s)%positive ∧ id' ≠ id) as Hold.
  { intros id' sub' h Hs' Hh'. split.
    - eapply sub_ok_handle_fresh; [by eapply inv_sub|done].
    - intros ->. congruence. }
  constructor; simpl; try (by destruct H).
  - intros id' ?. rewrite lookup_insert_is_Some'. right. by eapply inv_queue_sub.
  - intros id' ?. rewrite lookup_insert_is_Some'. right. by eapply inv_heartbeat_sub.
  - intros h l [[<- <-]|[Hne Hl]]%lookup_insert_Some; simpl.
    + eexists. by rewrite lookup_insert_eq.
    + destruct (inv_listener _ _ H h l Hl) as (sub' & Hs' & Hh').
      exists sub'. destruct (Hold _ _ _ Hs' Hh'). by rewrite lookup_insert_ne.
  - intros id1 id2 sub1 sub2 h
      [[<- <-]|[? H1]]%lookup_insert_Some [[<- <-]|[? H2]]%lookup_insert_Some;
      simpl; try done.
    + intros [= <-] Hh2. destruct (Hold _ _ _ H2 Hh2). lia.
    + intros Hh1 [= <-]. destruct (Hold _ _ _ H1 Hh1). lia.
    + by eapply inv_handle_inj.
  - intros h ?%(inv_unsubscribed_fresh _ _ H). lia.
  - intros id' [->|?]%elem_of_set_add; rewrite lookup_insert_is_Some'; [by left|].
    right. by eapply inv_stopFnSet.
  - intros id' ?. rewrite lookup_insert_is_Some'. right. by eapply inv_finalized.
  - intros id' sub' [[<- <-]|[Hne Hs']]%lookup_insert_Some.
    + unfold sub_ok; simpl. repeat split; [done..|].
      exists (next_listener s). repeat split; [lia|]. left. split; [|done].
      unfold registered; simpl. rewrite lookup_insert_eq. repeat split.
      * by eexists.
      * apply elem_of_set_add. by left.
      * done.
      * intros ?%(inv_unsubscribed_fresh _ _ H). lia.
    + pose proof (inv_sub _ _ H _ _ Hs') as Hok. unfold sub_ok in *.
      destruct (stopSubscription sub').
      * destruct Hok as (? & ? & ? & ? & ? & ?). repeat split; try done.
        simpl. rewrite elem_of_set_add. intuition congruence.
      * destruct Hok as (? & ? & h & Hh' & Hlt & Hreg). repeat split; [done..|].
        exists h. simpl. repeat split; [done|lia|].
        unfold registered, cleaned in *; simpl.
        rewrite lookup_insert_ne by lia. rewrite elem_of_set_add.
        destruct Hreg as [[(? & ? & ? & ?) ?]|(? & ? & ? & ? & ? & ? & ?)].
        -- left. repeat split; auto; tauto.
        -- right. repeat split; try done. intuition congruence.
  - intros id' sub' [[<- <-]|[? Hs']]%lookup_insert_Some; simpl.
    + intros _. eapply inv_open; [done..|]. apply is_stopped_false. by left.
    + by eapply inv_open.
Qed.

Lemma sub_ok_pending q s id sub :
  sub_ok q s id sub → id ∈ q →
  stopSubscription sub = StopWired ∧ is_stopped (repeater sub) = true ∧
  ∃ h, subId sub = Some h ∧ (h < next_listener s)%positive ∧ registered s id h.
Proof.
  unfold sub_ok. destruct (stopSubscription sub).
  - intros (? & ? & ? & ? & ? & ?) ?. done.
  - intros (? & Hni & h & ? & ? & [[? Hq]|(? & ? & _)]) Hin; [|done].
    split; [done|]. split; [|by exists h].
    apply is_stopped_state.
    destruct (r_state (repeater sub)) eqn:E; [done| |by left|by right].
    destruct Hq as [Hq _]. by destruct Hq.
Qed.

(** The [finally] callback of the subscription at the head of the
    queue. *)
Lemma GInv_cleanup q s id : GInv (id :: q) s → GInv q (cleanup id s).
Proof.
  intros H.
  destruct (inv_queue_sub _ _ H id) as [sub Hs]; [by left|].
  destruct (sub_ok_pending _ _ _ _ (inv_sub _ _ H _ _ Hs)) as (Hw & Hst & h & Hh & Hlt & Hreg);
    [by left|].
  destruct Hreg as ((l & Hl & Hown) & Hin & Hnf & Hnu).
  pose proof (inv_queue _ _ H) as [Hnq Hnd]%NoDup_cons.
  assert (cleanup id s =
    with_finalized (λ l, l ++ [id]) (with_stopFnSet (set_delete id)
      (clear_heartbeat id (unsubscribe h s)))) as ->.
  { unfold cleanup. rewrite Hs. simpl. by rewrite Hh. }
  pose proof (λ h t, timers_clear_own _ _ id h t H) as Hold.
  constructor; simpl; try (by destruct H).
  - intros id' ?. apply (inv_queue_sub _ _ H). by right.
  - intros h' t [Ht Hne]%Hold.
    rewrite lookup_delete_ne by done. by eapply inv_timer_owner.
  - intros id' h' t [Hne Hh']%lookup_delete_Some [Ht _]%Hold.
    by eapply inv_heartbeat_owner.
  - intros id' h' [Hne Hh']%lookup_delete_Some. by eapply inv_heartbeat_fresh.
  - intros id' [h' [Hne Hh']%lookup_delete_Some]. eapply inv_heartbeat_sub; eauto.
  - intros h' l' [_ Hl']%lookup_delete_Some. by eapply inv_listener.
  - apply NoDup_app. split; [by destruct H|]. split; [|apply NoDup_singleton].
    intros x ? ->%list_elem_of_singleton. done.
  - intros h' [?|E%list_elem_of_singleton]%elem_of_app; [|by subst].
    by eapply inv_unsubscribed_fresh.
  - intros id' [_ ?]%elem_of_set_delete. by eapply inv_stopFnSet.
  - intros id' [?|E%list_elem_of_singleton]%elem_of_app; [|subst; by eauto].
    by eapply inv_finalized.
  - intros id' sub' Hs'. pose proof (inv_sub _ _ H _ _ Hs') as Hok.
    unfold sub_ok, registered, cleaned in *; simpl.
    destruct (decide (id' = id)) as [->|Hne].
    + assert (sub' = sub) as -> by congruence. rewrite Hw in *.
      destruct Hok as (? & ? & _). repeat split; [done..|].
      exists h. repeat split; [done..|]. right.
      rewrite !occurrences_snoc, elem_of_set_delete, !decide_True by done.
      rewrite !occurrences_not_elem by done. rewrite !lookup_delete_eq.
      repeat split; try done; tauto.
    + destruct (stopSubscription sub').
      * rewrite not_elem_of_cons in Hok.
        rewrite elem_of_set_delete, not_elem_of_app, list_elem_of_singleton. intuition.
      * destruct Hok as (? & ? & h' & Hh' & ? & Hreg). repeat split; [done..|].
        exists h'. repeat split; [done..|].
        assert (h' ≠ h) as Hhne.
        { intros ->. apply Hne. by eapply (inv_handle_inj _ _ H). }
        rewrite !occurrences_snoc, elem_of_set_delete, !not_elem_of_app,
          !list_elem_of_singleton.
        rewrite !lookup_delete_ne by done. rewrite !decide_False by done.
        rewrite !Nat.add_0_r.
        rewrite not_elem_of_cons in Hreg.
        destruct Hreg as [[(? & ? & ? & ?) Hq]|(? & ? & ? & ? & ? & ? & ?)].
        -- left. repeat split; try done; try tauto.
        -- right. repeat split; try done; try tauto.
Qed.

(** Running the microtasks restores the invariant between tasks. *)
Lemma GInv_run_microtasks q s :
  GInv q s → microtasks s = [] →
  GInv [] (foldl (λ s id, cleanup id s) s q) ∧
  microtasks (foldl (λ s id, cleanup id s) s q) = [].
Proof.
  revert s. induction q as [|id q IH]; intros s H Hm; [done|].
  simpl. apply IH.
  - by apply GInv_cleanup.
  - unfold cleanup. by destruct (subs s !! id ≫= subId).
Qed.

Lemma Inv_drain s : GInv (microtasks s) s → Inv (drain s).
Proof.
  intros H. unfold drain. apply GInv_run_microtasks; [|done].
  by apply GInv_with_microtasks.
Qed.

(** ** Every task keeps the invariant *)

Section Preserves.
Context (P : Transport → Prop).

Lemma preserves_ret {A} (a : A) : preserves P (mret a).
Proof. by intros s. Qed.

Lemma preserves_throw {A} (e : Error) : preserves P (throw (A := A) e).
Proof. by intros s. Qed.

Lemma preserves_bind {A B} (m : M A) (k : A → M B) :
  preserves P m → (∀ a, preserves P (k a)) → preserves P (m ≫= k).
Proof.
  intros Hm Hk s Hs. unfold mbind, M_bind. specialize (Hm s Hs).
  destruct (m s) as [[a|e] s']; simpl in *; [by apply Hk|done].
Qed.

Lemma preserves_try_catch {A} (m : M A) (h : Error → M A) :
  preserves P m → (∀ e, preserves P (h e)) → preserves P (try_catch m h).
Proof.
  intros Hm Hh s Hs. unfold try_catch. specialize (Hm s Hs).
  destruct (m s) as [[a|e] s']; simpl in *; [done|by apply Hh].
Qed.

Lemma preserves_gets {A} (f : Transport → A) : preserves P (gets f).
Proof. by intros s. Qed.

Lemma preserves_closure id : preserves P (closure id).
Proof. intros s Hs. unfold closure. by destruct (subs s !! id). Qed.

Lemma preserves_modify (f : Transport → Transport) :
  (∀ s, P s → P (f s)) → preserves P (modify f).
Proof. intros Hf s Hs. by apply Hf. Qed.

(** The code between the closure variables and the primitives: if
    [stop] and [push] on the subscription [id] keep [P], so does
    every call through [stopSubscription] and [pushFn] and every
    chain built from them. *)
Context (id : string).
Context (P_stop : ∀ e s, P s → P (stop id e s)).
Context (P_push : ∀ v s, P s → P (push id v s)).

Lemma preserves_call_stopSubscription e : preserves P (call_stopSubscription id e).
Proof.
  apply preserves_bind; [apply preserves_closure|]. intros sub.
  destruct (stopSubscription sub).
  - destruct e; [apply preserves_throw|apply preserves_ret].
  - apply preserves_modify. intros s. apply P_stop.
Qed.

Lemma preserves_call_pushFn v : preserves P (call_pushFn id v).
Proof.
  apply preserves_bind; [apply preserves_closure|]. intros sub.
  destruct (pushFn sub); [apply preserves_throw|].
  apply preserves_modify, P_push.
Qed.

Lemma preserves_on_json resJson : preserves P (on_json id resJson).
Proof.
  unfold on_json. destruct (errors resJson) as [errs|];
    try apply preserves_call_stopSubscription.
  destruct (data resJson); [|apply preserves_ret].
  apply preserves_bind; [apply preserves_call_pushFn|].
  intros _. apply preserves_call_stopSubscription.
Qed.

Lemma preserves_on_settled r : preserves P (on_settled id r).
Proof.
  apply preserves_try_catch; [|intros e; apply preserves_call_stopSubscription].
  destruct r as [e|res]; [apply preserves_throw|].
  apply preserves_bind.
  - destruct (res_ok res); [apply preserves_ret|apply preserves_call_stopSubscription].
  - intros _. destruct (res_json res); [apply preserves_on_json|apply preserves_throw].
Qed.

Lemma preserves_dispatch a : preserves P (dispatch id a).
Proof.
  destruct a as [|payload|[errs|]]; simpl;
    try apply preserves_call_stopSubscription.
  - apply preserves_ret.
  - apply preserves_modify, P_push.
Qed.
End Preserves.

Lemma QInv_push id v s : QInv s → QInv (push id v s).
Proof. apply GInv_push. Qed.

Lemma QInv_stop id e s : QInv s → QInv (stop id e s).
Proof. apply GInv_stop. Qed.






Lemma QInv_listener s h l :
  QInv s → listeners s !! h = Some l →
  ∃ sub, subs s !! l_owner l = Some sub ∧ subId sub = Some h ∧
         stopSubscription sub = StopWired ∧ pushFn sub = PushWired.
Proof.
  intros H Hl. destruct (inv_listener _ _ H h l Hl) as (sub & Hs & Hh).
  exists sub. split; [done|]. split; [done|].
  pose proof (inv_sub _ _ H _ _ Hs) as Hok. unfold sub_ok in Hok.
  destruct (stopSubscription sub); [|by destruct Hok].
  destruct Hok as (_ & ? & _). congruence.
Qed.

Lemma preserves_deliver h m : preserves QInv (deliver h m).
Proof.
  intros s Hs. unfold deliver, mbind, M_bind, gets.
  destruct (listeners s !! h) as [l|] eqn:Hl; [|done].
  destruct (QInv_listener _ _ _ Hs Hl) as (sub & Hsub & Hh & _).
  unfold handler, mbind, M_bind, gets, closure, modify.
  destruct (decide _); [done|]. rewrite Hsub.
  apply preserves_dispatch; [intros; by apply QInv_stop|intros; by apply QInv_push|].
  eapply GInv_rearm; [done..|].
  intros h' ?. assert (h' = h) as -> by congruence. eauto.
Qed.

Lemma preserves_timer_fire h : preserves QInv (timer_fire h).
Proof.
  apply preserves_bind; [apply preserves_gets|]. intros [t|]; [|apply preserves_ret].
  apply preserves_bind.
  - apply preserves_modify. intros s. apply (GInv_clearTimeout _ _ (Some h)).
  - intros _. apply preserves_call_stopSubscription. intros. by apply QInv_stop.
Qed.

Lemma preserves_repeater_next id : preserves QInv (repeater_next id).
Proof.
  intros s Hs. unfold repeater_next, mbind, M_bind, closure.
  destruct (subs s !! id) as [sub|] eqn:Hsub; [|done].
  destruct (decide _); [|done]. by apply GInv_run_executor.
Qed.

Lemma stop_stopped id e s sub :
  subs s !! id = Some sub →
  ∃ sub', subs (stop id e s) !! id = Some sub' ∧ is_stopped (repeater sub') = true.
Proof.
  intros Hs. unfold stop. rewrite Hs. simpl. rewrite lookup_alter_eq, Hs. simpl.
  eexists. split; [done|]. unfold repeater_stop. simpl.
  by destruct (is_stopped (repeater sub)) eqn:E.
Qed.

Lemma preserves_repeater_return id : preserves QInv (repeater_return id).
Proof.
  intros s Hs. unfold repeater_return, mbind, M_bind, closure, modify.
  destruct (subs s !! id) as [sub|] eqn:Hsub; [|done].
  destruct (decide _); [done|]. simpl.
  apply GInv_mark_done; [by apply GInv_stop|].
  intros sub' Hs'. destruct (stop_stopped id None s sub Hsub) as (sub'' & ? & ?).
  congruence.
Qed.

Lemma QInv_foldl_stop ids s :
  QInv s → QInv (foldl (λ s id, stop id None s) s ids).
Proof.
  revert s. induction ids as [|id ids IH]; intros s Hs; [done|].
  simpl. apply IH. by apply GInv_stop.
Qed.

Lemma QInv_foldl_clearTimeout hs s :
  QInv s → QInv (foldl (λ s h, clearTimeout (Some h) s) s hs).
Proof.
  revert s. induction hs as [|h hs IH]; intros s Hs; [done|].
  simpl. apply IH. by apply (GInv_clearTimeout _ _ (Some h)).
Qed.

Lemma preserves_asyncDispose : preserves QInv asyncDispose.
Proof.
  intros s Hs. unfold asyncDispose, mbind, M_bind, gets, modify. simpl.
  by apply QInv_foldl_clearTimeout, QInv_foldl_stop.
Qed.

Lemma preserves_httpCallbackExecutor id execReq s :
  QInv s → subs s !! id = None → QInv (httpCallbackExecutor id execReq s).2.
Proof.
  intros Hs Hfresh. unfold httpCallbackExecutor, mbind, M_bind, gets, modify. simpl.
  destruct (options (entry s)) as [opts|]; [|done]. simpl.
  apply GInv_with_requests.
  match goal with |- GInv _ (arm id ?ms (with_subs (insert id ?sub) s)) =>
    pose proof (GInv_create _ s id sub Hs Hfresh eq_refl eq_refl eq_refl eq_refl eq_refl)
      as Hc;
    pose proof (GInv_rearm _ _ id ms sub Hc) as Hr
  end.
  simpl in Hr. rewrite lookup_insert_eq in Hr.
  assert (heartbeats s !! id = None) as Hh.
  { destruct (heartbeats s !! id) eqn:E; [|done].
    destruct (inv_heartbeat_sub _ _ Hs id) as [? ?]; [by eauto|congruence]. }
  unfold rearm in Hr. simpl in Hr. rewrite Hh in Hr. apply Hr; [done|].
  intros h [=].
Qed.

Lemma QInv_react e s : QInv s → enabled e s → QInv (react e s).2.
Proof.
  intros Hs He. destruct e; simpl.
  - by apply preserves_httpCallbackExecutor.
  - by apply preserves_repeater_next.
  - by apply preserves_repeater_return.
  - apply preserves_on_settled; [intros; by apply QInv_stop|intros; by apply QInv_push|done].
  - by apply preserves_deliver.
  - by apply preserves_timer_fire.
  - by apply preserves_asyncDispose.
  - by apply GInv_with_now.
Qed.

Lemma Inv_QInv s : Inv s → QInv s.
Proof. intros [H Hm]. unfold QInv. by rewrite Hm. Qed.

Lemma Inv_step e s : Inv s → enabled e s → Inv (step e s).
Proof. intros Hs He. apply Inv_drain, QInv_react; [by apply Inv_QInv|done]. Qed.

Lemma Inv_new_transport te hs uuid t0 : Inv (new_transport te hs uuid t0).
Proof.
  split; [|done]. constructor; simpl; try done; try apply NoDup_nil_2;
    try (intros ? ?; by rewrite ?lookup_empty);
    try (intros ? ? ?; by rewrite ?lookup_empty);
    try (intros ? ? ? ?; by rewrite ?lookup_empty);
    try (by intros ? []%elem_of_nil).
  intros ? [? E]. by rewrite lookup_empty in E.
Qed.

Lemma Inv_trace s evs s' : trace s evs s' → Inv s → Inv s'.
Proof. induction 1; [done|]. intros Hs. by apply IHtrace, Inv_step. Qed.

Lemma Inv_reachable s : reachable s → Inv s.
Proof.
  intros (te & hs & uuid & t0 & evs & Htr).
  eapply Inv_trace; [done|]. apply Inv_new_transport.
Qed.

Lemma reachable_step e s : reachable s → enabled e s → reachable (step e s).
Proof.
  intros (te & hs & uuid & t0 & evs & Htr) He.
  exists te, hs, uuid, t0, (evs ++ [e]).
  induction Htr; simpl.
  - apply trace_cons; [done|]. apply trace_nil.
  - apply trace_cons; [done|]. by apply IHHtr.
Qed.

(** ** What the microtasks leave alone *)

Lemma drain_nil s : microtasks s = [] → drain s = s.
Proof. destruct s. simpl. intros ->. reflexivity. Qed.

Lemma subs_cleanup id s : subs (cleanup id s) = subs s.
Proof. unfold cleanup. by destruct (subs s !! id ≫= subId). Qed.

Lemma subs_run_microtasks q s : subs (foldl (λ s id, cleanup id s) s q) = subs s.
Proof.
  revert s. induction q as [|id q IH]; intros s; [done|].
  simpl. by rewrite IH, subs_cleanup.
Qed.

Lemma subs_drain s : subs (drain s) = subs s.
Proof. unfold drain. by rewrite subs_run_microtasks. Qed.

Lemma recreate_id e : recreate e = e.
Proof. by destruct e. Qed.

Lemma recreate_all (errs : list GraphQLError) : recreate <$> errs = errs.
Proof. induction errs as [|e errs IH]; [done|]. by rewrite fmap_cons, recreate_id, IH. Qed.

Lemma reachable_trace evs te hs uuid t0 :
  trace (new_transport te hs uuid t0) evs (run evs (new_transport te hs uuid t0)) →
  reachable (run evs (new_transport te hs uuid t0)).
Proof. intros H. by exists te, hs, uuid, t0, evs. Qed.

Lemma trace_run evs s : all_enabled evs s → trace s evs (run evs s).
Proof.
  revert s. induction evs as [|e evs IH]; intros s; simpl.
  - intros _. apply trace_nil.
  - intros [He Hrest]. apply trace_cons; [done|]. by apply IH.
Qed.

Lemma trace_is_run s evs s' : trace s evs s' → s' = run evs s.
Proof. induction 1; [done|]. done. Qed.

(** * The claims *)

(** C1. A callback message whose verifier is not the verifier of the
    transport instance is discarded: the handler returns without an
    error and leaves the whole state as it was (no timer is cleared or
    armed, nothing is pushed, the sequence is not stopped), and so
    does the task of the bus that delivered it. *)
Theorem C1_mismatched_verifier_discarded
    (s : Transport) (id : string) (h : positive) (m : HTTPCallbackMessage) :
  msg_verifier m ≠ verifier s →
  handler id m s = (Ok tt, s) ∧
  deliver h m s = (Ok tt, s) ∧
  (microtasks s = [] → step (EvPublish h m) s = s).
Proof.
  intros Hv.
  assert (handler id m s = (Ok tt, s)) as Hh.
  { unfold handler, mbind, M_bind, gets. by destruct (decide _). }
  assert (deliver h m s = (Ok (), s)) as Hd.
  { unfold deliver, mbind, M_bind, gets. destruct (listeners s !! h) as [l|]; [|done].
    unfold handler, mbind, M_bind, gets. by destruct (decide _). }
  split; [done|]. split; [done|].
  intros Hm. unfold step. simpl. rewrite Hd. simpl. by apply drain_nil.
Qed.

Lemma C1_witness :
  let m := Sample.msg "a" "forged" (Next {| data := Some "{foo:2}"; errors := None |}) in
  msg_verifier m ≠ verifier Sample.started ∧
  handler "a" m Sample.started = (Ok tt, Sample.started) ∧
  deliver 1 m Sample.started = (Ok tt, Sample.started) ∧
  (microtasks Sample.started = [] → step (EvPublish 1 m) Sample.started = Sample.started).
Proof.
  assert (msg_verifier (Sample.msg "a" "forged"
            (Next {| data := Some "{foo:2}"; errors := None |}))
          ≠ verifier Sample.started) as Hv.
  { vm_compute. discriminate. }
  split; [exact Hv|].
  exact (C1_mismatched_verifier_discarded Sample.started "a" 1 _ Hv).
Defined.



(** C10. [getSubgraphExecutor] called without a pubsub instance throws,
    whatever else it was given; what it returns, it returns for a
    pubsub instance that exists, and no subscription has been
    attempted by then. *)
Theorem C10_pubsub_required
    (JSON_parse : string → option (list (string * string)))
    (args : GetSubgraphExecutorArgs) (uuid : string) (t0 : Z) :
  (pubsub args = None → ∃ e, getSubgraphExecutor JSON_parse args uuid t0 = Throw e) ∧
  (∀ t, getSubgraphExecutor JSON_parse args uuid t0 = Ok t →
        is_Some (pubsub args) ∧ subs t = ∅ ∧ requests t = [] ∧ timers t = ∅).
Proof.
  unfold getSubgraphExecutor. split.
  - intros ->. destruct (headers (transportEntry args)) as [|hs|l]; eauto.
    destruct (JSON_parse hs); eauto.
  - intros t. destruct (pubsub args).
    + destruct (headers (transportEntry args)) as [|hs|l]; try (intros [= <-]; by eauto).
      destruct (JSON_parse hs); [|done]. intros [= <-]. by eauto.
    + destruct (headers (transportEntry args)) as [|hs|l]; try done.
      by destruct (JSON_parse hs).
Qed.

Lemma C10_witness :
  pubsub {| transportEntry := Sample.te; pubsub := None |} = None ∧
  ∃ e, getSubgraphExecutor (λ _, None)
         {| transportEntry := Sample.te; pubsub := None |} "verifier-1" 0 = Throw e.
Proof.
  split; [reflexivity|].
  exact (proj1 (C10_pubsub_required (λ _, None)
                  {| transportEntry := Sample.te; pubsub := None |} "verifier-1" 0)
               eq_refl).
Defined.

(** ** Reading the invariant *)

Lemma Inv_listener_started s h l :
  Inv s → listeners s !! h = Some l →
  ∃ sub, subs s !! l_owner l = Some sub ∧ subId sub = Some h ∧
         stopSubscription sub = StopWired ∧ pushFn sub = PushWired ∧
         r_state (repeater sub) = Started ∧ r_err (repeater sub) = None.
Proof.
  intros [H _] Hl. destruct (inv_listener _ _ H h l Hl) as (sub & Hs & Hh).
  exists sub. split; [done|]. split; [done|].
  pose proof (inv_sub _ _ H _ _ Hs) as Hok. unfold sub_ok in Hok.
  destruct (stopSubscription sub).
  { destruct Hok as (_ & ? & _). congruence. }
  destruct Hok as (? & ? & h' & ? & ? & Hreg).
  assert (h' = h) as -> by congruence.
  assert (r_state (repeater sub) = Started) as Hst.
  { destruct Hreg as [[_ Hq]|(_ & _ & ? & _)]; [|congruence].
    apply Hq. by intros ?%elem_of_nil. }
  repeat split; try done.
  eapply inv_open; [done..|]. apply is_stopped_false. by right.
Qed.

Lemma Inv_wired s id sub :
  Inv s → subs s !! id = Some sub → stopSubscription sub = StopWired →
  pushFn sub = PushWired ∧
  ∃ h, subId sub = Some h ∧
    ((r_state (repeater sub) = Started ∧ r_err (repeater sub) = None ∧ registered s id h) ∨
     (is_stopped (repeater sub) = true ∧ cleaned s id h)).
Proof.
  intros [H _] Hs Hw. pose proof (inv_sub _ _ H _ _ Hs) as Hok. unfold sub_ok in Hok.
  rewrite Hw in Hok. destruct Hok as (? & ? & h & ? & ? & Hreg). split; [done|].
  exists h. split; [done|]. destruct Hreg as [[? Hq]|(? & ? & ?)]; [left|by right].
  assert (r_state (repeater sub) = Started) as Hst.
  { apply Hq. by intros ?%elem_of_nil. }
  split; [done|]. split; [|done].
  eapply inv_open; [done..|]. apply is_stopped_false. by right.
Qed.

Lemma Inv_cleaned_gone s id sub h :
  Inv s → subs s !! id = Some sub → subId sub = Some h → cleaned s id h →
  (∀ h' l, listeners s !! h' = Some l → l_owner l ≠ id) ∧
  (∀ h' t, timers s !! h' = Some t → t_owner t ≠ id).
Proof.
  intros [H _] Hs Hh (Hl & _ & _ & _ & Hb). split.
  - intros h' l Hl' <-. destruct (inv_listener _ _ H h' l Hl') as (sub' & Hs' & Hh').
    assert (sub' = sub) as -> by congruence. congruence.
  - intros h' t Ht <-. apply (inv_timer_owner _ _ H) in Ht. congruence.
Qed.

(** ** Calls through the wired closure variables *)

Lemma call_stopSubscription_wired id e s sub :
  subs s !! id = Some sub → stopSubscription sub = StopWired →
  call_stopSubscription id e s = (Ok tt, stop id e s).
Proof.
  intros Hs Hw. unfold call_stopSubscription, mbind, M_bind, closure.
  by rewrite Hs, Hw.
Qed.

Lemma call_pushFn_wired id v s sub :
  subs s !! id = Some sub → pushFn sub = PushWired →
  call_pushFn id v s = (Ok tt, push id v s).
Proof.
  intros Hs Hw. unfold call_pushFn, mbind, M_bind, closure.
  by rewrite Hs, Hw.
Qed.

Lemma stop_lookup id e s sub :
  subs s !! id = Some sub →
  subs (stop id e s) !! id = Some (update_repeater (λ r, (repeater_stop e r).1) sub).
Proof. intros Hs. unfold stop. rewrite Hs. simpl. by rewrite lookup_alter_eq, Hs. Qed.

Lemma stop_open id e s sub :
  subs s !! id = Some sub →
  r_state (repeater sub) = Started → r_err (repeater sub) = None →
  ∃ sub', subs (stop id e s) !! id = Some sub' ∧
          stopSubscription sub' = stopSubscription sub ∧
          r_state (repeater sub') = Stopped ∧ r_err (repeater sub') = e ∧
          r_values (repeater sub') = r_values (repeater sub).
Proof.
  intros Hs Hst He. eexists. split; [by apply stop_lookup|].
  unfold repeater_stop, is_stopped. simpl. rewrite Hst. simpl. by rewrite He.
Qed.

Lemma deliver_accepted s h l m sub :
  listeners s !! h = Some l → msg_verifier m = verifier s →
  subs s !! l_owner l = Some sub →
  deliver h m s =
  dispatch (l_owner l) (msg_action m) (rearm (l_owner l) (heartbeatIntervalMs sub) s).
Proof.
  intros Hl Hv Hs. unfold deliver, mbind, M_bind, gets. rewrite Hl.
  unfold handler, mbind, M_bind, gets, closure, modify.
  destruct (decide _); [done|]. by rewrite Hs.
Qed.

(** C5, as the code has it.  A message that passes the verifier check
    re-arms the heartbeat of the subscription whose listener received
    it, whatever its [id] field says: the timer registered for that
    subscription is cleared, a new one is started, due one interval
    from now, and it is the only live timer of the subscription; only
    then, in that state, the action is dispatched, for every kind of
    action.  For [check] nothing else happens. *)
Theorem C5_accepted_message_rearms
    (s : Transport) (h : positive) (l : Listener) (m : HTTPCallbackMessage) :
  reachable s → listeners s !! h = Some l → msg_verifier m = verifier s →
  ∃ sub, subs s !! l_owner l = Some sub ∧
    let id := l_owner l in
    let s1 := rearm id (heartbeatIntervalMs sub) s in
    deliver h m s = dispatch id (msg_action m) s1 ∧
    (∀ old, heartbeats s !! id = Some old → timers s1 !! old = None) ∧
    heartbeats s1 !! id = Some (next_timer s) ∧
    timers s1 !! next_timer s =
      Some {| t_owner := id; t_deadline := (now s + heartbeatIntervalMs sub)%Z |} ∧
    (∀ h' t, timers s1 !! h' = Some t → t_owner t = id → h' = next_timer s) ∧
    (msg_action m = Check → deliver h m s = (Ok tt, s1)).
Proof.
  intros Hr%Inv_reachable Hl Hv.
  destruct (Inv_listener_started _ _ _ Hr Hl) as (sub & Hs & _).
  destruct Hr as [H _].
  exists sub. split; [done|]. simpl.
  assert (deliver h m s =
          dispatch (l_owner l) (msg_action m) (rearm (l_owner l) (heartbeatIntervalMs sub) s))
    as Hd.
  { by apply deliver_accepted. }
  split; [done|]. split; [|split; [|split; [|split]]].
  - intros old Ho. simpl. rewrite Ho.
    pose proof (inv_heartbeat_fresh _ _ H _ _ Ho).
    rewrite lookup_insert_ne by lia. apply lookup_delete_eq.
  - simpl. apply lookup_insert_eq.
  - simpl. apply lookup_insert_eq.
  - simpl. intros h' t [[<- _]|[_ Ht]]%lookup_insert_Some Ho; [done|].
    by apply (timers_clear_own _ _ _ _ _ H) in Ht as [_ ?].
  - intros Ha. by rewrite Hd, Ha.
Qed.

Lemma reachable_two : reachable Sample.two.
Proof.
  apply reachable_trace, trace_run. apply (bool_decide_unpack _). by vm_compute.
Qed.

Lemma C5_witness :
  let m := Sample.msg "a" "verifier-1" Check in
  deliver 1 m Sample.two = (Ok tt, rearm "a" 50000 Sample.two).
Proof.
  destruct (C5_accepted_message_rearms Sample.two 1
              {| l_topic := "webhook:post:/callback/a"; l_owner := "a" |}
              (Sample.msg "a" "verifier-1" Check) reachable_two eq_refl eq_refl)
    as (sub & Hs & _ & _ & _ & _ & _ & Hc).
  vm_compute in Hs. injection Hs as <-. exact (Hc eq_refl).
Defined.

(** C5 as stated fails: a message addressed to subscription [b] that
    arrives on the topic of subscription [a] with the right verifier
    leaves the heartbeat of [b], the message's id, untouched and
    re-arms the heartbeat of [a]. *)
Lemma C5_counterexample :
  let m := Sample.msg "b" "verifier-1" Check in
  let s' := step (EvPublish 1 m) Sample.two in
  msg_verifier m = verifier Sample.two ∧
  heartbeats Sample.two !! msg_id m = Some 2%positive ∧
  heartbeats s' !! msg_id m = Some 2%positive ∧
  timers s' !! 2%positive = Some {| t_owner := "b"; t_deadline := 50000 |} ∧
  heartbeats Sample.two !! "a" = Some 1%positive ∧
  heartbeats s' !! "a" = Some 3%positive ∧
  timers s' !! 1%positive = None ∧
  timers s' !! 3%positive = Some {| t_owner := "a"; t_deadline := 50010 |}.
Proof. vm_compute. repeat split. Qed.

Lemma reachable_started : reachable Sample.started.
Proof. apply reachable_trace, trace_run. apply (bool_decide_unpack _). by vm_compute. Qed.

(** C6, as the code has it.  When the initiating response arrives
    while the result sequence has been started by its consumer and is
    still open, has a success status, carries data and carries no
    errors field, the chain on the request returns without throwing,
    the data is appended once to what the sequence carries, the
    sequence ends without an error, and after the task no listener and
    no timer of the subscription is left and its [finally] callback
    has run once. *)
Theorem C6_inline_data_pushed_once
    (s : Transport) (id : string) (sub : Subscription) (res : Response) (d : Json) :
  reachable s → subs s !! id = Some sub →
  stopSubscription sub = StopWired → r_state (repeater sub) = Started →
  res_ok res = true → res_json res = Some {| data := Some d; errors := None |} →
  let e := EvSettled id (FetchResponse res) in
  (react e s).1 = Ok tt ∧
  ∃ sub', subs (step e s) !! id = Some sub' ∧
    r_values (repeater sub') = r_values (repeater sub) ++ [VData d] ∧
    ended_cleanly (repeater sub') ∧
    (∀ h l, listeners (step e s) !! h = Some l → l_owner l ≠ id) ∧
    (∀ h t, timers (step e s) !! h = Some t → t_owner t ≠ id) ∧
    occurrences id (finalized (step e s)) = 1.
Proof.
  intros Hr Hs Hw Hst Hok Hj e.
  pose proof (Inv_step e s (Inv_reachable _ Hr) I) as Hi'.
  destruct (Inv_wired _ _ _ (Inv_reachable _ Hr) Hs Hw) as (Hp & h & Hh & Hcase).
  assert (r_err (repeater sub) = None) as He.
  { destruct Hcase as [(_ & ? & _)|[E _]]; [done|].
    apply is_stopped_state in E. destruct E; congruence. }
  assert (react e s = (Ok tt, stop id None (push id (VData d) s))) as Hre.
  { simpl. unfold on_settled, try_catch, on_response, mbind, M_bind, mret, M_ret.
    rewrite Hok, Hj. unfold on_json. simpl. unfold mbind, M_bind.
    rewrite (call_pushFn_wired _ _ _ _ Hs Hp).
    assert (subs (push id (VData d) s) !! id =
            Some (update_repeater (repeater_push (VData d)) sub)) as Hs1.
    { simpl. by rewrite lookup_alter_eq, Hs. }
    by rewrite (call_stopSubscription_wired _ _ _ _ Hs1 Hw). }
  split; [by rewrite Hre|].
  assert (subs (push id (VData d) s) !! id =
          Some (update_repeater (repeater_push (VData d)) sub)) as Hs1.
  { simpl. by rewrite lookup_alter_eq, Hs. }
  destruct (stop_open id None _ _ Hs1) as (sub' & Hs' & Hw' & Hst' & He' & Hv').
  { simpl. unfold repeater_push, is_stopped. by rewrite Hst. }
  { simpl. unfold repeater_push, is_stopped. by rewrite Hst. }
  assert (subs (step e s) !! id = Some sub') as Hs''.
  { unfold step. by rewrite subs_drain, Hre. }
  exists sub'. split; [done|].
  assert (is_stopped (repeater sub') = true) as Hstopped.
  { apply is_stopped_state. by left. }
  split; [|split; [done|]].
  { rewrite Hv'. simpl. unfold repeater_push, is_stopped. by rewrite Hst. }
  destruct (Inv_wired _ _ _ Hi' Hs'') as (_ & h' & Hh' & Hcase'); [by rewrite Hw'|].
  destruct Hcase' as [(? & _)|[_ Hc]]; [congruence|].
  destruct (Inv_cleaned_gone _ _ _ _ Hi' Hs'' Hh' Hc) as [? ?].
  split; [done|]. split; [done|]. by destruct Hc as (_ & _ & ? & _).
Qed.

Lemma C6_witness :
  let e := EvSettled "a" (Sample.response 200 (Some "{foo:1}") None) in
  ∃ sub', subs (step e Sample.started) !! "a" = Some sub' ∧
          r_values (repeater sub') = [VData "{foo:1}"] ∧
          ended_cleanly (repeater sub').
Proof.
  destruct (C6_inline_data_pushed_once Sample.started "a"
              {| heartbeatIntervalMs := 50000;
                 subscriptionCallbackPath := "/callback/a";
                 stopSubscription := StopWired; pushFn := PushWired;
                 repeater := {| r_state := Started; r_err := None; r_values := [] |};
                 subId := Some 1%positive |}
              {| res_status := 200;
                 res_json := Some {| data := Some "{foo:1}"; errors := None |} |}
              "{foo:1}" reachable_started eq_refl eq_refl eq_refl eq_refl eq_refl)
    as (_ & sub' & Hs & Hv & Hc & _).
  exists sub'. split; [exact Hs|]. split; [exact Hv|exact Hc].
Defined.

(** C6 as stated fails: when the response with inline data arrives
    before the consumer has pulled for the first time, [pushFn] is
    still the placeholder; the chain rejects with the placeholder's
    error, nothing is pushed, the sequence does not end and the
    heartbeat timer stays live. *)
Lemma C6_counterexample :
  let e := EvSettled "a" (Sample.response 200 (Some "{foo:1}") None) in
  (react e Sample.created).1 = Throw (EGraphQL not_configured) ∧
  subs (step e Sample.created) !! "a" =
    Some {| heartbeatIntervalMs := 50000;
            subscriptionCallbackPath := "/callback/a";
            stopSubscription := StopPlaceholder; pushFn := PushPlaceholder;
            repeater := {| r_state := Initial; r_err := None; r_values := [] |};
            subId := None |} ∧
  timers (step e Sample.created) !! 1%positive =
    Some {| t_owner := "a"; t_deadline := 50000 |}.
Proof. vm_compute. repeat split. Qed.

Lemma on_json_errors id resJson errs :
  errors resJson = Some errs →
  on_json id resJson = call_stopSubscription id (Some (response_failure errs)).
Proof. intros E. unfold on_json. by rewrite E. Qed.


(** C3, as the code has it.  An initiating response with a success
    status that carries an errors field and arrives while the result
    sequence is started and open, and an accepted [complete] message
    that carries an errors field, end the sequence with the single
    error as it is when exactly one is carried, and with one
    [AggregateError] that holds every carried error, message included,
    when more than one is carried.  An accepted [complete] message
    without an errors field ends the sequence without an error. *)
Theorem C3_errors_terminate :
  (∀ s id sub res resJson errs,
     reachable s → subs s !! id = Some sub →
     stopSubscription sub = StopWired → r_state (repeater sub) = Started →
     res_ok res = true → res_json res = Some resJson → errors resJson = Some errs →
     ∃ sub', subs (step (EvSettled id (FetchResponse res)) s) !! id = Some sub' ∧
       (∀ e, errs = [e] → ended_with (EGraphQL e) (repeater sub')) ∧
       (1 < length errs →
        ended_with (EAggregate errs (join_lines (message <$> errs))) (repeater sub') ∧
        error_messages (EAggregate errs (join_lines (message <$> errs))) = message <$> errs)) ∧
  (∀ s h l m oerrs,
     reachable s → listeners s !! h = Some l →
     msg_verifier m = verifier s → msg_action m = Complete oerrs →
     ∃ sub', subs (step (EvPublish h m) s) !! l_owner l = Some sub' ∧
       (oerrs = None → ended_cleanly (repeater sub')) ∧
       (∀ e, oerrs = Some [e] → ended_with (EGraphQL e) (repeater sub')) ∧
       (∀ errs, oerrs = Some errs → 1 < length errs →
        ended_with (EAggregate errs "") (repeater sub') ∧
        error_messages (EAggregate errs "") = message <$> errs)).
Proof.
  split.
  - intros s id sub res resJson errs Hr Hs Hw Hst Hok Hj He.
    destruct (Inv_wired _ _ _ (Inv_reachable _ Hr) Hs Hw) as (Hp & h & Hh & Hcase).
    assert (r_err (repeater sub) = None) as Hnone.
    { destruct Hcase as [(_ & ? & _)|[E _]]; [done|].
      apply is_stopped_state in E. destruct E; congruence. }
    assert (react (EvSettled id (FetchResponse res)) s =
            (Ok tt, stop id (Some (response_failure errs)) s)) as Hre.
    { simpl. unfold on_settled, try_catch, on_response, mbind, M_bind, mret, M_ret.
      rewrite Hok, Hj, (on_json_errors _ _ _ He).
      by rewrite (call_stopSubscription_wired _ _ _ _ Hs Hw). }
    destruct (stop_open id (Some (response_failure errs)) _ _ Hs Hst Hnone)
      as (sub' & Hs' & _ & Hst' & He' & _).
    exists sub'. split; [unfold step; by rewrite subs_drain, Hre|].
    assert (is_stopped (repeater sub') = true) as Hstopped.
    { apply is_stopped_state. by left. }
    split.
    + intros e ->. split; [done|]. rewrite He'. simpl. by rewrite recreate_id.
    + intros Hlen. split; [|done]. split; [done|]. rewrite He'.
      destruct errs as [|e [|e' errs]]; simpl in Hlen; [lia..|].
      unfold response_failure. by rewrite recreate_all.
  - intros s h l m oerrs Hr Hl Hv Ha.
    destruct (Inv_listener_started _ _ _ (Inv_reachable _ Hr) Hl)
      as (sub & Hs & Hh & Hw & Hp & Hst & Hnone).
    pose proof (deliver_accepted _ _ _ _ _ Hl Hv Hs) as Hd.
    set (s1 := rearm (l_owner l) (heartbeatIntervalMs sub) s) in *.
    assert (subs s1 !! l_owner l = Some sub) as Hs1 by done.
    set (err := match oerrs with Some errs => Some (complete_failure errs) | None => None end).
    assert (react (EvPublish h m) s = (Ok tt, stop (l_owner l) err s1)) as Hre.
    { simpl. rewrite Hd, Ha. unfold err. destruct oerrs as [errs|].
      - simpl. by rewrite (call_stopSubscription_wired _ _ _ _ Hs1 Hw).
      - simpl. by rewrite (call_stopSubscription_wired _ _ _ _ Hs1 Hw). }
    destruct (stop_open (l_owner l) err _ _ Hs1 Hst Hnone)
      as (sub' & Hs' & _ & Hst' & He' & _).
    exists sub'. split; [unfold step; by rewrite subs_drain, Hre|].
    assert (is_stopped (repeater sub') = true) as Hstopped.
    { apply is_stopped_state. by left. }
    unfold err in He'. split; [|split].
    + intros ->. by split.
    + intros e ->. split; [done|]. rewrite He'. simpl. by rewrite recreate_id.
    + intros errs -> Hlen. split; [|done]. split; [done|]. rewrite He'.
      destruct errs as [|e [|e' errs]]; simpl in Hlen; [lia..|].
      unfold complete_failure. by rewrite recreate_all.
Qed.

Lemma C3_witness :
  let m := Sample.msg "a" "verifier-1"
             (Complete (Some [Sample.err "first"; Sample.err "second"])) in
  ∃ sub', subs (step (EvPublish 1 m) Sample.started) !! "a" = Some sub' ∧
          ended_with (EAggregate [Sample.err "first"; Sample.err "second"] "")
            (repeater sub') ∧
          error_messages (EAggregate [Sample.err "first"; Sample.err "second"] "") =
            ["first"; "second"].
Proof.
  destruct (proj2 C3_errors_terminate Sample.started 1%positive
              {| l_topic := "webhook:post:/callback/a"; l_owner := "a" |}
              (Sample.msg "a" "verifier-1"
                 (Complete (Some [Sample.err "first"; Sample.err "second"])))
              (Some [Sample.err "first"; Sample.err "second"])
              reachable_started eq_refl eq_refl eq_refl)
    as (sub' & Hs & _ & _ & Hagg).
  exists sub'. split; [exact Hs|]. apply (Hagg _ eq_refl). simpl. lia.
Defined.

(** C3 as stated fails: an initiating response with status 500 that
    carries one GraphQL error ends the started sequence with the
    ["HTTP Error"] built from the status, not with the error it
    carries; the later [stopSubscription] with that error comes after
    the sequence has ended and changes nothing. *)
Lemma C3_counterexample :
  let e := EvSettled "a" (Sample.response 500 None (Some [Sample.err "boom"])) in
  subs (step e Sample.started) !! "a" =
    Some {| heartbeatIntervalMs := 50000;
            subscriptionCallbackPath := "/callback/a";
            stopSubscription := StopWired; pushFn := PushWired;
            repeater := {| r_state := Stopped;
                           r_err := Some (EGraphQL (http_error 500));
                           r_values := [] |};
            subId := Some 1%positive |} ∧
  EGraphQL (http_error 500) ≠ EGraphQL (Sample.err "boom").
Proof. vm_compute. split; [reflexivity|discriminate]. Qed.

(** ** One live timer per subscription *)

Lemma GInv_one_timer q s h1 h2 t1 t2 :
  GInv q s → timers s !! h1 = Some t1 → timers s !! h2 = Some t2 →
  t_owner t1 = t_owner t2 → h1 = h2.
Proof.
  intros H H1%(inv_timer_owner _ _ H) H2%(inv_timer_owner _ _ H) E.
  rewrite E in H1. congruence.
Qed.

Lemma clear_heartbeat_absent id s : heartbeats s !! id = None → clear_heartbeat id s = s.
Proof.
  intros E. unfold clear_heartbeat, clearTimeout, with_heartbeats, with_timers.
  rewrite E. destruct s. simpl in *. by rewrite delete_id.
Qed.

Lemma clear_heartbeat_idemp id s :
  clear_heartbeat id (clear_heartbeat id s) = clear_heartbeat id s.
Proof. apply clear_heartbeat_absent. simpl. apply lookup_delete_eq. Qed.

(** C7. In every state the transport can reach, between tasks and
    after any task before its microtasks have run, no two live timers
    belong to the same subscription.  Re-arming the heartbeat of an id
    clears the timer that was registered for it and again leaves at
    most one live timer per id.  Clearing a heartbeat twice is the
    same as clearing it once, and clearing the heartbeat of an id that
    has none changes nothing. *)
Theorem C7_one_live_timer_per_id (s : Transport) :
  reachable s →
  (∀ h1 h2 t1 t2, timers s !! h1 = Some t1 → timers s !! h2 = Some t2 →
                  t_owner t1 = t_owner t2 → h1 = h2) ∧
  (∀ e h1 h2 t1 t2, enabled e s →
     timers (react e s).2 !! h1 = Some t1 → timers (react e s).2 !! h2 = Some t2 →
     t_owner t1 = t_owner t2 → h1 = h2) ∧
  (∀ id ms old, heartbeats s !! id = Some old → timers (rearm id ms s) !! old = None) ∧
  (∀ id ms h1 h2 t1 t2,
     timers (rearm id ms s) !! h1 = Some t1 → timers (rearm id ms s) !! h2 = Some t2 →
     t_owner t1 = t_owner t2 → h1 = h2) ∧
  (∀ id, clear_heartbeat id (clear_heartbeat id s) = clear_heartbeat id s) ∧
  (∀ id, heartbeats s !! id = None → clear_heartbeat id s = s).
Proof.
  intros Hi%Inv_reachable. pose proof Hi as [H _].
  split; [|split; [|split; [|split; [|split]]]].
  - intros h1 h2 t1 t2. apply (GInv_one_timer _ _ _ _ _ _ H).
  - intros e h1 h2 t1 t2 He.
    apply (GInv_one_timer (microtasks (react e s).2)).
    apply QInv_react; [by apply Inv_QInv|done].
  - intros id ms old Ho. simpl. rewrite Ho.
    pose proof (inv_heartbeat_fresh _ _ H _ _ Ho).
    rewrite lookup_insert_ne by lia. apply lookup_delete_eq.
  - intros id ms h1 h2 t1 t2. simpl.
    intros [[<- <-]|[? H1]]%lookup_insert_Some [[<- <-]|[? H2]]%lookup_insert_Some;
      simpl; try done.
    + intros E. apply (timers_clear_own _ _ _ _ _ H) in H2 as [_ ?]. congruence.
    + intros E. apply (timers_clear_own _ _ _ _ _ H) in H1 as [_ ?]. congruence.
    + apply (timers_clear_own _ _ _ _ _ H) in H1 as [H1 _].
      apply (timers_clear_own _ _ _ _ _ H) in H2 as [H2 _].
      by apply (GInv_one_timer _ _ _ _ _ _ H).
  - intros id. apply clear_heartbeat_idemp.
  - intros id. apply clear_heartbeat_absent.
Qed.

Lemma C7_witness :
  heartbeats Sample.two !! "a" = Some 1%positive ∧
  timers (rearm "a" 50000 Sample.two) !! 1%positive = None.
Proof.
  split; [reflexivity|].
  exact (proj1 (proj2 (proj2 (C7_one_live_timer_per_id Sample.two reachable_two)))
           "a" 50000%Z 1%positive eq_refl).
Defined.

(** ** Disposal *)

Lemma stop_other id a e s : a ≠ id → subs (stop a e s) !! id = subs s !! id.
Proof.
  intros Hne. unfold stop. destruct (subs s !! a); [|done].
  simpl. by rewrite lookup_alter_ne.
Qed.

Lemma stop_ended id a e s sub :
  subs s !! id = Some sub → ended_cleanly (repeater sub) →
  ∃ sub', subs (stop a e s) !! id = Some sub' ∧ ended_cleanly (repeater sub') ∧
          stopSubscription sub' = stopSubscription sub.
Proof.
  intros Hs [Hst He]. destruct (decide (a = id)) as [->|Hne].
  - eexists. split; [by apply stop_lookup|].
    unfold ended_cleanly, repeater_stop. simpl. by rewrite Hst.
  - exists sub. by rewrite stop_other.
Qed.

Lemma foldl_stop_ended ids s id sub :
  subs s !! id = Some sub →
  ended_cleanly (repeater sub) ∨
    (id ∈ ids ∧ r_state (repeater sub) = Started ∧ r_err (repeater sub) = None) →
  ∃ sub', subs (foldl (λ s id, stop id None s) s ids) !! id = Some sub' ∧
          ended_cleanly (repeater sub') ∧
          stopSubscription sub' = stopSubscription sub.
Proof.
  revert s sub. induction ids as [|a ids IH]; intros s sub Hs Hcase; simpl.
  - destruct Hcase as [?|([]%elem_of_nil & _)]. by exists sub.
  - destruct Hcase as [Hend|(Hin & Hst & He)].
    + destruct (stop_ended id a None s sub Hs Hend) as (sub' & Hs' & Hend' & <-).
      eapply IH; [done|by left].
    + destruct (decide (a = id)) as [->|Hne].
      * destruct (stop_open id None s sub Hs Hst He) as (sub' & Hs' & <- & Hst' & He' & _).
        eapply IH; [done|]. left. split; [|done]. apply is_stopped_state. by left.
      * eapply IH; [by rewrite stop_other|]. right.
        apply elem_of_cons in Hin as [?|?]; [congruence|done].
Qed.

Lemma foldl_stop_frame ids s :
  let s' := foldl (λ s id, stop id None s) s ids in
  heartbeats s' = heartbeats s ∧ timers s' = timers s ∧ stopFnSet s' = stopFnSet s.
Proof.
  revert s. induction ids as [|a ids IH]; intros s; simpl; [done|].
  destruct (IH (stop a None s)) as (-> & -> & ->).
  unfold stop. by destruct (subs s !! a).
Qed.

Lemma foldl_clearTimeout_frame hs s :
  let s' := foldl (λ s h, clearTimeout (Some h) s) s hs in
  subs s' = subs s ∧ stopFnSet s' = stopFnSet s ∧ microtasks s' = microtasks s.
Proof.
  revert s. induction hs as [|h hs IH]; intros s; simpl; [done|].
  by destruct (IH (clearTimeout (Some h) s)) as (-> & -> & ->).
Qed.

Lemma foldl_clearTimeout_lookup hs s h :
  timers (foldl (λ s h, clearTimeout (Some h) s) s hs) !! h =
  if decide (h ∈ hs) then None else timers s !! h.
Proof.
  revert s. induction hs as [|a hs IH]; intros s; simpl; [done|].
  rewrite IH. simpl. destruct (decide (a = h)) as [->|Hne].
  - rewrite lookup_delete_eq. rewrite (decide_True (P := h ∈ h :: hs)) by by left.
    by destruct (decide _).
  - rewrite lookup_delete_ne by done.
    destruct (decide (h ∈ hs)).
    + rewrite decide_True; [done|]. by right.
    + rewrite decide_False; [done|]. rewrite not_elem_of_cons. split; congruence.
Qed.

Lemma foldl_clearTimeout_empty hs s :
  timers s = ∅ → foldl (λ s h, clearTimeout (Some h) s) s hs = s.
Proof.
  revert s. induction hs as [|h hs IH]; intros s E; simpl; [done|].
  assert (clearTimeout (Some h) s = s) as ->; [|by apply IH].
  unfold clearTimeout, with_timers. destruct s. simpl in *. subst.
  by rewrite delete_empty.
Qed.

Lemma timers_cleanup_empty id s : timers s = ∅ → timers (cleanup id s) = ∅.
Proof.
  intros E. unfold cleanup. destruct (subs s !! id ≫= subId); simpl; rewrite E;
    destruct (heartbeats s !! id); by rewrite ?delete_empty.
Qed.

Lemma timers_run_microtasks_empty q s :
  timers s = ∅ → timers (foldl (λ s id, cleanup id s) s q) = ∅.
Proof.
  revert s. induction q as [|id q IH]; intros s E; [done|].
  simpl. by apply IH, timers_cleanup_empty.
Qed.

Lemma stopFnSet_cleanup id id' s : id' ∈ stopFnSet (cleanup id s) → id' ∈ stopFnSet s.
Proof.
  unfold cleanup. destruct (subs s !! id ≫= subId); simpl;
    by intros [_ ?]%elem_of_set_delete.
Qed.

Lemma stopFnSet_run_microtasks q s id' :
  id' ∈ stopFnSet (foldl (λ s id, cleanup id s) s q) → id' ∈ stopFnSet s.
Proof.
  revert s. induction q as [|id q IH]; intros s; [done|].
  simpl. by intros ?%IH%stopFnSet_cleanup.
Qed.

Lemma Inv_in_stopFnSet s id :
  Inv s → id ∈ stopFnSet s →
  ∃ sub, subs s !! id = Some sub ∧ stopSubscription sub = StopWired ∧
         r_state (repeater sub) = Started ∧ r_err (repeater sub) = None.
Proof.
  intros Hi Hin. pose proof Hi as [H _].
  destruct (inv_stopFnSet _ _ H id Hin) as [sub Hs]. exists sub. split; [done|].
  pose proof (inv_sub _ _ H _ _ Hs) as Hok. unfold sub_ok in Hok.
  destruct (stopSubscription sub) eqn:Hw.
  { by destruct Hok as (_ & _ & _ & ? & _). }
  split; [done|].
  destruct (Inv_wired _ _ _ Hi Hs Hw) as (_ & h & _ & [(? & ? & _)|(_ & _ & ? & _)]); done.
Qed.

(** C8. Disposing the transport ends every subscription that is still
    registered in [stopFnSet] without an error and leaves no live
    timer, no listener and no registered stop function; every
    [finally] callback has run once and no listener handle was
    unsubscribed twice.  Afterwards no timer can fire, and disposing
    again changes nothing. *)
Theorem C8_dispose (s : Transport) :
  reachable s →
  let s' := step EvDispose s in
  (react EvDispose s).1 = Ok tt ∧
  (∀ id, id ∈ stopFnSet s →
     ∃ sub', subs s' !! id = Some sub' ∧ ended_cleanly (repeater sub') ∧
             occurrences id (finalized s') = 1 ∧
             ∃ h, subId sub' = Some h ∧ occurrences h (unsubscribed s') = 1) ∧
  timers s' = ∅ ∧ listeners s' = ∅ ∧ stopFnSet s' = [] ∧
  NoDup (unsubscribed s') ∧
  (∀ h, ¬ enabled (EvTimer h) s') ∧
  step EvDispose s' = s'.
Proof.
  intros Hr s'. pose proof (Inv_reachable _ Hr) as Hi.
  pose proof (Inv_step EvDispose s Hi I) as Hi'. fold s' in Hi'.
  pose proof Hi as [H _]. pose proof Hi' as [H' Hm'].
  set (s1 := foldl (λ s id, stop id None s) s (stopFnSet s)).
  set (hs := (map_to_list (heartbeats s1)).*2).
  set (s2 := foldl (λ s h, clearTimeout (Some h) s) s1 hs).
  assert (react EvDispose s = (Ok tt, s2)) as Hre by done.
  assert (s' = drain s2) as Hs' by done.
  destruct (foldl_stop_frame (stopFnSet s) s) as (Hb1 & Ht1 & Hf1). fold s1 in Hb1, Ht1, Hf1.
  destruct (foldl_clearTimeout_frame hs s1) as (Hsub2 & Hf2 & _). fold s2 in Hsub2, Hf2.
  assert (∀ id, id ∈ stopFnSet s →
            ∃ sub', subs s' !! id = Some sub' ∧ ended_cleanly (repeater sub') ∧
                    stopSubscription sub' = StopWired) as Hended.
  { intros id Hin. destruct (Inv_in_stopFnSet _ _ Hi Hin) as (sub & Hs & Hw & Hst & He).
    rewrite Hs', subs_drain, Hsub2, <- Hw. eapply foldl_stop_ended; [done|]. by right. }
  assert (timers s' = ∅) as Ht'.
  { rewrite Hs'. unfold drain. apply timers_run_microtasks_empty.
    change (timers s2 = ∅).
    apply map_eq. intros h. rewrite lookup_empty.
    unfold s2. rewrite (foldl_clearTimeout_lookup hs s1 h).
    destruct (decide (h ∈ hs)) as [|Hn]; [done|].
    destruct (timers s1 !! h) as [t|] eqn:Ht; [|done]. exfalso. apply Hn.
    rewrite Ht1 in Ht. apply (inv_timer_owner _ _ H) in Ht.
    unfold hs. rewrite Hb1. apply list_elem_of_fmap. exists (t_owner t, h).
    split; [done|]. by apply elem_of_map_to_list. }
  assert (stopFnSet s' = []) as Hf'.
  { apply elem_of_nil_inv. intros id Hin.
    destruct (Inv_in_stopFnSet _ _ Hi' Hin) as (sub' & Hsub' & _ & Hst' & _).
    assert (id ∈ stopFnSet s) as Hin0.
    { rewrite Hs' in Hin. apply stopFnSet_run_microtasks in Hin. simpl in Hin.
      by rewrite Hf2, Hf1 in Hin. }
    destruct (Hended id Hin0) as (sub'' & ? & [Hstop _] & _).
    assert (sub'' = sub') as -> by congruence.
    apply is_stopped_state in Hstop. destruct Hstop; congruence. }
  assert (listeners s' = ∅) as Hl'.
  { apply map_eq. intros h. rewrite lookup_empty.
    destruct (listeners s' !! h) as [l|] eqn:Hl; [|done]. exfalso.
    destruct (Inv_listener_started _ _ _ Hi' Hl) as (sub' & Hsub' & _ & Hw' & _ & Hst' & _).
    destruct (Inv_wired _ _ _ Hi' Hsub' Hw') as (_ & h' & _ & [(_ & _ & Hreg)|[Hstop _]]).
    - destruct Hreg as (_ & Hin & _). rewrite Hf' in Hin. by apply elem_of_nil in Hin.
    - apply is_stopped_state in Hstop. destruct Hstop; congruence. }
  split; [by rewrite Hre|]. split; [|split; [done|split; [done|split; [done|split; [|split]]]]].
  - intros id Hin. destruct (Hended id Hin) as (sub' & Hsub' & Hend & Hw').
    exists sub'. split; [done|]. split; [done|].
    destruct (Inv_wired _ _ _ Hi' Hsub' Hw') as (_ & h & Hh & [(Hst & _)|[_ Hc]]).
    { destruct Hend as [Hstop _]. apply is_stopped_state in Hstop.
      destruct Hstop; congruence. }
    destruct Hc as (_ & _ & ? & ? & _). split; [done|]. by exists h.
  - by destruct H'.
  - intros h. simpl. rewrite Ht', lookup_empty. tauto.
  - unfold step. simpl. unfold asyncDispose, mbind, M_bind, gets, modify. simpl.
    rewrite Hf'. simpl. rewrite foldl_clearTimeout_empty by done.
    by apply drain_nil.
Qed.

Lemma C8_witness :
  timers (step EvDispose Sample.two) = ∅ ∧
  step EvDispose (step EvDispose Sample.two) = step EvDispose Sample.two.
Proof.
  destruct (C8_dispose Sample.two reachable_two) as (_ & _ & Ht & _ & _ & _ & _ & Hd).
  split; [exact Ht|exact Hd].
Defined.

(** ** An ended sequence stays ended *)

Section Ended.
Context (id : string) (err : option Error).

Lemma Ended_subs s s' : subs s' = subs s → Ended id err s → Ended id err s'.
Proof. intros E. unfold Ended. by rewrite E. Qed.





Lemma Ended_cleanup a s : Ended id err s → Ended id err (cleanup a s).
Proof. apply Ended_subs, subs_cleanup. Qed.





End Ended.

Lemma reachable_trans s evs s' : reachable s → trace s evs s' → reachable s'.
Proof.
  intros Hr Htr. induction Htr; [done|]. by apply IHHtr, reachable_step.
Qed.

(** ** Every way out ends the sequence *)







(** ** An open subscription and its heartbeat, while nothing concerns
    them *)



Section Armed.
Context (id : string) (hl h : positive) (d : Z).

Lemma Armed_frame s s' :
  subs s' !! id = subs s !! id → heartbeats s' !! id = heartbeats s !! id →
  timers s' !! h = timers s !! h → Armed id hl h d s → Armed id hl h d s'.
Proof. unfold Armed. by intros -> -> ->. Qed.

Lemma Armed_stop a e s : a ≠ id → Armed id hl h d s → Armed id hl h d (stop a e s).
Proof.
  intros Hne. apply Armed_frame; [by apply stop_other|..];
    unfold stop; by destruct (subs s !! a).
Qed.

Lemma Armed_push a v s : Armed id hl h d s → Armed id hl h d (push a v s).
Proof.
  intros ((sub & Hs & Hw & Hst & Hh) & Hb & Ht). split; [|done].
  destruct (decide (a = id)) as [->|Hne].
  - exists (update_repeater (repeater_push v) sub). simpl.
    rewrite lookup_alter_eq, Hs. repeat split; try done.
    simpl. unfold repeater_push, is_stopped. by rewrite Hst.
  - exists sub. simpl. by rewrite lookup_alter_ne.
Qed.

Lemma Armed_heartbeat_other q s a ho :
  GInv q s → Armed id hl h d s → a ≠ id → heartbeats s !! a = Some ho → ho ≠ h.
Proof.
  intros H (_ & _ & Ht) Hne Ho ->.
  by apply (inv_heartbeat_owner _ _ H _ _ _ Ho) in Ht.
Qed.

Lemma Armed_clear_other q s a :
  GInv q s → Armed id hl h d s → a ≠ id →
  match heartbeats s !! a with
  | Some ho => delete ho (timers s)
  | None => timers s
  end !! h = timers s !! h.
Proof.
  intros H Ha Hne. destruct (heartbeats s !! a) as [ho|] eqn:Ho; [|done].
  rewrite lookup_delete_ne; [done|]. by eapply Armed_heartbeat_other.
Qed.

Lemma Armed_rearm q s a ms :
  GInv q s → a ≠ id → Armed id hl h d s → Armed id hl h d (rearm a ms s).
Proof.
  intros H Hne Ha. eapply Armed_frame; [..|done]; simpl.
  - done.
  - by rewrite lookup_insert_ne.
  - pose proof Ha as (_ & Hb & _). pose proof (inv_heartbeat_fresh _ _ H _ _ Hb).
    rewrite lookup_insert_ne by lia. by eapply Armed_clear_other.
Qed.

Lemma Armed_cleanup q s a :
  GInv q s → a ≠ id → Armed id hl h d s → Armed id hl h d (cleanup a s).
Proof.
  intros H Hne Ha. eapply Armed_frame; [..|done].
  - by rewrite subs_cleanup.
  - unfold cleanup. destruct (subs s !! a ≫= subId); simpl; by rewrite lookup_delete_ne.
  - unfold cleanup. destruct (subs s !! a ≫= subId); simpl; by eapply Armed_clear_other.
Qed.

Lemma Armed_not_queued q s : GInv q s → Armed id hl h d s → id ∉ q.
Proof.
  intros H ((sub & Hs & Hw & Hst & _) & _).
  pose proof (inv_sub _ _ H _ _ Hs) as Hok. unfold sub_ok in Hok. rewrite Hw in Hok.
  destruct Hok as (_ & _ & h' & _ & _ & [[_ Hq]|(? & ? & _)]); [by apply Hq|done].
Qed.

Lemma Armed_run_microtasks q s :
  GInv q s → Armed id hl h d s →
  Armed id hl h d (foldl (λ s a, cleanup a s) s q).
Proof.
  revert s. induction q as [|a q IH]; intros s H Ha; [done|].
  simpl. pose proof (Armed_not_queued _ _ H Ha) as Hn.
  apply not_elem_of_cons in Hn as [? ?].
  apply IH; [by apply GInv_cleanup|]. by eapply Armed_cleanup.
Qed.

Lemma Armed_drain s : QInv s → Armed id hl h d s → Armed id hl h d (drain s).
Proof.
  intros H Ha. unfold drain. apply Armed_run_microtasks.
  - by apply GInv_with_microtasks.
  - by eapply Armed_frame.
Qed.

Lemma Live_stop a e s : a ≠ id → Live id hl h d s → Live id hl h d (stop a e s).
Proof. intros Hne [H Ha]. split; [by apply QInv_stop|by apply Armed_stop]. Qed.

Lemma Live_push a v s : Live id hl h d s → Live id hl h d (push a v s).
Proof. intros [H Ha]. split; [by apply QInv_push|by apply Armed_push]. Qed.

Lemma Armed_react e s :
  QInv s → Armed id hl h d s → enabled e s → quiet id hl (verifier s) e →
  e ≠ EvTimer h → Armed id hl h d (react e s).2.
Proof.
  intros H Ha Hen Hq Hne.
  pose proof Ha as ((sub & Hs & Hw & Hst & Hh) & Hb & Ht).
  destruct e as [a rq|a|a|a r|h' m|h'| |dt]; simpl in *.
  - (* a new subscription, with a fresh id *)
    assert (a ≠ id) as Hna by (intros ->; congruence).
    unfold httpCallbackExecutor, mbind, M_bind, gets, modify. simpl.
    destruct (options (entry s)); [|done]. simpl.
    eapply Armed_frame; [..|done]; simpl.
    + by rewrite lookup_insert_ne.
    + by rewrite lookup_insert_ne.
    + pose proof (inv_heartbeat_fresh _ _ H _ _ Hb).
      by rewrite lookup_insert_ne by lia.
  - (* a pull: the first one of another subscription, or nothing *)
    unfold repeater_next, mbind, M_bind, closure.
    destruct (subs s !! a) as [sub'|] eqn:Hs'; [|done].
    destruct (decide _) as [Hi|]; [|done]. simpl.
    assert (a ≠ id) as Hna by (intros ->; congruence).
    eapply Armed_frame; [..|done]; simpl; [|done..].
    by rewrite lookup_insert_ne.
  - (* another consumer cancels *)
    unfold repeater_return, mbind, M_bind, closure, modify.
    destruct (subs s !! a) as [sub'|] eqn:Hs'; [|done].
    destruct (decide _); [done|]. simpl.
    eapply Armed_frame; [..|by apply (Armed_stop a None)]; simpl; [|done..].
    by rewrite lookup_alter_ne.
  - (* the request of another subscription settles, or the one of this
       subscription is plainly accepted *)
    destruct Hq as [Hna|Hacc].
    + apply (preserves_on_settled (Live id hl h d) a); [| |done].
      * intros. by apply Live_stop.
      * intros. by apply Live_push.
    + destruct r as [e0|res]; [done|].
      destruct Hacc as (Hok & resJson & Hj & He & Hd).
      unfold on_settled, try_catch, on_response, mbind, M_bind, mret, M_ret.
      rewrite Hok, Hj. unfold on_json. by rewrite He, Hd.
  - (* a message to another listener, or with another verifier *)
    unfold deliver, mbind, M_bind, gets.
    destruct (listeners s !! h') as [l|] eqn:Hl; [|done].
    unfold handler, mbind, M_bind, gets, closure, modify.
    destruct (decide _) as [|Hv]; [done|].
    destruct Hq as [Hq|Hq]; [|by destruct Hv].
    destruct (QInv_listener _ _ _ H Hl) as (sub' & Hs' & Hh' & _).
    rewrite Hs'.
    assert (l_owner l ≠ id) as Hna.
    { intros E. rewrite E in Hs'. congruence. }
    apply (preserves_dispatch (Live id hl h d) (l_owner l)).
    + intros. by apply Live_stop.
    + intros. by apply Live_push.
    + split; [|by eapply Armed_rearm].
      eapply GInv_rearm; [done..|].
      intros h0 ?. assert (h0 = h') as -> by congruence. eauto.
  - (* the timer of another subscription expires *)
    assert (h' ≠ h) as Hnh by congruence.
    unfold timer_fire, mbind, M_bind, gets, modify.
    destruct (timers s !! h') as [t|] eqn:Ht'; [|done].
    assert (t_owner t ≠ id) as Hna.
    { intros E. apply (inv_timer_owner _ _ H) in Ht'. congruence. }
    apply (preserves_call_stopSubscription (Live id hl h d) (t_owner t)).
    + intros. by apply Live_stop.
    + split; [by apply (GInv_clearTimeout _ _ (Some h'))|].
      eapply Armed_frame; [..|done]; simpl; [done..|]. by rewrite lookup_delete_ne.
  - done.
  - by eapply Armed_frame.
Qed.

Lemma Armed_step e s :
  Inv s → Armed id hl h d s → enabled e s → quiet id hl (verifier s) e →
  e ≠ EvTimer h → Armed id hl h d (step e s).
Proof.
  intros Hi Ha Hen Hq Hne. apply Armed_drain.
  - apply QInv_react; [by apply Inv_QInv|done].
  - apply Armed_react; [by apply Inv_QInv|done..].
Qed.

End Armed.

(** ** The heartbeat timeout *)







(** * Further properties of the transport *)

(** ** A property kept by every operation is kept by every task *)

Section Kept.
Context (P : Transport → Prop).
Context (P_execute : ∀ id rq s,
  subs s !! id = None → P s → P (httpCallbackExecutor id rq s).2).
Context (P_run : ∀ id sub s,
  subs s !! id = Some sub → r_state (repeater sub) = Initial → P s →
  P (run_executor id sub s)).
Context (P_stop : ∀ id e s, P s → P (stop id e s)).
Context (P_push : ∀ id v s, P s → P (push id v s)).
Context (P_done : ∀ id s, P s → P (with_subs (alter (update_repeater mark_done) id) s)).
Context (P_rearm : ∀ id sub s,
  subs s !! id = Some sub → P s → P (rearm id (heartbeatIntervalMs sub) s)).
Context (P_clear : ∀ h s, P s → P (clearTimeout (Some h) s)).
Context (P_now : ∀ f s, P s → P (with_now f s)).
Context (P_cleanup : ∀ id s, P s → P (cleanup id s)).
Context (P_queue : ∀ s, P s → P (with_microtasks (λ _, []) s)).

Lemma kept_react e s : enabled e s → P s → P (react e s).2.
Proof using P_execute P_run P_stop P_push P_done P_rearm P_clear P_now.
  intros He H. destruct e as [a rq|a|a|a r|h m|h| |dt]; simpl in *.
  - by apply P_execute.
  - unfold repeater_next, mbind, M_bind, closure.
    destruct (subs s !! a) as [sub|] eqn:Hs; [|done].
    destruct (decide _) as [Hi|]; [|done]. simpl. by apply P_run.
  - unfold repeater_return, mbind, M_bind, closure, modify.
    destruct (subs s !! a) as [sub|] eqn:Hs; [|done].
    destruct (decide _); [done|]. simpl. by apply P_done, P_stop.
  - by apply (preserves_on_settled P a (P_stop a) (P_push a)).
  - unfold deliver, mbind, M_bind, gets.
    destruct (listeners s !! h) as [l|]; [|done].
    unfold handler, mbind, M_bind, gets, closure, modify.
    destruct (decide _); [done|].
    destruct (subs s !! l_owner l) as [sub|] eqn:Hs; [|done].
    apply (preserves_dispatch P _ (P_stop _) (P_push _)). by apply P_rearm.
  - unfold timer_fire, mbind, M_bind, gets, modify.
    destruct (timers s !! h) as [t|]; [|done].
    apply (preserves_call_stopSubscription P _ (P_stop _)). by apply (P_clear h).
  - unfold asyncDispose, mbind, M_bind, gets, modify. simpl.
    assert (∀ hs s0, P s0 → P (foldl (λ s h, clearTimeout (Some h) s) s0 hs)) as Hc.
    { intros hs. induction hs as [|x hs IH]; intros s0 H0; [done|].
      simpl. by apply IH, P_clear. }
    assert (∀ ids s0, P s0 → P (foldl (λ s a, stop a None s) s0 ids)) as Hs.
    { intros ids. induction ids as [|x ids IH]; intros s0 H0; [done|].
      simpl. by apply IH, P_stop. }
    by apply Hc, Hs.
  - by apply P_now.
Qed.

Lemma kept_drain s : P s → P (drain s).
Proof using P_cleanup P_queue.
  intros H. unfold drain. apply P_queue in H. revert H.
  generalize (with_microtasks (λ _, []) s).
  induction (microtasks s) as [|a q IH]; intros s1 H1; [done|].
  simpl. by apply IH, P_cleanup.
Qed.

Lemma kept_step e s : enabled e s → P s → P (step e s).
Proof using All. intros He H. by apply kept_drain, kept_react. Qed.

Lemma kept_trace s evs s' : trace s evs s' → P s → P s'.
Proof using All. induction 1; [done|]. intros H'. by apply IHtrace, kept_step. Qed.
End Kept.

(** ** What holds of an ended sequence *)

Section Closed.
Context (id : string) (err : option Error) (vs : list Value).

Lemma Closed_subs s s' : subs s' = subs s → Closed id err vs s → Closed id err vs s'.
Proof. intros E. unfold Closed. by rewrite E. Qed.

Lemma Closed_update a f s :
  (∀ r, is_stopped r = true →
        is_stopped (f r) = true ∧ r_err (f r) = r_err r ∧ r_values (f r) = r_values r) →
  Closed id err vs s → Closed id err vs (with_subs (alter (update_repeater f) a) s).
Proof.
  intros Hf (sub & Hs & Hst & He & Hv). destruct (decide (a = id)) as [->|Hne].
  - exists (update_repeater f sub). simpl. rewrite lookup_alter_eq, Hs.
    destruct (Hf _ Hst) as (? & ? & ?). repeat split; try done; simpl; congruence.
  - exists sub. simpl. by rewrite lookup_alter_ne.
Qed.

Lemma Closed_stop a e s : Closed id err vs s → Closed id err vs (stop a e s).
Proof.
  intros H. unfold stop. destruct (subs s !! a) as [sub0|]; [|done].
  eapply Closed_subs; [|apply (Closed_update a); [|exact H]]; [done|].
  intros r Hst. unfold repeater_stop. by rewrite Hst.
Qed.

Lemma Closed_push a v s : Closed id err vs s → Closed id err vs (push a v s).
Proof.
  apply Closed_update. intros r Hst. unfold repeater_push. by rewrite Hst.
Qed.

Lemma Closed_insert a sub s :
  a ≠ id → Closed id err vs s → Closed id err vs (with_subs (insert a sub) s).
Proof.
  intros Hne (sub' & Hs & ?). exists sub'. simpl. by rewrite lookup_insert_ne.
Qed.

(** X1. Once the result sequence of a subscription has ended, nothing
    that happens afterwards (messages on the bus, the initiating
    response, timers, a cancellation, disposal, new subscriptions)
    changes the values it holds or the error it ended with: [push]
    after [stop] does nothing and only the first [stop] counts. *)
Theorem ended_sequence_is_final (s : Transport) (evs : list Event) (s' : Transport) :
  trace s evs s' → Closed id err vs s → Closed id err vs s'.
Proof.
  apply (kept_trace (Closed id err vs)).
  - intros a rq s0 Hs0 H.
    unfold httpCallbackExecutor, mbind, M_bind, gets, modify. simpl.
    destruct (options (entry s0)); [|done]. simpl.
    eapply Closed_subs; [|apply (Closed_insert a); [|exact H]]; [done|].
    intros ->. destruct H as (? & ? & _). congruence.
  - intros a sub s0 Hs0 Hi H.
    eapply Closed_subs; [|apply (Closed_insert a); [|exact H]]; [done|].
    intros ->. destruct H as (sub' & ? & Hst & _).
    assert (sub' = sub) as -> by congruence.
    apply is_stopped_state in Hst. destruct Hst; congruence.
  - intros. by apply Closed_stop.
  - intros. by apply Closed_push.
  - intros a s0. by apply Closed_update.
  - intros a sub s0 _. by apply Closed_subs.
  - intros h s0. by apply Closed_subs.
  - intros f s0. by apply Closed_subs.
  - intros a s0. apply Closed_subs, subs_cleanup.
  - intros s0. by apply Closed_subs.
Qed.
End Closed.

Lemma ended_sequence_is_final_witness :
  let late := [EvSettled "a" (Sample.response 500 (Some "{foo:1}") None);
               EvPublish 1 (Sample.msg "a" "verifier-1" (Complete (Some [Sample.err "late"])));
               EvDispose] in
  Closed "a" None [] (run late (step (EvReturn "a") Sample.started)).
Proof.
  intros late.
  apply (ended_sequence_is_final "a" None [] (step (EvReturn "a") Sample.started) late).
  - apply trace_run. apply (bool_decide_unpack _). by vm_compute.
  - eexists. split; [by vm_compute|]. by vm_compute.
Defined.

(** ** Messages and responses for a started subscription *)

Lemma Wired_call_stop id e s :
  Wired id s → call_stopSubscription id e s = (Ok tt, stop id e s) ∧ Wired id (stop id e s).
Proof.
  intros (sub & Hs & Hw & Hp). split; [by eapply call_stopSubscription_wired|].
  eexists. split; [by apply stop_lookup|done].
Qed.

Lemma Wired_call_push id v s :
  Wired id s → call_pushFn id v s = (Ok tt, push id v s) ∧ Wired id (push id v s).
Proof.
  intros (sub & Hs & Hw & Hp). split; [by eapply call_pushFn_wired|].
  exists (update_repeater (repeater_push v) sub). simpl.
  by rewrite lookup_alter_eq, Hs.
Qed.

Lemma Wired_on_json id resJson s :
  Wired id s → (on_json id resJson s).1 = Ok tt ∧ Wired id (on_json id resJson s).2.
Proof.
  intros H. unfold on_json. destruct (errors resJson) as [errs|].
  { by destruct (Wired_call_stop id (Some (response_failure errs)) s H) as [-> ?]. }
  destruct (data resJson) as [d|]; [|done].
  unfold mbind, M_bind. destruct (Wired_call_push id (VData d) s H) as [-> H1].
  by destruct (Wired_call_stop id None _ H1) as [-> ?].
Qed.

Lemma Wired_on_settled id r s : Wired id s → (on_settled id r s).1 = Ok tt.
Proof.
  intros H. unfold on_settled, try_catch. destruct r as [e|res].
  { unfold throw. by destruct (Wired_call_stop id (Some e) s H) as [-> ?]. }
  unfold on_response, mbind, M_bind.
  set (body := match res_json res with
               | None => throw (EPlain "SyntaxError: the body is not JSON")
               | Some resJson => on_json id resJson
               end).
  assert (∀ s1, Wired id s1 →
            (body s1).1 = Ok tt ∨ ∃ e s2, body s1 = (Throw e, s2) ∧ Wired id s2) as Hbody.
  { intros s1 H1. unfold body. destruct (res_json res) as [resJson|].
    - left. by apply Wired_on_json.
    - right. by exists (EPlain "SyntaxError: the body is not JSON"), s1. }
  destruct (res_ok res).
  - simpl. destruct (Hbody s H) as [Hok|(e & s2 & Heq & H2)].
    + destruct (body s) as [[[]|e] s2]; simpl in *; [done|discriminate].
    + rewrite Heq. by destruct (Wired_call_stop id (Some e) s2 H2) as [-> ?].
  - destruct (Wired_call_stop id (Some (EGraphQL (http_error (res_status res)))) s H)
      as [-> H1].
    destruct (Hbody _ H1) as [Hok|(e & s2 & Heq & H2)].
    + destruct (body _) as [[[]|e] s2]; simpl in *; [done|discriminate].
    + rewrite Heq. by destruct (Wired_call_stop id (Some e) s2 H2) as [-> ?].
Qed.

Lemma Inv_started s id sub :
  Inv s → subs s !! id = Some sub → stopSubscription sub = StopWired →
  r_state (repeater sub) = Started →
  pushFn sub = PushWired ∧ r_err (repeater sub) = None ∧
  ∃ h, subId sub = Some h ∧ registered s id h.
Proof.
  intros Hi Hs Hw Hst.
  destruct (Inv_wired _ _ _ Hi Hs Hw) as (Hp & h & Hh & [(_ & He & Hreg)|[Hstop _]]).
  - split; [done|]. split; [done|]. by exists h.
  - apply is_stopped_state in Hstop. destruct Hstop; congruence.
Qed.

Lemma stop_Closed id e s sub :
  subs s !! id = Some sub →
  r_state (repeater sub) = Started → r_err (repeater sub) = None →
  Closed id e (r_values (repeater sub)) (stop id e s).
Proof.
  intros Hs Hst He.
  destruct (stop_open id e s sub Hs Hst He) as (sub' & Hs' & _ & Hst' & He' & Hv').
  exists sub'. repeat split; try done. apply is_stopped_state. by left.
Qed.

(** X2. An accepted [next] message reaches a started, open
    subscription only; its payload becomes the last value of the
    result sequence, after the values that were there, and the
    sequence stays open and the listener registered.  (The repeater's
    bound on pending values is not modelled.) *)
Theorem next_message_appends
    (s : Transport) (h : positive) (l : Listener) (m : HTTPCallbackMessage)
    (payload : ExecutionResult) :
  reachable s → listeners s !! h = Some l →
  msg_verifier m = verifier s → msg_action m = Next payload →
  let s' := step (EvPublish h m) s in
  (react (EvPublish h m) s).1 = Ok tt ∧
  ∃ sub sub', subs s !! l_owner l = Some sub ∧ subs s' !! l_owner l = Some sub' ∧
    r_values (repeater sub') = r_values (repeater sub) ++ [VResult payload] ∧
    r_state (repeater sub') = Started ∧ r_err (repeater sub') = None ∧
    listeners s' !! h = Some l.
Proof.
  intros Hr Hl Hv Ha s'. pose proof (Inv_reachable _ Hr) as Hi.
  destruct (Inv_listener_started _ _ _ Hi Hl) as (sub & Hs & Hh & Hw & Hp & Hst & He).
  assert (react (EvPublish h m) s =
          (Ok tt, push (l_owner l) (VResult payload)
                    (rearm (l_owner l) (heartbeatIntervalMs sub) s))) as Hre.
  { simpl. by rewrite (deliver_accepted _ _ _ _ _ Hl Hv Hs), Ha. }
  assert (s' = push (l_owner l) (VResult payload)
                 (rearm (l_owner l) (heartbeatIntervalMs sub) s)) as Hs'.
  { unfold s', step. rewrite Hre. apply drain_nil. simpl. by destruct Hi. }
  split; [by rewrite Hre|].
  exists sub, (update_repeater (repeater_push (VResult payload)) sub).
  split; [done|]. rewrite Hs'. simpl. rewrite lookup_alter_eq, Hs. simpl.
  unfold repeater_push, is_stopped. rewrite Hst. done.
Qed.

Lemma next_message_appends_witness :
  let m := Sample.msg "a" "verifier-1" (Next {| data := Some "{foo:2}"; errors := None |}) in
  ∃ sub', subs (step (EvPublish 1 m) Sample.started) !! "a" = Some sub' ∧
          r_values (repeater sub') = [VResult {| data := Some "{foo:2}"; errors := None |}] ∧
          r_state (repeater sub') = Started.
Proof.
  intros m.
  destruct (next_message_appends Sample.started 1
              {| l_topic := "webhook:post:/callback/a"; l_owner := "a" |} m
              {| data := Some "{foo:2}"; errors := None |}
              reachable_started eq_refl eq_refl eq_refl)
    as (_ & sub & sub' & Hs & Hs' & Hv & Hst & _).
  exists sub'. split; [exact Hs'|]. split; [|exact Hst].
  rewrite Hv. assert (sub = {| heartbeatIntervalMs := 50000;
            subscriptionCallbackPath := "/callback/a";
            stopSubscription := StopWired; pushFn := PushWired;
            repeater := {| r_state := Started; r_err := None; r_values := [] |};
            subId := Some 1%positive |}) as ->; [|done].
  apply (inj Some). rewrite <- Hs. by vm_compute.
Defined.

Lemma Closed_on_json id err vs a resJson s :
  Closed id err vs s → Closed id err vs (on_json a resJson s).2.
Proof.
  apply (preserves_on_json (Closed id err vs) a).
  - intros. by apply Closed_stop.
  - intros. by apply Closed_push.
Qed.

Lemma Closed_call_stop id err vs a e s :
  Closed id err vs s → Closed id err vs (call_stopSubscription a e s).2.
Proof.
  apply (preserves_call_stopSubscription (Closed id err vs) a).
  intros. by apply Closed_stop.
Qed.

(** X3. A response of the initiating request with a failure status,
    arriving while the sequence is started and open, ends the
    sequence with the error [HTTP Error] carrying exactly that status,
    whatever the body is (errors, data, not JSON); data in the body is
    not pushed, and the chain does not reject. *)
Theorem failure_status_ends_with_http_error
    (s : Transport) (id : string) (sub : Subscription) (res : Response) :
  reachable s → subs s !! id = Some sub →
  stopSubscription sub = StopWired → r_state (repeater sub) = Started →
  res_ok res = false →
  let e := EvSettled id (FetchResponse res) in
  (react e s).1 = Ok tt ∧
  Closed id (Some (EGraphQL (http_error (res_status res)))) (r_values (repeater sub))
    (step e s) ∧
  ext_http_status (extensions (http_error (res_status res))) = Some (res_status res).
Proof.
  intros Hr Hs Hw Hst Hok e. pose proof (Inv_reachable _ Hr) as Hi.
  destruct (Inv_started _ _ _ Hi Hs Hw Hst) as (Hp & He & _).
  split; [apply Wired_on_settled; by exists sub|]. split; [|done].
  unfold step. apply Closed_subs with (s := (react e s).2); [apply subs_drain|].
  simpl. unfold on_settled, try_catch, on_response, mbind, M_bind. rewrite Hok.
  rewrite (call_stopSubscription_wired _ _ _ _ Hs Hw).
  pose proof (stop_Closed id (Some (EGraphQL (http_error (res_status res)))) s sub
                Hs Hst He) as H1.
  set (s1 := stop id _ s) in *.
  destruct (res_json res) as [resJson|].
  - pose proof (Closed_on_json id _ _ id resJson s1 H1) as H2.
    destruct (on_json id resJson s1) as [[[]|e0] s2]; simpl in *; [done|].
    by apply Closed_call_stop.
  - unfold throw. by apply Closed_call_stop.
Qed.

Lemma failure_status_ends_with_http_error_witness :
  let e := EvSettled "a" (Sample.response 503 (Some "{foo:1}") None) in
  Closed "a" (Some (EGraphQL (http_error 503))) [] (step e Sample.started).
Proof.
  intros e.
  exact (proj1 (proj2 (failure_status_ends_with_http_error Sample.started "a"
                  Closure.started
                  {| res_status := 503;
                     res_json := Some {| data := Some "{foo:1}"; errors := None |} |}
                  reachable_started eq_refl eq_refl eq_refl eq_refl))).
Defined.

(** X4. When the initiating request fails at the transport level (the
    [fetch] promise rejects) while the sequence is started and open,
    the sequence ends with that very error; when the response has a
    success status but its body cannot be read as JSON, the sequence
    ends with the error of [res.json()].  No value is added and the
    chain itself does not reject. *)
Theorem request_failure_ends_sequence
    (s : Transport) (id : string) (sub : Subscription) :
  reachable s → subs s !! id = Some sub →
  stopSubscription sub = StopWired → r_state (repeater sub) = Started →
  (∀ e0, (react (EvSettled id (FetchRejected e0)) s).1 = Ok tt ∧
         Closed id (Some e0) (r_values (repeater sub))
           (step (EvSettled id (FetchRejected e0)) s)) ∧
  (∀ res, res_ok res = true → res_json res = None →
     (react (EvSettled id (FetchResponse res)) s).1 = Ok tt ∧
     ∃ e0, Closed id (Some e0) (r_values (repeater sub))
             (step (EvSettled id (FetchResponse res)) s)).
Proof.
  intros Hr Hs Hw Hst. pose proof (Inv_reachable _ Hr) as Hi.
  destruct (Inv_started _ _ _ Hi Hs Hw Hst) as (Hp & He & _).
  assert (Wired id s) as HW by by exists sub.
  split.
  - intros e0. split; [by apply Wired_on_settled|].
    unfold step. eapply Closed_subs; [apply subs_drain|].
    simpl. unfold on_settled, try_catch, throw.
    rewrite (call_stopSubscription_wired _ _ _ _ Hs Hw). by apply stop_Closed.
  - intros res Hok Hj. split; [by apply Wired_on_settled|].
    exists (EPlain "SyntaxError: the body is not JSON").
    unfold step. eapply Closed_subs; [apply subs_drain|].
    simpl. unfold on_settled, try_catch, on_response, mbind, M_bind, throw.
    rewrite Hok, Hj. simpl.
    rewrite (call_stopSubscription_wired _ _ _ _ Hs Hw). by apply stop_Closed.
Qed.

Lemma request_failure_ends_sequence_witness :
  Closed "a" (Some (EPlain "ECONNREFUSED")) []
    (step (EvSettled "a" (FetchRejected (EPlain "ECONNREFUSED"))) Sample.started).
Proof.
  exact (proj2 (proj1 (request_failure_ends_sequence Sample.started "a" Closure.started
                  reachable_started eq_refl eq_refl eq_refl) (EPlain "ECONNREFUSED"))).
Defined.

(** X5. In every reachable state the handler given to the bus does
    not throw for a [check] or [complete] message, nor for a message
    with a wrong verifier, whatever handle it arrives on (a [next]
    message calls the repeater's [push], whose bound on pending
    values is not modelled); and for a subscription whose executor has
    run, neither the promise chain of the initiating request (whatever
    it settles to) nor the callback of its heartbeat timer throws. *)
Theorem started_subscription_never_throws (s : Transport) :
  reachable s →
  (∀ h m, (∀ payload, msg_action m ≠ Next payload) →
     (react (EvPublish h m) s).1 = Ok tt) ∧
  (∀ id sub r, subs s !! id = Some sub → stopSubscription sub = StopWired →
     (react (EvSettled id r) s).1 = Ok tt) ∧
  (∀ h t sub, timers s !! h = Some t → subs s !! t_owner t = Some sub →
     stopSubscription sub = StopWired → (react (EvTimer h) s).1 = Ok tt).
Proof.
  intros Hr. pose proof (Inv_reachable _ Hr) as Hi. split; [|split].
  - intros h m Hn. simpl. destruct (listeners s !! h) as [l|] eqn:Hl.
    + destruct (Inv_listener_started _ _ _ Hi Hl) as (sub & Hs & _ & Hw & _).
      destruct (decide (msg_verifier m = verifier s)) as [Hv|Hv].
      * rewrite (deliver_accepted s h l m sub Hl Hv Hs).
        set (s1 := rearm _ _ s). assert (subs s1 !! l_owner l = Some sub) as Hs1 by done.
        destruct (msg_action m) as [|payload|[errs|]] eqn:Hact; simpl.
        -- done.
        -- by destruct (Hn payload).
        -- by rewrite (call_stopSubscription_wired _ _ _ _ Hs1 Hw).
        -- by rewrite (call_stopSubscription_wired _ _ _ _ Hs1 Hw).
      * unfold deliver, mbind, M_bind, gets. rewrite Hl.
        unfold handler, mbind, M_bind, gets. by rewrite decide_True.
    + unfold deliver, mbind, M_bind, gets. by rewrite Hl.
  - intros id sub r Hs Hw. apply Wired_on_settled. exists sub.
    split; [done|]. split; [done|]. by destruct (Inv_wired _ _ _ Hi Hs Hw).
  - intros h t sub Ht Hs Hw. simpl. unfold timer_fire, mbind, M_bind, gets, modify.
    rewrite Ht. simpl.
    set (s1 := with_timers _ s). assert (subs s1 !! t_owner t = Some sub) as Hs1 by done.
    by rewrite (call_stopSubscription_wired _ _ _ _ Hs1 Hw).
Qed.

Lemma started_subscription_never_throws_witness :
  (react (EvPublish 1 (Sample.msg "a" "verifier-1" (Complete (Some [])))) Sample.two).1
  = Ok tt.
Proof.
  apply (proj1 (started_subscription_never_throws Sample.two reachable_two) 1%positive
           (Sample.msg "a" "verifier-1" (Complete (Some [])))).
  intros payload. discriminate.
Defined.

(** ** Before the first pull *)

Lemma Inv_unwired s id sub :
  Inv s → subs s !! id = Some sub → stopSubscription sub = StopPlaceholder →
  pushFn sub = PushPlaceholder ∧ subId sub = None ∧
  r_state (repeater sub) ≠ Started ∧ (id ∉ stopFnSet s) ∧ (id ∉ finalized s).
Proof.
  intros [H _] Hs Hw. pose proof (inv_sub _ _ H _ _ Hs) as Hok.
  unfold sub_ok in Hok. rewrite Hw in Hok. tauto.
Qed.

(** X6. As long as the executor of a subscription has not run (the
    consumer has not pulled), whatever the initiating request settles
    to leaves the whole state as it was: nothing is pushed, the
    sequence is not ended, the heartbeat stays armed.  The promise
    chain resolves exactly when the response is a plain acceptance (a
    success status and a JSON body with neither errors nor data) and
    rejects otherwise. *)
Theorem response_before_first_pull
    (s : Transport) (id : string) (sub : Subscription) (r : FetchResult) :
  reachable s → subs s !! id = Some sub → stopSubscription sub = StopPlaceholder →
  step (EvSettled id r) s = s ∧
  ((react (EvSettled id r) s).1 = Ok tt ↔ plain_acceptance r).
Proof.
  intros Hr Hs Hw. pose proof (Inv_reachable _ Hr) as Hi.
  destruct (Inv_unwired _ _ _ Hi Hs Hw) as (Hp & _).
  assert (∀ e, call_stopSubscription id (Some e) s = (Throw e, s)) as Hstop.
  { intros e. unfold call_stopSubscription, mbind, M_bind, closure. by rewrite Hs, Hw. }
  assert (∀ v, call_pushFn id v s = (Throw (EGraphQL not_configured), s)) as Hpush.
  { intros v. unfold call_pushFn, mbind, M_bind, closure. by rewrite Hs, Hp. }
  assert (∃ res, react (EvSettled id r) s = (res, s) ∧
                 (res = Ok tt ↔ plain_acceptance r)) as (res & Hre & Hiff).
  { simpl. unfold on_settled, try_catch. destruct r as [e|resp]; simpl.
    { unfold throw. rewrite Hstop. eexists. split; [done|]. split; [done|tauto]. }
    unfold on_response, mbind, M_bind. destruct (res_ok resp) eqn:Hok.
    - simpl. destruct (res_json resp) as [resJson|].
      + unfold on_json. destruct (errors resJson) as [errs|] eqn:Herr.
        { rewrite !Hstop. eexists. split; [done|]. split; [done|].
          intros (_ & rj & E & He & _). congruence. }
        destruct (data resJson) as [d|] eqn:Hd.
        * unfold mbind, M_bind. rewrite Hpush, Hstop. eexists. split; [done|].
          split; [done|]. intros (_ & rj & E & _ & Hd'). congruence.
        * eexists. split; [done|]. split; [|done]. intros _. split; [done|].
          by exists resJson.
      + unfold throw. rewrite Hstop. eexists. split; [done|]. split; [done|].
        intros (_ & rj & E & _). congruence.
    - rewrite !Hstop. eexists. split; [done|]. split; [done|].
      intros (? & _). congruence. }
  split; [|by rewrite Hre].
  unfold step. rewrite Hre. apply drain_nil. by destruct Hi.
Qed.

Lemma reachable_created : reachable Sample.created.
Proof.
  apply reachable_trace, trace_run. apply (bool_decide_unpack _). by vm_compute.
Qed.

Lemma response_before_first_pull_witness :
  step (EvSettled "a" (Sample.response 200 None (Some [Sample.err "boom"]))) Sample.created
  = Sample.created.
Proof.
  exact (proj1 (response_before_first_pull Sample.created "a" Closure.created
                  (Sample.response 200 None (Some [Sample.err "boom"]))
                  reachable_created eq_refl eq_refl)).
Defined.

(** X7. When the heartbeat timer of a subscription expires before the
    consumer's first pull, its callback throws the timeout error out
    of the timer task; the only change is that the timer is gone.  The
    [heartbeats] map still holds its handle, the sequence is still
    unstarted, and no live timer is left for the subscription. *)
Theorem expiry_before_first_pull
    (s : Transport) (h : positive) (t : Timer) (sub : Subscription) :
  reachable s → timers s !! h = Some t → subs s !! t_owner t = Some sub →
  stopSubscription sub = StopPlaceholder →
  let s' := step (EvTimer h) s in
  (react (EvTimer h) s).1 = Throw (EGraphQL createTimeoutError) ∧
  s' = with_timers (delete h) s ∧
  heartbeats s' !! t_owner t = Some h ∧
  (∀ h' t', timers s' !! h' = Some t' → t_owner t' ≠ t_owner t).
Proof.
  intros Hr Ht Hs Hw s'. pose proof (Inv_reachable _ Hr) as Hi.
  assert (react (EvTimer h) s = (Throw (EGraphQL createTimeoutError), with_timers (delete h) s))
    as Hre.
  { simpl. unfold timer_fire, mbind, M_bind, gets, modify. rewrite Ht. simpl.
    unfold call_stopSubscription, mbind, M_bind, closure. simpl. by rewrite Hs, Hw. }
  assert (s' = with_timers (delete h) s) as Hs'.
  { unfold s', step. rewrite Hre. apply drain_nil. simpl. by destruct Hi. }
  split; [by rewrite Hre|]. split; [done|]. rewrite Hs'. simpl.
  destruct Hi as [H _]. split; [by apply (inv_timer_owner _ _ H)|].
  intros h' t' Ht' Hown. destruct (decide (h' = h)) as [->|Hne].
  - by rewrite lookup_delete_eq in Ht'.
  - rewrite lookup_delete_ne in Ht' by done.
    by apply Hne, (GInv_one_timer _ _ _ _ _ _ H Ht' Ht).
Qed.

Lemma expiry_before_first_pull_witness :
  let s := run [EvTick 50000] Sample.created in
  (react (EvTimer 1) s).1 = Throw (EGraphQL createTimeoutError) ∧
  step (EvTimer 1) s = with_timers (delete 1%positive) s.
Proof.
  intros s.
  assert (reachable s) as Hr.
  { apply (reachable_trans Sample.created [EvTick 50000]); [apply reachable_created|].
    apply trace_run. apply (bool_decide_unpack _). by vm_compute. }
  destruct (expiry_before_first_pull s 1 {| t_owner := "a"; t_deadline := 50000 |}
              Closure.created
              Hr eq_refl eq_refl eq_refl) as (H1 & H2 & _).
  split; [exact H1|exact H2].
Defined.

(** ** The registries *)

(** X8. Between two tasks the three registries agree: a stop function
    is in [stopFnSet] exactly when its subscription has been started
    and its sequence is open, and exactly when a listener of that
    subscription is registered on the bus.  A subscription never has
    two listeners, and a registered listener's handle has not been
    unsubscribed. *)
Theorem registries_agree (s : Transport) :
  reachable s →
  (∀ id, id ∈ stopFnSet s ↔
         ∃ sub, subs s !! id = Some sub ∧ stopSubscription sub = StopWired ∧
                r_state (repeater sub) = Started) ∧
  (∀ id, id ∈ stopFnSet s ↔ ∃ h l, listeners s !! h = Some l ∧ l_owner l = id) ∧
  (∀ h1 h2 l1 l2, listeners s !! h1 = Some l1 → listeners s !! h2 = Some l2 →
                  l_owner l1 = l_owner l2 → h1 = h2) ∧
  (∀ h, is_Some (listeners s !! h) → h ∉ unsubscribed s).
Proof.
  intros Hr. pose proof (Inv_reachable _ Hr) as Hi.
  assert (∀ id, id ∈ stopFnSet s ↔
            ∃ sub, subs s !! id = Some sub ∧ stopSubscription sub = StopWired ∧
                   r_state (repeater sub) = Started) as Hset.
  { intros id. split.
    - intros Hin. destruct (Inv_in_stopFnSet _ _ Hi Hin) as (sub & ? & ? & ? & _).
      by exists sub.
    - intros (sub & Hs & Hw & Hst).
      destruct (Inv_started _ _ _ Hi Hs Hw Hst) as (_ & _ & h & _ & Hreg).
      by destruct Hreg as (_ & ? & _). }
  split; [done|]. split; [|split].
  - intros id. split.
    + intros (sub & Hs & Hw & Hst)%Hset.
      destruct (Inv_started _ _ _ Hi Hs Hw Hst) as (_ & _ & h & _ & Hreg).
      destruct Hreg as ((l & ? & ?) & _). by exists h, l.
    + intros (h & l & Hl & <-). apply Hset.
      destruct (Inv_listener_started _ _ _ Hi Hl) as (sub & ? & _ & ? & _ & ? & _).
      by exists sub.
  - intros h1 h2 l1 l2 Hl1 Hl2 Hown. destruct Hi as [H _].
    destruct (inv_listener _ _ H _ _ Hl1) as (sub1 & Hs1 & Hh1).
    destruct (inv_listener _ _ H _ _ Hl2) as (sub2 & Hs2 & Hh2).
    rewrite Hown in Hs1. congruence.
  - intros h [l Hl].
    destruct (Inv_listener_started _ _ _ Hi Hl) as (sub & Hs & Hh & Hw & _ & Hst & _).
    destruct (Inv_started _ _ _ Hi Hs Hw Hst) as (_ & _ & h' & Hh' & Hreg).
    assert (h' = h) as -> by congruence. by destruct Hreg as (_ & _ & _ & ?).
Qed.

Lemma registries_agree_witness :
  ∃ h l, listeners Sample.two !! h = Some l ∧ l_owner l = "b".
Proof.
  apply (proj1 (proj1 (proj2 (registries_agree Sample.two reachable_two)) "b")).
  apply (bool_decide_unpack _). by vm_compute.
Defined.

(** ** Disposal is not final *)

Lemma foldl_stop_other ids id s :
  id ∉ ids → subs (foldl (λ s a, stop a None s) s ids) !! id = subs s !! id.
Proof.
  revert s. induction ids as [|a ids IH]; intros s Hn; [done|].
  apply not_elem_of_cons in Hn as [Hne Hn]. simpl.
  rewrite IH by done. by apply stop_other.
Qed.

Lemma timers_dispose_empty s : Inv s → timers (step EvDispose s) = ∅.
Proof.
  intros [H _]. unfold step, drain. apply timers_run_microtasks_empty.
  simpl. unfold asyncDispose, mbind, M_bind, gets, modify. simpl.
  set (s1 := foldl (λ s id, stop id None s) s (stopFnSet s)).
  destruct (foldl_stop_frame (stopFnSet s) s) as (Hb1 & Ht1 & _). fold s1 in Hb1, Ht1.
  apply map_eq. intros h. rewrite lookup_empty, foldl_clearTimeout_lookup.
  destruct (decide _) as [|Hn]; [done|].
  destruct (timers s1 !! h) as [t|] eqn:Ht; [|done]. exfalso. apply Hn.
  rewrite Ht1 in Ht. apply (inv_timer_owner _ _ H) in Ht.
  rewrite Hb1. apply list_elem_of_fmap. exists (t_owner t, h).
  split; [done|]. by apply elem_of_map_to_list.
Qed.

(** X9. A subscription that was created before the transport was
    disposed and is pulled for the first time afterwards is started
    all the same: its executor registers its stop function and its
    listener; but disposal cleared its heartbeat timer and the
    executor arms none, so it is started with no live timer and no
    timer can fire. *)
Theorem pull_after_dispose_has_no_heartbeat
    (s : Transport) (id : string) (sub : Subscription) :
  reachable s → subs s !! id = Some sub → r_state (repeater sub) = Initial →
  let s' := step (EvNext id) (step EvDispose s) in
  (∃ sub', subs s' !! id = Some sub' ∧ stopSubscription sub' = StopWired ∧
           r_state (repeater sub') = Started) ∧
  id ∈ stopFnSet s' ∧
  (∃ h l, listeners s' !! h = Some l ∧ l_owner l = id) ∧
  timers s' = ∅.
Proof.
  intros Hr Hs Hst s'. pose proof (Inv_reachable _ Hr) as Hi.
  set (s1 := step EvDispose s) in *.
  assert (Inv s1) as Hi1 by by apply Inv_step.
  assert (subs s1 !! id = Some sub) as Hs1.
  { destruct Hi as [H _].
    destruct (sub_ok_initial _ _ _ _ (inv_sub _ _ H _ _ Hs) Hst) as (_ & _ & _ & Hn & _).
    unfold s1, step. rewrite subs_drain. simpl.
    unfold asyncDispose, mbind, M_bind, gets, modify. simpl.
    destruct (foldl_clearTimeout_frame
                (map_to_list (heartbeats (foldl (λ s id, stop id None s) s (stopFnSet s)))).*2
                (foldl (λ s id, stop id None s) s (stopFnSet s))) as (-> & _).
    by rewrite foldl_stop_other. }
  assert (s' = run_executor id sub s1) as Hs'.
  { unfold s', step. simpl. unfold repeater_next, mbind, M_bind, closure.
    rewrite Hs1, decide_True by done. apply drain_nil. simpl. by destruct Hi1. }
  rewrite Hs'. simpl. rewrite lookup_insert_eq. split; [by eexists|].
  split; [apply elem_of_set_add; by left|]. split.
  - exists (next_listener s1). eexists. by rewrite lookup_insert_eq.
  - by apply timers_dispose_empty.
Qed.

Lemma pull_after_dispose_has_no_heartbeat_witness :
  timers (step (EvNext "a") (step EvDispose Sample.created)) = ∅ ∧
  "a" ∈ stopFnSet (step (EvNext "a") (step EvDispose Sample.created)).
Proof.
  destruct (pull_after_dispose_has_no_heartbeat Sample.created "a" Closure.created
              reachable_created eq_refl eq_refl) as (_ & Hin & _ & Ht).
  split; [exact Ht|exact Hin].
Defined.

(** ** Routing *)

Lemma string_app_inj_r (p a b : string) : (p ++ a = p ++ b)%string → a = b.
Proof. induction p as [|c p IH]; simpl; [done|]. intros [= ?]. by apply IH. Qed.

Lemma callback_topic_inj te id1 id2 :
  callback_topic te id1 = callback_topic te id2 → id1 = id2.
Proof.
  unfold callback_topic. intros H.
  by repeat apply string_app_inj_r in H.
Qed.

Lemma entry_stop a e s : entry (stop a e s) = entry s.
Proof. unfold stop. by destruct (subs s !! a). Qed.

Lemma listeners_stop a e s : listeners (stop a e s) = listeners s.
Proof. unfold stop. by destruct (subs s !! a). Qed.

Lemma alter_fields (m : gmap string Subscription) a f id sub :
  alter (update_repeater f) a m !! id = Some sub →
  ∃ sub0, m !! id = Some sub0 ∧
          subscriptionCallbackPath sub = subscriptionCallbackPath sub0 ∧
          heartbeatIntervalMs sub = heartbeatIntervalMs sub0.
Proof.
  destruct (decide (a = id)) as [->|Hne].
  - rewrite lookup_alter_eq. destruct (m !! id) as [sub0|]; [|done].
    intros [= <-]. by exists sub0.
  - rewrite lookup_alter_ne by done. intros. by exists sub.
Qed.

Lemma stop_fields a e s id sub :
  subs (stop a e s) !! id = Some sub →
  ∃ sub0, subs s !! id = Some sub0 ∧
          subscriptionCallbackPath sub = subscriptionCallbackPath sub0 ∧
          heartbeatIntervalMs sub = heartbeatIntervalMs sub0.
Proof.
  unfold stop. destruct (subs s !! a) as [suba|]; [|intros; by exists sub].
  simpl. by apply alter_fields.
Qed.

Lemma Routed_frame s s' :
  entry s' = entry s → subs s' = subs s → listeners s' = listeners s →
  Routed s → Routed s'.
Proof. intros E1 E2 E3. unfold Routed. by rewrite E1, E2, E3. Qed.

Lemma Routed_alter a f s :
  Routed s → Routed (with_subs (alter (update_repeater f) a) s).
Proof.
  intros [H1 H2]. split; [|done]. simpl. intros id sub Hs.
  destruct (alter_fields _ _ _ _ _ Hs) as (sub0 & Hs0 & -> & _).
  by apply H1.
Qed.

Lemma Routed_stop a e s : Routed s → Routed (stop a e s).
Proof.
  intros [H1 H2]. split.
  - rewrite entry_stop. intros id sub Hs.
    destruct (stop_fields _ _ _ _ _ Hs) as (sub0 & Hs0 & -> & _). by apply H1.
  - by rewrite entry_stop, listeners_stop.
Qed.

Lemma Routed_cleanup a s : Routed s → Routed (cleanup a s).
Proof.
  intros [H1 H2]. unfold cleanup. split.
  - destruct (subs s !! a ≫= subId); simpl; exact H1.
  - destruct (subs s !! a ≫= subId) as [h|]; simpl; [|exact H2].
    intros h' l Hl. apply lookup_delete_Some in Hl as [_ Hl]. by apply (H2 h').
Qed.

Lemma Routed_trace s evs s' : trace s evs s' → Routed s → Routed s'.
Proof.
  apply (kept_trace Routed).
  - intros a rq s0 Hs0 [H1 H2].
    unfold httpCallbackExecutor, mbind, M_bind, gets, modify. simpl.
    destruct (options (entry s0)) as [opts|] eqn:Ho; [|done]. simpl.
    split; [|done]. simpl. intros id sub.
    destruct (decide (a = id)) as [->|Hne].
    + rewrite lookup_insert_eq. intros [= <-]. simpl.
      unfold callbackPath. by rewrite Ho.
    + rewrite lookup_insert_ne by done. apply H1.
  - intros a sub s0 Hs0 Hi [H1 H2]. split; simpl.
    + intros id sub'. destruct (decide (a = id)) as [->|Hne].
      * rewrite lookup_insert_eq. intros [= <-]. simpl. by apply H1.
      * rewrite lookup_insert_ne by done. apply H1.
    + intros h l. destruct (decide (next_listener s0 = h)) as [->|Hne].
      * rewrite lookup_insert_eq. intros [= <-]. simpl.
        unfold callback_topic. by rewrite (H1 _ _ Hs0).
      * rewrite lookup_insert_ne by done. apply H2.
  - intros. by apply Routed_stop.
  - intros. by apply Routed_alter.
  - intros. by apply Routed_alter.
  - intros a sub s0 _. by apply Routed_frame.
  - intros h s0. by apply Routed_frame.
  - intros f s0. by apply Routed_frame.
  - intros. by apply Routed_cleanup.
  - intros s0. by apply Routed_frame.
Qed.

(** X10. Every listener on the bus is registered under the topic
    [webhook:post:] followed by the configured callback path ([path],
    or [/callback] when it is absent or empty), a slash and the id of
    its subscription; [public_url] plays no part in it.  Hence two
    registered listeners with the same topic are the same listener: a
    message published on the topic of one subscription reaches no
    other. *)
Theorem listeners_have_their_own_topic (s : Transport) :
  reachable s →
  (∀ h l, listeners s !! h = Some l →
     l_topic l = ("webhook:post:" ++ string_or (options (entry s) ≫= path) "/callback"
                    ++ "/" ++ l_owner l)%string) ∧
  (∀ h1 h2 l1 l2, listeners s !! h1 = Some l1 → listeners s !! h2 = Some l2 →
                  l_topic l1 = l_topic l2 → h1 = h2).
Proof.
  intros Hr. pose proof (Inv_reachable _ Hr) as [H _].
  destruct Hr as (te & hs & uuid & t0 & evs & Htr).
  assert (Routed s) as [H1 H2].
  { apply (Routed_trace _ _ _ Htr). split; simpl; intros ? ?; by rewrite lookup_empty. }
  split; [exact H2|].
  intros h1 h2 l1 l2 Hl1 Hl2 Ht.
  rewrite (H2 _ _ Hl1), (H2 _ _ Hl2) in Ht. apply callback_topic_inj in Ht.
  destruct (inv_listener _ _ H _ _ Hl1) as (sub1 & Hs1 & Hh1).
  destruct (inv_listener _ _ H _ _ Hl2) as (sub2 & Hs2 & Hh2).
  rewrite Ht in Hs1. congruence.
Qed.

Lemma listeners_have_their_own_topic_witness :
  l_topic {| l_topic := "webhook:post:/callback/b"; l_owner := "b" |} =
  ("webhook:post:" ++ string_or (options (entry Sample.two) ≫= path) "/callback"
     ++ "/" ++ "b")%string.
Proof.
  exact (proj1 (listeners_have_their_own_topic Sample.two reachable_two) 2%positive
           {| l_topic := "webhook:post:/callback/b"; l_owner := "b" |} eq_refl).
Defined.

(** ** The requests sent *)

Lemma size_alter (m : gmap string Subscription) f a : size (alter f a m) = size m.
Proof.
  destruct (m !! a) as [x|] eqn:Hx.
  - assert (alter f a m = <[a := f x]> m) as ->.
    { apply map_eq. intros i. destruct (decide (a = i)) as [->|Hne].
      - by rewrite lookup_alter_eq, lookup_insert_eq, Hx.
      - by rewrite lookup_alter_ne, lookup_insert_ne. }
    by apply map_size_insert_Some.
  - assert (alter f a m = m) as ->; [|done].
    apply map_eq. intros i. destruct (decide (a = i)) as [->|Hne].
    + by rewrite lookup_alter_eq, Hx.
    + by rewrite lookup_alter_ne.
Qed.

Lemma Announced_frame s s' :
  entry s' = entry s → verifier s' = verifier s → subs s' = subs s →
  requests s' = requests s → Announced s → Announced s'.
Proof. intros E1 E2 E3 E4. unfold Announced. by rewrite E1, E2, E3, E4. Qed.

Lemma Announced_alter a f s :
  Announced s → Announced (with_subs (alter (update_repeater f) a) s).
Proof.
  intros (H1 & H2 & H3). split; [|split]; simpl.
  - intros id sub Hs.
    destruct (alter_fields _ _ _ _ _ Hs) as (sub0 & Hs0 & _ & ->). by apply H1.
  - intros rq Hin. destruct (H2 rq Hin) as (? & ? & ?).
    split; [done|]. split; [done|]. by apply lookup_alter_is_Some.
  - by rewrite size_alter.
Qed.

Lemma Announced_stop a e s : Announced s → Announced (stop a e s).
Proof.
  intros H. unfold stop. destruct (subs s !! a); [|done].
  eapply Announced_frame; [..|by apply (Announced_alter a)]; done.
Qed.

Lemma Announced_trace s evs s' : trace s evs s' → Announced s → Announced s'.
Proof.
  apply (kept_trace Announced).
  - intros a rq s0 Hs0 (H1 & H2 & H3).
    unfold httpCallbackExecutor, mbind, M_bind, gets, modify. simpl.
    destruct (options (entry s0)) as [opts|] eqn:Ho; [|done]. simpl.
    split; [|split]; simpl.
    + intros id sub. destruct (decide (a = id)) as [->|Hne].
      * rewrite lookup_insert_eq. intros [= <-]. eexists.
        split; [apply elem_of_app; right; by apply list_elem_of_singleton|done].
      * rewrite lookup_insert_ne by done. intros Hs.
        destruct (H1 _ _ Hs) as (rq0 & ? & ?). exists rq0. split; [|done].
        apply elem_of_app. by left.
    + intros rq0 [Hin|E]%elem_of_app;
        [|apply list_elem_of_singleton in E; subst rq0].
      * destruct (H2 rq0 Hin) as (? & ? & ?). split; [done|]. split; [done|].
        apply lookup_insert_is_Some'. by right.
      * simpl. split; [done|]. split; [done|]. by rewrite lookup_insert_eq.
    + rewrite length_app, map_size_insert_None by done. simpl. lia.
  - intros a sub s0 Hs0 Hi (H1 & H2 & H3). split; [|split]; simpl.
    + intros id sub'. destruct (decide (a = id)) as [->|Hne].
      * rewrite lookup_insert_eq. intros [= <-]. simpl. by apply H1.
      * rewrite lookup_insert_ne by done. apply H1.
    + intros rq0 Hin. destruct (H2 rq0 Hin) as (? & ? & ?). split; [done|].
      split; [done|]. apply lookup_insert_is_Some'. by right.
    + by rewrite map_size_insert_Some.
  - intros. by apply Announced_stop.
  - intros. by apply Announced_alter.
  - intros. by apply Announced_alter.
  - intros a sub s0 _. by apply Announced_frame.
  - intros h s0. by apply Announced_frame.
  - intros f s0. by apply Announced_frame.
  - intros a s0. apply Announced_frame; unfold cleanup;
      by destruct (subs s0 !! a ≫= subId).
  - intros s0. by apply Announced_frame.
Qed.

(** X11. The log of initiating requests and the subscriptions
    correspond one to one: exactly one request was sent per
    subscription created; the request of a subscription announces, in
    [extensions.subscription], the id of that subscription and the
    heartbeat interval its closure enforces; and every request carries
    the verifier of the instance (the one the handler checks messages
    against) and goes to the configured location. *)
Theorem requests_announce_subscriptions (s : Transport) :
  reachable s →
  (∀ id sub, subs s !! id = Some sub →
     ∃ rq, rq ∈ requests s ∧
           subscriptionId (fetch_subscription rq) = id ∧
           ext_heartbeatIntervalMs (fetch_subscription rq) = heartbeatIntervalMs sub) ∧
  (∀ rq, rq ∈ requests s →
     ext_verifier (fetch_subscription rq) = verifier s ∧
     fetch_url rq = location (entry s) ∧
     is_Some (subs s !! subscriptionId (fetch_subscription rq))) ∧
  length (requests s) = size (subs s).
Proof.
  intros (te & hs & uuid & t0 & evs & Htr).
  apply (Announced_trace _ _ _ Htr). split; [|split]; simpl.
  - intros ? ?. by rewrite lookup_empty.
  - by intros ? ?%elem_of_nil.
  - done.
Qed.

Lemma requests_announce_subscriptions_witness :
  length (requests Sample.two) = size (subs Sample.two).
Proof.
  exact (proj2 (proj2 (requests_announce_subscriptions Sample.two reachable_two))).
Defined.

(** ** Subscriptions do not interfere *)

Lemma closure_untouched_react s id hl h d e X :
  Inv s → Armed id hl h d s → enabled e s → quiet id hl (verifier s) e →
  e ≠ EvTimer h → subs s !! id = X → subs (react e s).2 !! id = X.
Proof.
  intros Hi Ha Hen Hq Hne HX. pose proof Hi as [H _].
  pose proof Ha as ((sub & Hs & Hw & Hst & Hh) & Hb & Ht).
  assert (∀ a, a ≠ id → ∀ e0 s0, subs s0 !! id = X → subs (stop a e0 s0) !! id = X)
    as Hstop by (intros a Ha' e0 s0 <-; by apply stop_other).
  assert (∀ a, a ≠ id → ∀ v s0, subs s0 !! id = X → subs (push a v s0) !! id = X)
    as Hpush by (intros a Ha' v s0 <-; simpl; by rewrite lookup_alter_ne).
  destruct e as [a rq|a|a|a r|h' m|h'| |dt]; simpl in *.
  - unfold httpCallbackExecutor, mbind, M_bind, gets, modify. simpl.
    destruct (options (entry s)); [|done]. simpl.
    rewrite lookup_insert_ne; [done|]. intros ->. congruence.
  - unfold repeater_next, mbind, M_bind, closure.
    destruct (subs s !! a) as [sub'|] eqn:Hs'; [|done].
    destruct (decide _) as [Hinit|]; [|done]. simpl.
    rewrite lookup_insert_ne; [done|]. intros ->. congruence.
  - unfold repeater_return, mbind, M_bind, closure, modify.
    destruct (subs s !! a) as [sub'|] eqn:Hs'; [|done].
    destruct (decide _); [done|]. simpl.
    rewrite lookup_alter_ne by done. by apply Hstop.
  - destruct Hq as [Hq|Hq].
    + by apply (preserves_on_settled (λ s0, subs s0 !! id = X) a (Hstop a Hq) (Hpush a Hq)).
    + destruct r as [?|res]; [done|]. destruct Hq as (Hok & rj & Hj & He & Hd).
      unfold on_settled, try_catch, on_response, on_json, mbind, M_bind.
      by rewrite Hok, Hj, He, Hd.
  - unfold deliver, mbind, M_bind, gets.
    destruct (listeners s !! h') as [l|] eqn:Hl; [|done].
    unfold handler, mbind, M_bind, gets, closure, modify.
    destruct (decide _) as [|Hv]; [done|].
    assert (l_owner l ≠ id) as Hown.
    { intros Hown. destruct Hq as [Hq|Hq]; [|by apply Hv; intros ?; apply Hq].
      destruct (inv_listener _ _ H _ _ Hl) as (sub' & Hs' & Hh').
      rewrite Hown in Hs'. congruence. }
    destruct (subs s !! l_owner l) as [sub'|]; [|done].
    by apply (preserves_dispatch (λ s0, subs s0 !! id = X) _
                (Hstop _ Hown) (Hpush _ Hown)).
  - unfold timer_fire, mbind, M_bind, gets, modify.
    destruct (timers s !! h') as [t|] eqn:Ht'; [|done].
    assert (t_owner t ≠ id) as Hown.
    { intros Hown. apply Hne. f_equal.
      pose proof (inv_timer_owner _ _ H _ _ Ht') as Hb'. rewrite Hown in Hb'. congruence. }
    by apply (preserves_call_stopSubscription (λ s0, subs s0 !! id = X) _ (Hstop _ Hown)).
  - done.
  - done.
Qed.

(** X12. Subscriptions do not interfere with one another.  Take a
    started, open subscription with its heartbeat timer armed.  Any
    task that is not aimed at it (a message on another listener or
    with a wrong verifier, the creation, first pull, cancellation,
    response or timer of another subscription, a further pull of its
    own, a plain acceptance of its own request, the clock moving on)
    leaves its closure exactly as it was, values and state included,
    and its heartbeat timer armed with the same deadline. *)
Theorem other_subscriptions_do_not_interfere
    (s : Transport) (id : string) (hl h : positive) (d : Z) (e : Event) :
  reachable s → Armed id hl h d s → enabled e s →
  quiet id hl (verifier s) e → e ≠ EvTimer h →
  subs (step e s) !! id = subs s !! id ∧ Armed id hl h d (step e s).
Proof.
  intros Hr Ha Hen Hq Hne. pose proof (Inv_reachable _ Hr) as Hi.
  split; [|by apply Armed_step].
  unfold step. rewrite subs_drain. by eapply closure_untouched_react.
Qed.

Lemma other_subscriptions_do_not_interfere_witness :
  let e := EvPublish 2 (Sample.msg "b" "verifier-1" (Complete None)) in
  subs (step e Sample.two) !! "a" = subs Sample.two !! "a" ∧
  Armed "a" 1 1 50000 (step e Sample.two).
Proof.
  intros e.
  apply (other_subscriptions_do_not_interfere Sample.two "a" 1 1 50000 e reachable_two).
  - split; [|split; reflexivity].
    exists {| heartbeatIntervalMs := 50000;
              subscriptionCallbackPath := "/callback/a";
              stopSubscription := StopWired; pushFn := PushWired;
              repeater := {| r_state := Started; r_err := None; r_values := [] |};
              subId := Some 1%positive |}.
    repeat split.
  - exact I.
  - left. discriminate.
  - discriminate.
Defined.

(** ** Cancelling before the first pull *)

Lemma Unstarted_trace id s evs s' :
  trace s evs s' →
  (∃ sub, subs s !! id = Some sub ∧ stopSubscription sub = StopPlaceholder ∧
          r_state (repeater sub) = Done) →
  ∃ sub, subs s' !! id = Some sub ∧ stopSubscription sub = StopPlaceholder ∧
         r_state (repeater sub) = Done.
Proof.
  set (P := λ s0 : Transport,
         ∃ sub, subs s0 !! id = Some sub ∧ stopSubscription sub = StopPlaceholder ∧
                r_state (repeater sub) = Done).
  assert (∀ a f s0,
            (∀ r, r_state r = Done → r_state (f r) = Done) →
            P s0 → P (with_subs (alter (update_repeater f) a) s0)) as Halter.
  { intros a f s0 Hf (sub & Hs & Hw & Hst). destruct (decide (a = id)) as [->|Hne].
    - exists (update_repeater f sub). simpl. rewrite lookup_alter_eq, Hs.
      repeat split; try done. simpl. by apply Hf.
    - exists sub. simpl. by rewrite lookup_alter_ne. }
  assert (∀ s0 s1, subs s1 = subs s0 → P s0 → P s1) as Hframe.
  { intros s0 s1 E. unfold P. by rewrite E. }
  apply (kept_trace P).
  - intros a rq s0 Hs0 (sub & Hs & Hrest).
    unfold httpCallbackExecutor, mbind, M_bind, gets, modify. simpl.
    destruct (options (entry s0)); [|by exists sub]. simpl.
    exists sub. simpl. rewrite lookup_insert_ne; [done|]. intros ->. congruence.
  - intros a sub0 s0 Hs0 Hinit (sub & Hs & Hw & Hst).
    exists sub. simpl. rewrite lookup_insert_ne; [done|]. intros ->. congruence.
  - intros a e s0 HP. unfold stop. destruct (subs s0 !! a); [|done].
    eapply Hframe; [|apply (Halter a); [|exact HP]]; [done|].
    intros r Hr. unfold repeater_stop, is_stopped. by rewrite Hr.
  - intros a v s0. apply Halter. intros r Hr. unfold repeater_push, is_stopped.
    by rewrite Hr.
  - intros a s0. by apply Halter.
  - intros a sub s0 _. by apply Hframe.
  - intros h s0. by apply Hframe.
  - intros f s0. by apply Hframe.
  - intros a s0. apply Hframe, subs_cleanup.
  - intros s0. by apply Hframe.
Qed.

(** X13. A consumer that cancels a subscription it never pulled
    changes nothing but the state of the repeater: no cleanup runs,
    and the heartbeat entry and its live timer stay as they were.
    From then on the executor of that subscription never runs: in
    every later state its closure still holds the placeholders, no
    listener and no stop function is registered for it, and its
    cleanup has still not run. *)
Theorem cancel_before_first_pull
    (s : Transport) (id : string) (sub : Subscription) :
  reachable s → subs s !! id = Some sub → r_state (repeater sub) = Initial →
  let s' := step (EvReturn id) s in
  s' = with_subs (alter (update_repeater mark_done) id) (stop id None s) ∧
  heartbeats s' = heartbeats s ∧ timers s' = timers s ∧ finalized s' = finalized s ∧
  (∀ evs s'', trace s' evs s'' →
     (∃ sub'', subs s'' !! id = Some sub'' ∧ stopSubscription sub'' = StopPlaceholder ∧
               pushFn sub'' = PushPlaceholder ∧ r_state (repeater sub'') = Done) ∧
     (id ∉ stopFnSet s'') ∧ (id ∉ finalized s'') ∧
     (∀ h l, listeners s'' !! h = Some l → l_owner l ≠ id)).
Proof.
  intros Hr Hs Hst s'. pose proof (Inv_reachable _ Hr) as Hi. pose proof Hi as [H Hm].
  destruct (sub_ok_initial _ _ _ _ (inv_sub _ _ H _ _ Hs) Hst) as (Hw & Hp & _).
  assert (microtasks (stop id None s) = []) as Hq.
  { unfold stop. rewrite Hs. simpl. unfold repeater_stop, is_stopped. rewrite Hst.
    simpl. by rewrite Hm. }
  assert (s' = with_subs (alter (update_repeater mark_done) id) (stop id None s)) as Hs'.
  { unfold s', step. simpl. unfold repeater_return, mbind, M_bind, closure, modify.
    rewrite Hs. rewrite decide_False by congruence. simpl. by apply drain_nil. }
  split; [done|].
  assert (heartbeats s' = heartbeats s ∧ timers s' = timers s ∧
          finalized s' = finalized s) as (? & ? & ?).
  { rewrite Hs'. simpl. unfold stop. by rewrite Hs. }
  split; [done|]. split; [done|]. split; [done|].
  intros evs s'' Htr.
  assert (reachable s') as Hr' by by apply reachable_step.
  pose proof (Inv_reachable _ (reachable_trans _ _ _ Hr' Htr)) as Hi''.
  destruct (Unstarted_trace id s' evs s'' Htr) as (sub'' & Hs'' & Hw'' & Hst'').
  { rewrite Hs'. simpl. rewrite lookup_alter_eq, (stop_lookup _ _ _ _ Hs). simpl.
    eexists. split; [done|]. by split. }
  destruct (Inv_unwired _ _ _ Hi'' Hs'' Hw'') as (Hp'' & Hh'' & _ & Hn1 & Hn2).
  split; [by exists sub''|]. split; [done|]. split; [done|].
  intros h l Hl Hown. destruct Hi'' as [H'' _].
  destruct (inv_listener _ _ H'' _ _ Hl) as (sub1 & Hs1 & Hh1).
  rewrite Hown in Hs1. congruence.
Qed.

Lemma cancel_before_first_pull_witness :
  timers (step (EvReturn "a") Sample.created) = timers Sample.created ∧
  heartbeats (step (EvReturn "a") Sample.created) = heartbeats Sample.created.
Proof.
  destruct (cancel_before_first_pull Sample.created "a" Closure.created
              reachable_created eq_refl eq_refl) as (_ & Hb & Ht & _).
  split; [exact Ht|exact Hb].
Defined.

(** * Properties of the serve handler *)

Lemma Lazy_init : GraphqlHandler.Lazy GraphqlHandler.init.
Proof.
  split; simpl; try done.
  - by intros ? ? ?%elem_of_nil.
  - by intros ? ? ?%elem_of_nil.
Qed.

Lemma Lazy_step o ev s :
  GraphqlHandler.Lazy s → GraphqlHandler.Lazy (GraphqlHandler.step o ev s).
Proof.
  intros [H1 H2 H3 H4 H5].
  assert (∀ y, GraphqlHandler.yoga_p s = Some (GraphqlHandler.Fulfilled y) →
               GraphqlHandler.yoga s = Some y) as H3a by (intros y; apply H3).
  assert (∀ y, GraphqlHandler.yoga s = Some y →
               GraphqlHandler.yoga_p s = Some (GraphqlHandler.Fulfilled y)) as H3b
    by (intros y; apply H3).
  clear H3.
  destruct s as [y p nb nc hd rj]. simpl in *.
  destruct ev as [r|mesh|e]; simpl.
  - unfold GraphqlHandler.handle, GraphqlHandler.then_handle. simpl.
    destruct y as [y|]; simpl.
    { split; simpl; [done|done| | |done].
      - intros y'. split; [apply H3b|apply H3a].
      - intros r' y' [Hin|Hin%list_elem_of_singleton]%elem_of_app;
          [by eapply H4|congruence]. }
    destruct p as [[w|y|e]|]; simpl.
    + split; simpl; [done|done| |done| ].
      * intros y. split; intros; discriminate.
      * intros r' e' Hin. specialize (H5 _ _ Hin). discriminate.
    + specialize (H3a y eq_refl). discriminate.
    + split; simpl; [done|done| |done| ].
      * intros y. split; intros; discriminate.
      * intros r' e' [Hin|Hin%list_elem_of_singleton]%elem_of_app;
          [by eapply H5|congruence].
    + split; simpl; [by rewrite H1|done| |done| ].
      * intros y. split; intros; discriminate.
      * intros r' e' Hin. specialize (H5 _ _ Hin). discriminate.
  - unfold GraphqlHandler.mesh_built. simpl.
    destruct p as [[w|y'|e]|]; simpl;
      try (split; simpl; [done|done| |done|done]; intros y0; by split; auto).
    assert (y = None) as ->.
    { destruct y as [y|]; [|done]. specialize (H3b y eq_refl). discriminate. }
    split; simpl; [done|by rewrite H2| | | ].
    + intros y. split; intros; congruence.
    + intros r y [Hin|Hin]%elem_of_app.
      * specialize (H4 _ _ Hin). congruence.
      * apply list_elem_of_fmap in Hin as (? & ? & _). congruence.
    + intros r e Hin. specialize (H5 _ _ Hin). discriminate.
  - unfold GraphqlHandler.mesh_failed. simpl.
    destruct p as [[w|y'|e']|]; simpl;
      try (split; simpl; [done|done| |done|done]; intros y0; by split; auto).
    split; simpl; [done|done| |done| ].
    + intros y0. split; [|discriminate]. intros Hy. specialize (H3b _ Hy). discriminate.
    + intros r e0 Hin. apply elem_of_app in Hin as [Hin|Hin].
      * specialize (H5 _ _ Hin). discriminate.
      * apply list_elem_of_fmap in Hin as (? & ? & _). congruence.
Qed.

Lemma Lazy_run o evs s :
  GraphqlHandler.Lazy s → GraphqlHandler.Lazy (GraphqlHandler.run o evs s).
Proof.
  revert s. induction evs as [|ev evs IH]; intros s H; [done|].
  simpl. by apply IH, Lazy_step.
Qed.

Lemma run_snoc o evs ev s :
  GraphqlHandler.run o (evs ++ [ev]) s =
  GraphqlHandler.step o ev (GraphqlHandler.run o evs s).
Proof. unfold GraphqlHandler.run. by rewrite foldl_app. Qed.

Lemma requests_of_snoc evs ev :
  GraphqlHandler.requests_of (evs ++ [ev]) =
  GraphqlHandler.requests_of evs ++
  match ev with GraphqlHandler.Request r => [r] | _ => [] end.
Proof.
  unfold GraphqlHandler.requests_of. rewrite omap_app. by destruct ev.
Qed.

Lemma fmap_pair_fst {A B} (b : B) (l : list A) : ((λ a, (a, b)) <$> l).*1 = l.
Proof. induction l as [|a l IH]; simpl; [done|by f_equal]. Qed.

Lemma Accounted_run o evs :
  GraphqlHandler.Accounted o evs (GraphqlHandler.run o evs GraphqlHandler.init).
Proof.
  induction evs as [|ev evs IH] using rev_ind; [done|].
  rewrite run_snoc. pose proof (Lazy_run o evs _ Lazy_init) as HL.
  set (s := GraphqlHandler.run o evs GraphqlHandler.init) in *.
  destruct IH as (Hreq & Hnone & Hcase). destruct HL as [_ _ H3 _ _].
  unfold GraphqlHandler.Accounted. rewrite requests_of_snoc.
  destruct s as [y p nb nc hd rj]. unfold GraphqlHandler.waiting_of in *. simpl in *.
  assert (∀ l (r : string), l ++ [r] ≠ []) as Hsnoc by (intros [|] ?; done).
  destruct ev as [r|mesh|e]; simpl.
  - unfold GraphqlHandler.handle, GraphqlHandler.then_handle. simpl.
    destruct y as [y|]; simpl.
    + pose proof (proj1 (H3 y) eq_refl) as ->. destruct Hcase as (-> & mesh & Hin & ->).
      simpl in *. split; [|split].
      * rewrite Hreq, fmap_app, !app_nil_r. done.
      * split; [done|]. intros E. by apply Hsnoc in E.
      * split; [done|]. exists mesh. split; [|done]. apply elem_of_app. by left.
    + destruct p as [[w|y|e]|]; simpl.
      * destruct Hcase as [-> ->]. simpl in *. split; [by rewrite Hreq|].
        split; [|done]. split; [done|]. intros E. by apply Hsnoc in E.
      * pose proof (proj2 (H3 y) eq_refl). discriminate.
      * destruct Hcase as [-> Hin]. simpl in *. split; [|split].
        -- rewrite Hreq, fmap_app, !app_nil_r. done.
        -- split; [done|]. intros E. by apply Hsnoc in E.
        -- split; [done|]. apply elem_of_app. by left.
      * rewrite (proj1 Hnone eq_refl) in *. destruct hd; [|done]. destruct rj; [|done].
        split; [done|]. split; [|done]. split; done.
  - rewrite app_nil_r. unfold GraphqlHandler.mesh_built. simpl.
    destruct p as [[w|y'|e]|]; simpl.
    + destruct Hcase as [-> ->]. simpl in *. split; [|split].
      * by rewrite Hreq, !app_nil_r, fmap_pair_fst.
      * split; [done|]. intros E. by apply Hnone in E.
      * split; [done|]. exists mesh. split; [|done].
        apply elem_of_app. right. by apply list_elem_of_singleton.
    + split; [done|]. split; [done|]. destruct Hcase as (? & mesh' & Hin & ?).
      split; [done|]. exists mesh'. split; [|done]. apply elem_of_app. by left.
    + split; [done|]. split; [done|]. destruct Hcase as [? Hin]. split; [done|].
      apply elem_of_app. by left.
    + done.
  - rewrite app_nil_r. unfold GraphqlHandler.mesh_failed. simpl.
    destruct p as [[w|y'|e']|]; simpl.
    + destruct Hcase as [-> ->]. simpl in *. split; [|split].
      * rewrite Hreq. simpl. by rewrite fmap_pair_fst, app_nil_r.
      * split; [done|]. intros E. by apply Hnone in E.
      * split; [done|]. apply elem_of_app. right. by apply list_elem_of_singleton.
    + split; [done|]. split; [done|]. destruct Hcase as (? & mesh' & Hin & ?).
      split; [done|]. exists mesh'. split; [|done]. apply elem_of_app. by left.
    + split; [done|]. split; [done|]. destruct Hcase as [? Hin]. split; [done|].
      apply elem_of_app. by left.
    + done.
Qed.

(** X14. Whatever requests arrive and whenever the mesh gets built,
    the handler calls [getBuiltMesh] once, on the first request, and
    [createYoga] at most once; every request gets exactly one outcome
    and the requests handled are handled in the order of their
    arrival, all by the one yoga instance, which was created from the
    built mesh with batching switched off when [batchingLimit] is
    absent or zero and GraphiQL switched off when the playground is
    not enabled. *)
Theorem yoga_is_built_once (o : GraphqlHandler.HandlerOptions)
    (evs : list GraphqlHandler.Event) :
  let s := GraphqlHandler.run o evs GraphqlHandler.init in
  GraphqlHandler.getBuiltMesh_calls s =
    (if decide (GraphqlHandler.requests_of evs = []) then 0 else 1)%nat ∧
  (GraphqlHandler.createYoga_calls s ≤ 1)%nat ∧
  GraphqlHandler.requests_of evs =
    (GraphqlHandler.handled s).*1 ++ (GraphqlHandler.rejected s).*1 ++
    GraphqlHandler.waiting_of s ∧
  (∀ r y, (r, y) ∈ GraphqlHandler.handled s →
     GraphqlHandler.yoga s = Some y ∧
     (∃ mesh, GraphqlHandler.MeshBuilt mesh ∈ evs ∧
              y = GraphqlHandler.createYoga (GraphqlHandler.yoga_options o mesh)) ∧
     (GraphqlHandler.batching y = None ↔
      GraphqlHandler.batchingLimit o = None ∨ GraphqlHandler.batchingLimit o = Some 0%Z) ∧
     (GraphqlHandler.graphiql y = None ↔ GraphqlHandler.playgroundEnabled o = false)).
Proof.
  intros s. pose proof (Lazy_run o evs _ Lazy_init) as [H1 H2 H3 H4 H5].
  destruct (Accounted_run o evs) as (Hreq & Hnone & Hcase).
  fold s in H1, H2, H3, H4, H5, Hreq, Hnone, Hcase.
  split; [|split; [|split; [done|]]].
  - rewrite H1. destruct (decide _) as [E|E].
    + apply Hnone in E. by rewrite E.
    + destruct (GraphqlHandler.yoga_p s); [done|]. by destruct E; apply Hnone.
  - rewrite H2. destruct (GraphqlHandler.yoga s); lia.
  - intros r y Hin. pose proof (H4 _ _ Hin) as Hy. split; [done|].
    apply H3 in Hy. rewrite Hy in Hcase. destruct Hcase as (_ & mesh & Hm & ->).
    split; [by exists mesh|]. simpl. split.
    + destruct (GraphqlHandler.batchingLimit o) as [n|]; [|tauto].
      destruct (decide (n = 0%Z)) as [->|]; [tauto|].
      split; [done|]. intros [?|[= ?]]; done.
    + by destruct (GraphqlHandler.playgroundEnabled o).
Qed.

(** X15. A failed build is never retried: once the promise of
    [getBuiltMesh] has been rejected, [getBuiltMesh] is not called
    again, no yoga instance is ever created, and every later request
    is answered with a promise rejected with that same error. *)
Theorem failed_build_is_not_retried (o : GraphqlHandler.HandlerOptions)
    (evs evs' : list GraphqlHandler.Event) (e : string) :
  let s := GraphqlHandler.run o evs GraphqlHandler.init in
  let s' := GraphqlHandler.run o evs' s in
  GraphqlHandler.yoga_p s = Some (GraphqlHandler.Rejected e) →
  GraphqlHandler.yoga_p s' = Some (GraphqlHandler.Rejected e) ∧
  GraphqlHandler.yoga s' = None ∧
  GraphqlHandler.getBuiltMesh_calls s' = 1%nat ∧
  GraphqlHandler.createYoga_calls s' = 0%nat ∧
  GraphqlHandler.handled s' = [] ∧
  GraphqlHandler.rejected s' =
    GraphqlHandler.rejected s ++ ((λ r, (r, e)) <$> GraphqlHandler.requests_of evs').
Proof.
  intros s s' Hp.
  pose proof (Lazy_run o evs _ Lazy_init) as HL. fold s in HL.
  assert (GraphqlHandler.handled s = []) as Hh.
  { destruct (Accounted_run o evs) as (_ & _ & Hcase). fold s in Hcase.
    rewrite Hp in Hcase. tauto. }
  unfold s'. clearbody s. clear s'. revert s HL Hp Hh.
  induction evs' as [|ev evs' IH]; intros s HL Hp Hh.
  - simpl. destruct HL as [H1 H2 H3 _ _]. rewrite Hp in H1.
    assert (GraphqlHandler.yoga s = None) as Hy.
    { destruct (GraphqlHandler.yoga s) as [y|]; [|done].
      pose proof (proj1 (H3 y) eq_refl). congruence. }
    rewrite Hy in H2. by rewrite app_nil_r.
  - simpl. pose proof HL as [_ _ H3 _ _].
    assert (GraphqlHandler.yoga s = None) as Hy.
    { destruct (GraphqlHandler.yoga s) as [y|]; [|done].
      pose proof (proj1 (H3 y) eq_refl). congruence. }
    set (s1 := GraphqlHandler.step o ev s).
    assert (GraphqlHandler.yoga_p s1 = Some (GraphqlHandler.Rejected e) ∧
            GraphqlHandler.handled s1 = [] ∧
            GraphqlHandler.rejected s1 = GraphqlHandler.rejected s ++
              ((λ r, (r, e)) <$> match ev with GraphqlHandler.Request r => [r] | _ => [] end))
      as (Hp1 & Hh1 & Hr1).
    { unfold s1. destruct ev as [r|mesh|e0]; simpl.
      - unfold GraphqlHandler.handle, GraphqlHandler.then_handle.
        rewrite Hy, Hp. simpl. rewrite Hp. simpl. by rewrite Hh.
      - unfold GraphqlHandler.mesh_built. rewrite Hp. simpl. by rewrite app_nil_r.
      - unfold GraphqlHandler.mesh_failed. rewrite Hp. simpl. by rewrite app_nil_r. }
    destruct (IH s1 (Lazy_step o ev s HL) Hp1 Hh1) as (? & ? & ? & ? & ? & Hr).
    repeat split; try done. rewrite Hr, Hr1, <- app_assoc. f_equal.
    rewrite <- fmap_app. f_equal. by destruct ev.
Qed.

Lemma failed_build_is_not_retried_witness :
  let o := {| GraphqlHandler.playgroundTitle := "Mesh";
              GraphqlHandler.playgroundEnabled := true;
              GraphqlHandler.graphqlEndpoint := "/graphql";
              GraphqlHandler.corsConfig := "*";
              GraphqlHandler.batchingLimit := Some 0%Z |} in
  let mesh := {| GraphqlHandler.plugins := []; GraphqlHandler.logger := "log" |} in
  let s := GraphqlHandler.run o
             [GraphqlHandler.Request "r1"; GraphqlHandler.MeshFailed "boom";
              GraphqlHandler.Request "r2"; GraphqlHandler.MeshBuilt mesh;
              GraphqlHandler.Request "r3"] GraphqlHandler.init in
  GraphqlHandler.getBuiltMesh_calls s = 1%nat ∧
  GraphqlHandler.rejected s = [("r1", "boom"); ("r2", "boom"); ("r3", "boom")].
Proof.
  intros o mesh s.
  destruct (failed_build_is_not_retried o
              [GraphqlHandler.Request "r1"; GraphqlHandler.MeshFailed "boom"]
              [GraphqlHandler.Request "r2"; GraphqlHandler.MeshBuilt mesh;
               GraphqlHandler.Request "r3"] "boom" eq_refl)
    as (_ & _ & Hb & _ & _ & Hr).
  split; [exact Hb|exact Hr].
Defined.

(** * Properties of the mesh runtime *)

Section GetMeshSources.
Context (groupTransforms : option (list string) → GetMesh.GroupedTransforms).
Context (applySchemaTransforms :
  string → GetMesh.MeshSource → list string → option string).

Lemma collect_from (settled : list GetMesh.ApiSource) acc :
  foldl (λ acc apiSource,
           match (GetMesh.raw_source groupTransforms applySchemaTransforms) apiSource with
           | Some raw => (acc.1 ++ [raw], acc.2)
           | None => (acc.1, true)
           end) acc settled =
  (acc.1 ++ omap (GetMesh.raw_source groupTransforms applySchemaTransforms) settled,
   acc.2 || negb (forallb (λ a, bool_decide (is_Some ((GetMesh.raw_source groupTransforms applySchemaTransforms) a))) settled)).
Proof.
  revert acc. induction settled as [|a l IH]; intros [raws failed]; simpl.
  - by rewrite app_nil_r, orb_false_r.
  - rewrite IH. destruct ((GetMesh.raw_source groupTransforms applySchemaTransforms) a) as [raw|] eqn:E; simpl.
    + rewrite <- app_assoc. simpl. f_equal.
    + by rewrite orb_true_r.
Qed.

Lemma raw_source_name a raw : (GetMesh.raw_source groupTransforms applySchemaTransforms) a = Some raw → GetMesh.raw_name raw = GetMesh.name a.
Proof.
  unfold GetMesh.raw_source. destruct (GetMesh.getMeshSource a) as [source|]; [|done].
  simpl. destruct (_ && _); simpl.
  - destruct (applySchemaTransforms _ _ _); simpl; [|done]. by intros [= <-].
  - by intros [= <-].
Qed.

Lemma raw_source_names l k :
  Forall2 (λ a raw, (GetMesh.raw_source groupTransforms applySchemaTransforms) a = Some raw) l k →
  GetMesh.raw_name <$> k = GetMesh.name <$> l.
Proof.
  induction 1 as [|a raw l k E _ IH]; [done|].
  simpl. f_equal; [by apply raw_source_name|done].
Qed.

(** X16. [getMesh] goes on past the sources exactly when every
    source could be turned into a raw source (its handler produced a
    source and, where bare transforms had to be applied, applying
    them did not throw); it then has one raw source per configured
    source, under the same names, in the order in which the handlers
    settled.  If a single source fails it throws the error of line
    110, however many sources succeeded. *)
Theorem sources_all_or_nothing (settled : list GetMesh.ApiSource) :
  match GetMesh.getMesh_sources groupTransforms applySchemaTransforms settled with
  | inl rawSources =>
      Forall2 (λ a raw, (GetMesh.raw_source groupTransforms applySchemaTransforms) a = Some raw) settled rawSources ∧
      GetMesh.raw_name <$> rawSources = GetMesh.name <$> settled
  | inr e =>
      e = GetMesh.schemas_failed ∧ ∃ a, a ∈ settled ∧ (GetMesh.raw_source groupTransforms applySchemaTransforms) a = None
  end.
Proof.
  unfold GetMesh.getMesh_sources, GetMesh.collect. rewrite collect_from. simpl.
  destruct (forallb _ settled) eqn:Hall; simpl.
  - rewrite forallb_forall in Hall.
    assert (Forall2 (λ a raw, (GetMesh.raw_source groupTransforms applySchemaTransforms) a = Some raw) settled (omap (GetMesh.raw_source groupTransforms applySchemaTransforms) settled))
      as HF.
    { induction settled as [|a l IH]; simpl; [constructor|].
      assert (is_Some ((GetMesh.raw_source groupTransforms applySchemaTransforms) a)) as [raw E].
      { eapply bool_decide_eq_true_1, Hall. by left. }
      rewrite E. constructor; [done|]. apply IH. intros x Hx. apply Hall. by right. }
    split; [done|]. by apply raw_source_names.
  - split; [done|].
    assert (¬ Forall (λ a, is_Some ((GetMesh.raw_source groupTransforms applySchemaTransforms) a)) settled) as Hn.
    { intros HF. rewrite Forall_forall in HF.
      assert (forallb (λ a, bool_decide (is_Some ((GetMesh.raw_source groupTransforms applySchemaTransforms) a))) settled = true)
        as E; [|congruence].
      apply forallb_forall. intros x Hx. apply bool_decide_eq_true_2, HF.
      by apply list_elem_of_In. }
    apply not_Forall_Exists in Hn; [|apply _].
    apply Exists_exists in Hn as (a & Hin & Ha). exists a. split; [done|].
    destruct ((GetMesh.raw_source groupTransforms applySchemaTransforms) a) as [raw|] eqn:E; [|done]. destruct Ha. rewrite E. by eexists.
Qed.
End GetMeshSources.

Section GetMeshLiveQuery.
Context (getInterpolatedStringFactory : string → GetMesh.FactoryInput → string).

Lemma factory_map_lookup (cfg : list GetMesh.LiveQueryInvalidation) (path : string) :
  GetMesh.liveQueryInvalidationFactoryMap getInterpolatedStringFactory (Some cfg) !! path =
  (λ lqi, getInterpolatedStringFactory <$> GetMesh.invalidate lqi)
    <$> last (filter (λ lqi, GetMesh.field lqi = path) cfg).
Proof.
  unfold GetMesh.liveQueryInvalidationFactoryMap. simpl.
  induction cfg as [|x cfg IH] using rev_ind; [done|].
  rewrite foldl_app, filter_app. simpl.
  destruct (decide (GetMesh.field x = path)) as [E|E].
  - rewrite E, lookup_insert_eq, filter_cons_True by done.
    rewrite filter_nil. by rewrite last_snoc.
  - rewrite lookup_insert_ne by done. rewrite filter_cons_False by done.
    by rewrite filter_nil, app_nil_r.
Qed.

(** X17. After a resolver has been called, the live-query store is
    invalidated exactly when an entry of [liveQueryInvalidations]
    names the field [Type.field] of that resolver; of several entries
    for one field only the last counts; the invalidated paths are that
    entry's templates, in their order, each interpolated with the
    resolver data, the environment and the result.  Without a parent
    type or with an empty field name nothing is invalidated. *)
Theorem invalidation_uses_last_entry
    (cfg : list GetMesh.LiveQueryInvalidation) (rd : GetMesh.ResolverData)
    (env result : string) :
  GetMesh.onResolverCalled (GetMesh.liveQueryInvalidationFactoryMap getInterpolatedStringFactory (Some cfg)) (Some rd) env result =
  match GetMesh.resolver_info rd ≫= GetMesh.parentType,
        GetMesh.resolver_info rd ≫= GetMesh.info_fieldName with
  | Some parent, Some fieldName =>
      if decide (fieldName = "") then None
      else
        (λ lqi,
           (λ template,
              getInterpolatedStringFactory template
                {| GetMesh.input_data := rd; GetMesh.input_env := env;
                   GetMesh.input_result := result |})
           <$> GetMesh.invalidate lqi)
        <$> last (filter (λ lqi, GetMesh.field lqi = (parent ++ "." ++ fieldName)%string) cfg)
  | _, _ => None
  end.
Proof.
  unfold GetMesh.onResolverCalled.
  destruct (GetMesh.resolver_info rd ≫= GetMesh.parentType) as [parent|]; [|done].
  destruct (GetMesh.resolver_info rd ≫= GetMesh.info_fieldName) as [fieldName|]; [|done].
  simpl. destruct (decide (fieldName = "")); [done|].
  rewrite factory_map_lookup.
  destruct (last _) as [lqi|]; [|done]. simpl. f_equal.
  by rewrite <- list_fmap_compose.
Qed.
End GetMeshLiveQuery.

Section GetMeshSDK.
Context (parseSelectionSet : string → option GetMesh.SelectionSetNode).
Context (print : string → string).

Lemma selectionCount_from (l : list GetMesh.FieldNode) (n : nat) :
  foldl (λ count fieldNode,
           match GetMesh.field_selectionSet fieldNode with
           | Some s => count + length (GetMesh.selections s)
           | None => count
           end)%nat n l =
  (n + foldl (λ count fieldNode,
                match GetMesh.field_selectionSet fieldNode with
                | Some s => count + length (GetMesh.selections s)
                | None => count
                end)%nat 0 l)%nat.
Proof.
  revert n. induction l as [|x l IH]; intros n; simpl; [lia|].
  rewrite IH. rewrite (IH (match _ with Some _ => _ | None => _ end)).
  destruct (GetMesh.field_selectionSet x); lia.
Qed.

Lemma selectionCount_with_typename (i : GetMesh.GraphQLResolveInfo) :
  GetMesh.selectionCount i = 0%nat →
  GetMesh.selectionCount (GetMesh.with_typename i) = 1%nat.
Proof.
  unfold GetMesh.selectionCount. simpl. destruct (GetMesh.fieldNodes i) as [|x l]; [done|].
  simpl. rewrite drop_0. intros H.
  rewrite selectionCount_from in H. rewrite selectionCount_from. lia.
Qed.

(** X18. A function of the in-context SDK throws, instead of
    delegating, exactly when all of this holds: the field returns a
    composite type, the [info] it is called with (by default one
    without field nodes) selects nothing, and no selection set is
    given; an empty string counts as none.  The error names the
    source, the root type and the field. *)
Theorem sdk_requires_selection_set (f : GetMesh.RootField) (a : GetMesh.SdkArgs)
    (msg : string) :
  GetMesh.sdk parseSelectionSet print f a = GetMesh.Thrown msg ↔
  GetMesh.shouldHaveSelectionSet f = true ∧
  GetMesh.selectionCount (default (GetMesh.default_info f) (GetMesh.info a)) = 0%nat ∧
  GetMesh.truthy_param (GetMesh.selectionSet a) = false ∧
  msg = ("You have to provide 'selectionSet' for context." ++ GetMesh.rawSourceName f
           ++ "." ++ GetMesh.rootTypeName f ++ "." ++ GetMesh.root_fieldName f)%string.
Proof.
  unfold GetMesh.sdk.
  assert (∀ o, match GetMesh.key a, GetMesh.argsFromKeys a with
               | Some k, Some fromKeys =>
                   if GetMesh.truthy_string (Some k)
                   then GetMesh.BatchDelegated o k fromKeys (GetMesh.valuesFromResults a)
                   else GetMesh.Delegated o (GetMesh.args a) (GetMesh.valuesFromResults a)
               | _, _ => GetMesh.Delegated o (GetMesh.args a) (GetMesh.valuesFromResults a)
               end ≠ GetMesh.Thrown msg) as Hd.
  { intros o. destruct (GetMesh.key a) as [k|]; [|done].
    destruct (GetMesh.argsFromKeys a); [|done].
    by destruct (GetMesh.truthy_string (Some k)). }
  destruct (GetMesh.shouldHaveSelectionSet f).
  - destruct (decide _) as [E|E].
    + destruct (GetMesh.truthy_param (GetMesh.selectionSet a)).
      * split; [by intros ?%Hd|]. intros (_ & _ & ? & _). done.
      * split; [intros [= <-]; done|]. by intros (_ & _ & _ & ->).
    + split; [by intros ?%Hd|]. intros (_ & ? & _). done.
  - split; [by intros ?%Hd|]. intros (? & _). done.
Qed.

(** X19. When a function of the in-context SDK delegates for a field
    of composite type, the [info] it passes on always selects
    something: it is the caller's [info] when that selects something,
    and otherwise the caller's with the selection [__typename] put on
    its first field node, the other field nodes and properties kept.
    For a field of leaf type the [info] is passed on untouched.  The
    [WrapQuery] transform is attached exactly when a selection set is
    given, and the call is batched exactly when a non-empty [key] and
    [argsFromKeys] are both given. *)
Theorem sdk_delegates_with_selection (f : GetMesh.RootField) (a : GetMesh.SdkArgs)
    (o : GetMesh.DelegateOptions) :
  GetMesh.options_of (GetMesh.sdk parseSelectionSet print f a) = Some o →
  let i := default (GetMesh.default_info f) (GetMesh.info a) in
  (GetMesh.shouldHaveSelectionSet f = true → GetMesh.selectionCount (GetMesh.d_info o) ≠ 0%nat) ∧
  (GetMesh.shouldHaveSelectionSet f = false ∨ GetMesh.selectionCount i ≠ 0%nat →
   GetMesh.d_info o = i) ∧
  (GetMesh.shouldHaveSelectionSet f = true → GetMesh.selectionCount i = 0%nat →
   GetMesh.d_info o = GetMesh.with_typename i ∧
   GetMesh.selectionCount (GetMesh.d_info o) = 1%nat ∧
   drop 1 (GetMesh.fieldNodes (GetMesh.d_info o)) = drop 1 (GetMesh.fieldNodes i)) ∧
  (is_Some (GetMesh.d_transforms o) ↔ GetMesh.truthy_param (GetMesh.selectionSet a) = true) ∧
  (GetMesh.is_batch (GetMesh.sdk parseSelectionSet print f a) = true ↔
   GetMesh.truthy_string (GetMesh.key a) = true ∧ is_Some (GetMesh.argsFromKeys a)).
Proof.
  intros Ho i.
  set (transforms := if GetMesh.truthy_param (GetMesh.selectionSet a) then
      match GetMesh.selectionSet a with
      | Some selectionSet =>
          Some [{| GetMesh.wrap_path := [GetMesh.root_fieldName f];
                   GetMesh.wrapper :=
                     GetMesh.normalizeSelectionSetParamOrFactory parseSelectionSet print
                       selectionSet;
                   GetMesh.extractor := GetMesh.identical |}]
      | None => None
      end
    else None).
  assert (is_Some transforms ↔ GetMesh.truthy_param (GetMesh.selectionSet a) = true) as Ht.
  { unfold transforms. destruct (GetMesh.selectionSet a) as [p|].
    - destruct (GetMesh.truthy_param (Some p)).
      + split; [done|]. intros _. by eexists.
      + split; [|done]. intros [? ?]. done.
    - split; [|done]. intros [? ?]. done. }
  set (delegate := λ i' : GetMesh.GraphQLResolveInfo,
    match GetMesh.key a, GetMesh.argsFromKeys a with
    | Some k, Some fromKeys =>
        if GetMesh.truthy_string (Some k)
        then GetMesh.BatchDelegated
               {| GetMesh.d_rootValue := GetMesh.root a;
                  GetMesh.d_operation := GetMesh.operationType f;
                  GetMesh.d_fieldName := GetMesh.root_fieldName f;
                  GetMesh.d_context := GetMesh.context a;
                  GetMesh.d_info := i'; GetMesh.d_transforms := transforms |}
               k fromKeys (GetMesh.valuesFromResults a)
        else GetMesh.Delegated
               {| GetMesh.d_rootValue := GetMesh.root a;
                  GetMesh.d_operation := GetMesh.operationType f;
                  GetMesh.d_fieldName := GetMesh.root_fieldName f;
                  GetMesh.d_context := GetMesh.context a;
                  GetMesh.d_info := i'; GetMesh.d_transforms := transforms |}
               (GetMesh.args a) (GetMesh.valuesFromResults a)
    | _, _ => GetMesh.Delegated
               {| GetMesh.d_rootValue := GetMesh.root a;
                  GetMesh.d_operation := GetMesh.operationType f;
                  GetMesh.d_fieldName := GetMesh.root_fieldName f;
                  GetMesh.d_context := GetMesh.context a;
                  GetMesh.d_info := i'; GetMesh.d_transforms := transforms |}
               (GetMesh.args a) (GetMesh.valuesFromResults a)
    end).
  assert (∀ i', GetMesh.options_of (delegate i') = Some o →
            GetMesh.d_info o = i' ∧ GetMesh.d_transforms o = transforms) as Hopt.
  { intros i'. unfold delegate. destruct (GetMesh.key a) as [k|];
      [destruct (GetMesh.argsFromKeys a); [destruct (GetMesh.truthy_string (Some k))|]|];
      simpl; by intros [= <-]. }
  assert (∀ i', GetMesh.is_batch (delegate i') = true ↔
            GetMesh.truthy_string (GetMesh.key a) = true ∧ is_Some (GetMesh.argsFromKeys a))
    as Hbatch.
  { intros i'. unfold delegate. destruct (GetMesh.key a) as [k|].
    - destruct (GetMesh.argsFromKeys a) as [fk|].
      + destruct (GetMesh.truthy_string (Some k)); simpl; split; try done.
        * by intros [? _].
      + simpl. split; [done|]. by intros [_ [? ?]].
    - simpl. split; [done|]. by intros [? _]. }
  assert (GetMesh.sdk parseSelectionSet print f a =
          if GetMesh.shouldHaveSelectionSet f then
            if decide (GetMesh.selectionCount i = 0%nat) then
              if GetMesh.truthy_param (GetMesh.selectionSet a)
              then delegate (GetMesh.with_typename i)
              else GetMesh.Thrown (GetMesh.selection_set_missing f)
            else delegate i
          else delegate i) as Hsdk by done.
  rewrite Hsdk in Ho |- *. clear Hsdk.
  destruct (GetMesh.shouldHaveSelectionSet f).
  - destruct (decide (GetMesh.selectionCount i = 0%nat)) as [E|E].
    + destruct (GetMesh.truthy_param (GetMesh.selectionSet a)) eqn:Hp; [|done].
      destruct (Hopt _ Ho) as [Hi Htr]. rewrite Hi, Htr.
      pose proof (selectionCount_with_typename i E) as H1.
      split; [intros _; by rewrite H1|]. split; [intros [?|?]; done|].
      split; [done|]. split; [by rewrite Ht|apply Hbatch].
    + destruct (Hopt _ Ho) as [Hi Htr]. rewrite Hi, Htr.
      split; [done|]. split; [done|]. split; [done|]. split; [done|apply Hbatch].
  - destruct (Hopt _ Ho) as [Hi Htr]. rewrite Hi, Htr.
    split; [done|]. split; [done|]. split; [done|]. split; [done|apply Hbatch].
Qed.

End GetMeshSDK.

Lemma sdk_requires_selection_set_witness :
  let f := {| GetMesh.rawSourceName := "Products"; GetMesh.rootTypeName := "Query";
              GetMesh.root_fieldName := "product"; GetMesh.operationType := "query";
              GetMesh.shouldHaveSelectionSet := true |} in
  let a := {| GetMesh.root := "{}"; GetMesh.args := "{id:1}"; GetMesh.context := "ctx";
              GetMesh.info := None;
              GetMesh.selectionSet := Some (GetMesh.Param (GetMesh.ParamString ""));
              GetMesh.key := None; GetMesh.argsFromKeys := None;
              GetMesh.valuesFromResults := None |} in
  GetMesh.sdk (λ _, None) id f a =
  GetMesh.Thrown "You have to provide 'selectionSet' for context.Products.Query.product".
Proof.
  intros f a.
  apply (sdk_requires_selection_set (λ _, None) id f a). repeat split.
Defined.

Lemma sdk_delegates_with_selection_witness :
  let f := {| GetMesh.rawSourceName := "Products"; GetMesh.rootTypeName := "Query";
              GetMesh.root_fieldName := "product"; GetMesh.operationType := "query";
              GetMesh.shouldHaveSelectionSet := true |} in
  let a := {| GetMesh.root := "{}"; GetMesh.args := "{id:1}"; GetMesh.context := "ctx";
              GetMesh.info := None;
              GetMesh.selectionSet := Some (GetMesh.Param (GetMesh.ParamString "{ id }"));
              GetMesh.key := Some ""; GetMesh.argsFromKeys := Some "ids => ({ ids })";
              GetMesh.valuesFromResults := None |} in
  ∃ o, GetMesh.options_of (GetMesh.sdk (λ _, None) id f a) = Some o ∧
       GetMesh.fieldNodes (GetMesh.d_info o) =
         [{| GetMesh.field_properties := [];
             GetMesh.field_selectionSet := Some GetMesh.typename_selection |}] ∧
       GetMesh.is_batch (GetMesh.sdk (λ _, None) id f a) = false.
Proof.
  intros f a. eexists. split; [reflexivity|].
  destruct (sdk_delegates_with_selection (λ _, None) id f a _ eq_refl)
    as (_ & _ & H3 & _ & _).
  destruct (H3 eq_refl eq_refl) as (H & _ & _). split; [|reflexivity].
  exact (f_equal GetMesh.fieldNodes H).
Defined.
